(** * ncsales: the lead-scoring pipeline of [ncsales/cli.py]

    A shallow embedding of [parse_row], [get_quartile_label],
    [process_file] and of what [main] computes, with the Python built-ins
    they call ([int], [float], [round], [str], [dict]) modelled beside
    them.

    Conventions of the model:
    - a Python [float] is an IEEE 754 binary64 number, here the primitive
      type [float] whose operations are specified by [FloatAxioms];
    - a Python [int] is a [Z];
    - a Python [str] is a [string] whose characters are the code points
      0..255 (the digits and blanks of Unicode above 255 are left out);
    - a [dict] keeps its keys in insertion order, as the language
      guarantees since Python 3.7 ([setup.py] asks for 3.5 or more, and
      the dictionaries of 3.5 give their keys in the order of their hash
      table instead: only the order of the entries of a report depends on
      this);
    - [int] is the one of CPython 3.6 to 3.10: it accepts the underscores
      of PEP 515, which 3.5 refuses, and has no limit on the number of
      digits, which 3.11 sets;
    - logging is not modelled: it changes no value the pipeline computes. *)

From Stdlib Require Import ZArith List String Ascii Bool Lia Floats.
From Stdlib Require Import Permutation.
From Stdlib Require Decimal DecimalString DecimalZ.
Import ListNotations.

Local Open Scope Z_scope.

(** ** Python built-ins on strings *)

Module Py.

(** The blanks that [int] and [float] pass over at both ends of a text:
    the ASCII ones (tab to carriage return, 9 to 13, and the space, 32)
    and, of the code points from 128 to 255, NEL (133) and the no-break
    space (160), which both functions turn into spaces before they read
    the text. The separators 28 to 31 are blanks for [str.isspace] but not
    here: [int] and [float] raise [ValueError] on them. *)
Definition is_space (c : ascii) : bool :=
  let n := Z.of_N (N_of_ascii c) in
  ((9 <=? n) && (n <=? 13)) || (n =? 32) || (n =? 133) || (n =? 160).

Definition digit_of (c : ascii) : option Z :=
  let n := Z.of_N (N_of_ascii c) in
  if (48 <=? n) && (n <=? 57) then Some (n - 48) else None.

Definition is_digit (c : ascii) : bool :=
  match digit_of c with Some _ => true | None => false end.

Fixpoint lstrip (s : list ascii) : list ascii :=
  match s with
  | c :: t => if is_space c then lstrip t else s
  | [] => []
  end.

Definition strip (s : list ascii) : list ascii :=
  rev (lstrip (rev (lstrip s))).

(** An optional sign: [true] for a minus. *)
Definition sign_of (s : list ascii) : bool * list ascii :=
  match s with
  | "-"%char :: t => (true, t)
  | "+"%char :: t => (false, t)
  | _ => (false, s)
  end.

(** The longest run of decimal digits at the head of [s], most significant
    first, and what follows it. *)
Fixpoint digits_run (s : list ascii) : list Z * list ascii :=
  match s with
  | c :: t =>
      match digit_of c with
      | Some d => let (ds, rest) := digits_run t in (d :: ds, rest)
      | None => ([], s)
      end
  | [] => ([], [])
  end.

Definition number_of (ds : list Z) : Z :=
  fold_left (fun acc d => 10 * acc + d) ds 0.

(** Underscores of a numeric literal (PEP 515): each one stands between two
    digits; they are dropped before the number is read. *)
Fixpoint drop_underscores (prev : option ascii) (s : list ascii)
  : option (list ascii) :=
  match s with
  | [] => Some []
  | "_"%char :: t =>
      match prev, t with
      | Some p, n :: _ =>
          if is_digit p && is_digit n then drop_underscores (Some "_"%char) t
          else None
      | _, _ => None
      end
  | c :: t =>
      match drop_underscores (Some c) t with
      | Some r => Some (c :: r)
      | None => None
      end
  end.

(** [int(s)] for a string [s], base 10: [None] stands for [ValueError]. *)
Definition int_of_chars (s : list ascii) : option Z :=
  let (neg, body) := sign_of (strip s) in
  match drop_underscores None body with
  | Some body' =>
      match digits_run body' with
      | (d :: ds, []) =>
          let n := number_of (d :: ds) in Some (if neg then - n else n)
      | _ => None
      end
  | None => None
  end.

Definition int (s : string) : option Z :=
  int_of_chars (list_ascii_of_string s).

(** *** [float(s)]

    The grammar is the one of [float]: blanks around, a sign, then [inf],
    [infinity] or [nan] in any case, or a decimal number with an optional
    fraction and exponent. The value is the binary64 number nearest to the
    decimal one, ties to even. *)

Definition lower (c : ascii) : ascii :=
  let n := N_of_ascii c in
  if (65 <=? n)%N && (n <=? 90)%N then ascii_of_N (n + 32) else c.

Definition is_word (w : string) (s : list ascii) : bool :=
  String.eqb (string_of_list_ascii (map lower s)) w.

(** The exponent part [e|E [sign] digits]; when it is not complete nothing
    of it is consumed. *)
Definition exponent_of (s : list ascii) : Z * list ascii :=
  match s with
  | c :: t =>
      if Ascii.eqb (lower c) "e"%char then
        let (neg, t') := sign_of t in
        match digits_run t' with
        | (d :: ds, rest) =>
            let n := number_of (d :: ds) in ((if neg then - n else n), rest)
        | ([], _) => (0, s)
        end
      else (0, s)
  | [] => (0, [])
  end.

(** A decimal literal as [(m, e)], standing for [m * 10 ^ e]. *)
Definition decimal_of (s : list ascii) : option (Z * Z) :=
  let (ip, r1) := digits_run s in
  let (fp, r2) :=
    match r1 with
    | "."%char :: t => digits_run t
    | _ => ([], r1)
    end in
  match ip ++ fp with
  | [] => None
  | ds =>
      match exponent_of r2 with
      | (x, []) => Some (number_of ds, x - Z.of_nat (List.length fp))
      | (_, _ :: _) => None
      end
  end.

Definition signed (neg : bool) (x : spec_float) : float :=
  SF2Prim (if neg then SFopp x else x).

(** The binary64 number nearest to [m * 10 ^ e], for [0 <= m]. A quotient
    is cut with a sticky last bit, so that [binary_normalize] rounds it as
    it would round the exact value. The two early exits keep the powers of
    ten small: beyond them the value is above every finite binary64, or
    below half of the least positive one. *)
Definition float_of_decimal (neg : bool) (m e : Z) : float :=
  if m =? 0 then signed neg (S754_zero false)
  else if 0 <=? e then
    if 1100 <? Z.log2 m + 3 * e then signed neg (S754_infinity false)
    else signed neg (binary_normalize prec emax (m * 10 ^ e) 0 false)
  else if Z.log2 m + 1 + 3 * e <? -1080 then signed neg (S754_zero false)
  else
    let d := 10 ^ (- e) in
    let s := Z.max 0 (64 + (Z.log2 d + 1) - Z.log2 m) in
    let (q, r) := Z.div_eucl (m * 2 ^ s) d in
    let sticky := if r =? 0 then 0 else 1 in
    signed neg (binary_normalize prec emax (2 * q + sticky) (- s - 1) false).

(** [float(s)] for a string [s]: [None] stands for [ValueError]. *)
Definition float_of_chars (s : list ascii) : option float :=
  match drop_underscores None (strip s) with
  | Some body =>
      let (neg, u) := sign_of body in
      if is_word "inf" u || is_word "infinity" u then
        Some (signed neg (S754_infinity false))
      else if is_word "nan" u then Some nan
      else
        match decimal_of u with
        | Some (m, e) => Some (float_of_decimal neg m e)
        | None => None
        end
  | None => None
  end.

Definition float (s : string) : option PrimFloat.float :=
  float_of_chars (list_ascii_of_string s).

(** *** Exceptions the pipeline can end with *)

Inductive exn : Set :=
  | ValueError
  | OverflowError
  | KeyError
  | TypeError.

(** *** [round(x)] for a float [x]

    The nearest integer to the value of [x], the even one when two are
    equally near; [ValueError] for a NaN and [OverflowError] for an
    infinity, as [float.__round__] raises them. *)

(** The integer nearest to [m * 2 ^ e], ties to even, for [0 <= m]. *)
Definition round_half_even (m e : Z) : Z :=
  if 0 <=? e then m * 2 ^ e
  else
    let d := 2 ^ (- e) in
    let q := m / d in
    match 2 * (m mod d) ?= d with
    | Lt => q
    | Gt => q + 1
    | Eq => if Z.even q then q else q + 1
    end.

Definition round (x : PrimFloat.float) : exn + Z :=
  match Prim2SF x with
  | S754_nan => inl ValueError
  | S754_infinity _ => inl OverflowError
  | S754_zero _ => inr 0
  | S754_finite s m e => inr (cond_Zopp s (round_half_even (Zpos m) e))
  end.

(** A text of blanks only. *)
Definition blank (s : string) : bool :=
  forallb is_space (list_ascii_of_string s).

End Py.

(** ** A [dict]: keys in insertion order *)

Module Dict.

Section Dict.
Context {K V : Type}.
Variable eqb : K -> K -> bool.

Definition t : Type := list (K * V).

(** [d.get(k)] *)
Fixpoint get (k : K) (d : t) : option V :=
  match d with
  | [] => None
  | (k', v) :: r => if eqb k k' then Some v else get k r
  end.

(** [d[k] = v]: a key already there keeps its place, a new one goes last. *)
Fixpoint set (k : K) (v : V) (d : t) : t :=
  match d with
  | [] => [(k, v)]
  | (k', v') :: r => if eqb k k' then (k', v) :: r else (k', v') :: set k v r
  end.

(** [dict(pairs)] *)
Definition of_pairs (pairs : list (K * V)) : t :=
  fold_left (fun d p => set (fst p) (snd p) d) pairs [].

Definition keys (d : t) : list K := map fst d.
Definition values (d : t) : list V := map snd d.
Definition items (d : t) : list (K * V) := d.

End Dict.

End Dict.

(** ** [ncsales/cli.py] *)

Module Cli.

Import Py.

Set Warnings "-inexact-float".

Local Open Scope string_scope.
Local Open Scope list_scope.
Local Open Scope Z_scope.

(** *** Constants (lines 17-29) *)

Definition EVENT_TYPES : list string := ["web"; "email"; "social"; "webinar"].

Definition EVENT_FACTORS : list (string * PrimFloat.float) :=
  [("web", 1.0%float); ("email", 1.2%float);
   ("social", 1.5%float); ("webinar", 2.0%float)].

Definition QUARTILE_LABELS : list (string * (Z * Z)) :=
  [("platinum", (75, 100)); ("gold", (50, 74));
   ("silver", (25, 49)); ("bronze", (0, 24))].

(** *** [ValidationError] (lines 32-33), by the message it is raised with *)

Inductive ValidationError : Set :=
  | MalformedRow
  | BadContactId
  | UnknownEventType
  | BadScore.

Definition message (e : ValidationError) : string :=
  match e with
  | MalformedRow => "Malformed row"
  | BadContactId => "Bad contact id"
  | UnknownEventType => "Unknown event type"
  | BadScore => "Bad score"
  end.

(** *** [parse_row] (lines 67-101)

    A row comes from [csv.reader] as a list of strings. [parse_row] writes
    into that list: [row[0] = int(row[0])] and [row[2] = float(row[2])],
    and returns the list itself. The model gives the content of the list
    when the call ends, and how it ends: with a [ValidationError], or
    returning the list (whose content is then the first component). *)

Inductive value : Type :=
  | VStr (s : string)
  | VInt (n : Z)
  | VFloat (x : PrimFloat.float).

(** [l[i] = v] for an index within the list. *)
Fixpoint set_item {A : Type} (l : list A) (i : nat) (v : A) : list A :=
  match l, i with
  | [], _ => []
  | _ :: t, O => v :: t
  | a :: t, S j => a :: set_item t j v
  end.

(** [s in EVENT_TYPES] *)
Definition known_event_type (s : string) : bool :=
  existsb (String.eqb s) EVENT_TYPES.

Definition field (i : nat) (row : list string) : string := nth i row "".

Definition parse_row (row : list string)
  : list value * (ValidationError + list value) :=
  let row0 := map VStr row in
  if (List.length row <? 3)%nat then (row0, inl MalformedRow)
  else
    match Py.int (field 0 row) with
    | None => (row0, inl BadContactId)
    | Some n =>
        let row1 := set_item row0 0 (VInt n) in
        if negb (known_event_type (field 1 row)) then
          (row1, inl UnknownEventType)
        else
          match Py.float (field 2 row) with
          | None => (row1, inl BadScore)
          | Some x =>
              let row2 := set_item row1 2 (VFloat x) in
              (row2, inr row2)
          end
    end.

(** *** [get_quartile_label] (lines 104-120) *)

Fixpoint first_band (bands : list (string * (Z * Z))) (score : Z) : string :=
  match bands with
  | [] => ""
  | (label, (lo, hi)) :: rest =>
      if (lo <=? score) && (score <=? hi) then label
      else first_band rest score
  end.

Definition get_quartile_label (score : Z) : string :=
  first_band (Dict.items (Dict.of_pairs String.eqb QUARTILE_LABELS)) score.

(** *** [process_file] (lines 123-176)

    The rows are what [get_data] yields. [process_file] is a generator: the
    model gives the entries it yields, in order, and the exception that
    ends it, if one does. *)

Definition entry : Type := Z * string * Z.

(** [contact_id, event_type, score = parse_row(row)] (line 146): unpacking
    asks for exactly three values. *)
Definition unpack (r : list value) : exn + (Z * string * PrimFloat.float) :=
  match r with
  | [VInt contact_id; VStr event_type; VFloat score] =>
      inr (contact_id, event_type, score)
  | [_; _; _] => inl TypeError
  | _ => inl ValueError
  end.

Definition factors : Dict.t := Dict.of_pairs String.eqb EVENT_FACTORS.

(** The body of the loop of lines 144-150, for one row. [contacts] is a
    [defaultdict(float)]: a missing key reads as [0.0]. *)
Definition add_row (contacts : @Dict.t Z PrimFloat.float) (row : list string)
  : exn + @Dict.t Z PrimFloat.float :=
  match snd (parse_row row) with
  | inl _ => inr contacts
  | inr r =>
      match unpack r with
      | inl e => inl e
      | inr (contact_id, event_type, score) =>
          match Dict.get String.eqb event_type factors with
          | None => inl KeyError
          | Some factor =>
              let old :=
                match Dict.get Z.eqb contact_id contacts with
                | Some total => total
                | None => 0%float
                end in
              inr (Dict.set Z.eqb contact_id (old + score * factor)%float
                     contacts)
          end
      end
  end.

Fixpoint aggregate (rows : list (list string))
  (contacts : @Dict.t Z PrimFloat.float) : exn + @Dict.t Z PrimFloat.float :=
  match rows with
  | [] => inr contacts
  | row :: rest =>
      match add_row contacts row with
      | inl e => inl e
      | inr contacts' => aggregate rest contacts'
      end
  end.

(** Lines 153-159: [(max_score, min_score)], both [None] before the first
    score. *)
Definition extremes_step (acc : option PrimFloat.float * option PrimFloat.float)
  (score : PrimFloat.float) : option PrimFloat.float * option PrimFloat.float :=
  let (max_score, min_score) := acc in
  (match max_score with
   | None => Some score
   | Some m => if (m <? score)%float then Some score else Some m
   end,
   match min_score with
   | None => Some score
   | Some m => if (score <? m)%float then Some score else Some m
   end).

Definition extremes (scores : list PrimFloat.float)
  : option PrimFloat.float * option PrimFloat.float :=
  fold_left extremes_step scores (None, None).

(** Lines 164-169. The first two cases are never met inside the loop: a
    dictionary with an item has both extremes. *)
Definition normalized_score (max_score min_score : option PrimFloat.float)
  (score : PrimFloat.float) : exn + Z :=
  match max_score, min_score with
  | None, None => inr 0
  | None, Some _ | Some _, None => inl TypeError
  | Some mx, Some mn =>
      if (mx =? mn)%float then inr 0
      else Py.round ((score - mn) / (mx - mn) * 100)%float
  end.

(** The loop of lines 163-176. *)
Fixpoint report (max_score min_score : option PrimFloat.float)
  (items : list (Z * PrimFloat.float)) : list entry * option exn :=
  match items with
  | [] => ([], None)
  | (contact_id, score) :: rest =>
      match normalized_score max_score min_score score with
      | inl e => ([], Some e)
      | inr n =>
          let label := get_quartile_label n in
          let (entries, ending) := report max_score min_score rest in
          ((contact_id, label, n) :: entries, ending)
      end
  end.

Definition normalize (contacts : @Dict.t Z PrimFloat.float)
  : list entry * option exn :=
  let (max_score, min_score) := extremes (Dict.values contacts) in
  report max_score min_score (Dict.items contacts).

Definition process_file (rows : list (list string)) : list entry * option exn :=
  match aggregate rows [] with
  | inl e => ([], Some e)
  | inr contacts => normalize contacts
  end.

End Cli.

(** ** [main] (lines 179-200) *)

Module Main.

Import Py Cli.

Local Open Scope string_scope.
Local Open Scope list_scope.
Local Open Scope Z_scope.

(** An occurrence of [-v]/[--verbose] or of [-q]/[--quiet] on the command
    line. Both options write to [args.level]: the first with the action
    [count], which adds one, the second with [store_const] and [const=0]. *)
Inductive flag : Set :=
  | Verbose
  | Quiet.

Definition store (level : Z) (f : flag) : Z :=
  match f with
  | Verbose => level + 1
  | Quiet => 0
  end.

(** [args.level] after [parse_args]: the options in the order of the
    command line, from [default=1]. *)
Definition parsed_level (flags : list flag) : Z := fold_left store flags 1.

(** The levels of [logging]. *)
Definition ERROR : Z := 40.
Definition WARN : Z := 30.
Definition INFO : Z := 20.
Definition DEBUG : Z := 10.

Definition levels : list Z := [ERROR; WARN; INFO; DEBUG].

(** [l[i]] for a list: a negative index counts from the end, and [None]
    stands for [IndexError]. *)
Definition getitem {A : Type} (l : list A) (i : Z) : option A :=
  let n := Z.of_nat (List.length l) in
  if (0 <=? i) && (i <? n) then nth_error l (Z.to_nat i)
  else if (- n <=? i) && (i <? 0) then nth_error l (Z.to_nat (i + n))
  else None.

(** [levels[min(args.level, len(levels)-1)]] (line 197) *)
Definition log_level (flags : list flag) : option Z :=
  getitem levels
    (Z.min (parsed_level flags) (Z.of_nat (List.length levels) - 1)).

(** [str(n)] for an integer: its decimal digits, after a minus sign when it
    is negative. *)
Definition str (n : Z) : string := DecimalString.NilEmpty.string_of_int (Z.to_int n).

(** ["{}, {}, {}".format(contact_id, label, score)] (line 200) *)
Definition report_line (e : entry) : string :=
  let '(contact_id, label, score) := e in
  str contact_id ++ ", " ++ label ++ ", " ++ str score.

(** What [main] prints for the rows of the file, and the exception that
    ends it, if one does. *)
Definition printed (rows : list (list string)) : list string * option exn :=
  (map report_line (fst (process_file rows)), snd (process_file rows)).

Definition has_comma (s : string) : bool :=
  existsb (Ascii.eqb ","%char) (list_ascii_of_string s).

End Main.

(** ** The bands of the labels *)

Module Bands.

Import Py Cli.

Local Open Scope string_scope.
Local Open Scope list_scope.
Local Open Scope Z_scope.

(** The least score of the band of a label in [QUARTILE_LABELS], and [-1]
    for a text that is not one of its labels. *)
Definition band_floor (label : string) : Z :=
  match Dict.get String.eqb label (Dict.of_pairs String.eqb QUARTILE_LABELS)
  with
  | Some (lo, _) => lo
  | None => -1
  end.

End Bands.

(** * What the specification says, in its own words *)

Module Spec.

Import Py Cli.

Set Warnings "-inexact-float".

Local Open Scope string_scope.
Local Open Scope list_scope.
Local Open Scope Z_scope.

(** The event record of a row that passes validation: contact id, event
    type and score. *)
Definition validated (row : list string)
  : option (Z * string * PrimFloat.float) :=
  match snd (parse_row row) with
  | inr (VInt contact_id :: VStr event_type :: VFloat score :: _) =>
      Some (contact_id, event_type, score)
  | _ => None
  end.

Definition passes (row : list string) : bool :=
  match snd (parse_row row) with
  | inr _ => true
  | inl _ => false
  end.

(** The weight table: web 1.0, email 1.2, social 1.5, webinar 2.0. *)
Definition weight (event_type : string) : PrimFloat.float :=
  if String.eqb event_type "web" then 1.0%float
  else if String.eqb event_type "email" then 1.2%float
  else if String.eqb event_type "social" then 1.5%float
  else if String.eqb event_type "webinar" then 2.0%float
  else 0%float.

(** The weighted scores that the valid rows of a stream give to a contact
    id, in the order of the stream. *)
Definition contributions (contact_id : Z) (rows : list (list string))
  : list PrimFloat.float :=
  flat_map
    (fun row =>
       match validated row with
       | Some (c, event_type, score) =>
           if Z.eqb c contact_id then [(score * weight event_type)%float]
           else []
       | None => []
       end) rows.

(** The running total: first of nothing ([0.0]), then one contribution is
    added after the other. A contact id with no contribution has none. *)
Definition total (xs : list PrimFloat.float) : option PrimFloat.float :=
  match xs with
  | [] => None
  | _ :: _ => Some (fold_left PrimFloat.add xs 0%float)
  end.

(** The contact ids of the valid rows, in the order of the stream. *)
Definition contact_ids (rows : list (list string)) : list Z :=
  flat_map
    (fun row =>
       match validated row with
       | Some (c, _, _) => [c]
       | None => []
       end) rows.

(** The distinct members of [ids] that are not in [seen], each at the place
    where it is seen first. *)
Fixpoint first_seen (seen ids : list Z) : list Z :=
  match ids with
  | [] => []
  | i :: rest =>
      if existsb (Z.eqb i) seen then first_seen seen rest
      else i :: first_seen (seen ++ [i]) rest
  end.

(** The value [(score - min_score) / (max_score - min_score) * 100] that
    the normalizer rounds. *)
Definition scaled (max_score min_score score : PrimFloat.float)
  : PrimFloat.float :=
  ((score - min_score) / (max_score - min_score) * 100)%float.

(** [n] is the integer nearest to [sm * 2 ^ e], and the even one of the two
    when [sm * 2 ^ e] lies halfway between two integers. *)
Definition nearest_ties_even (sm e n : Z) : Prop :=
  if 0 <=? e then n = sm * 2 ^ e
  else
    2 * Z.abs (n * 2 ^ (- e) - sm) <= 2 ^ (- e)
    /\ (2 * Z.abs (n * 2 ^ (- e) - sm) = 2 ^ (- e) -> Z.even n = true).

(** The same for the value of a finite float. *)
Definition rounds_to (x : spec_float) (n : Z) : Prop :=
  match x with
  | S754_zero _ => n = 0
  | S754_finite s m e => nearest_ties_even (cond_Zopp s (Zpos m)) e n
  | S754_infinity _ | S754_nan => False
  end.

(** Rounding to nearest with halves away from zero, for a value
    [m * 2 ^ e] with [0 < m]: the rounding the specification names. *)
Definition round_half_away (m e : Z) : Z :=
  if 0 <=? e then m * 2 ^ e
  else
    let d := 2 ^ (- e) in
    if 2 * (m mod d) <? d then m / d else m / d + 1.

(** The same for the value of a finite float of either sign. *)
Definition rounded_half_away (x : spec_float) : option Z :=
  match x with
  | S754_zero _ => Some 0
  | S754_finite s m e => Some (cond_Zopp s (round_half_away (Zpos m) e))
  | S754_infinity _ | S754_nan => None
  end.

Definition entry_id (e : entry) : Z := fst (fst e).
Definition entry_label (e : entry) : string := snd (fst e).
Definition entry_score (e : entry) : Z := snd e.

(** The items before the first one that does not satisfy [p]. *)
Fixpoint take_while {A : Type} (p : A -> bool) (l : list A) : list A :=
  match l with
  | [] => []
  | a :: t => if p a then a :: take_while p t else []
  end.

(** The total of a contact, [0.0] for a contact that has none. *)
Definition or_zero (total : option PrimFloat.float) : PrimFloat.float :=
  match total with
  | Some x => x
  | None => 0%float
  end.

(** What the loop of lines 163-176 yields: the entries of the items before
    the first one whose score cannot be rounded, and the exception that
    this one raises. *)
Definition rounds (max_score min_score : option PrimFloat.float)
  (item : Z * PrimFloat.float) : bool :=
  match normalized_score max_score min_score (snd item) with
  | inr _ => true
  | inl _ => false
  end.

Definition entry_of (max_score min_score : option PrimFloat.float)
  (item : Z * PrimFloat.float) : entry :=
  match normalized_score max_score min_score (snd item) with
  | inr n => (fst item, get_quartile_label n, n)
  | inl _ => (fst item, "", 0)
  end.

End Spec.

(** * Binary64 arithmetic

    The floats of the program are IEEE 754 binary64 numbers; their
    operations are those of [SpecFloat] at precision 53. Values are counted
    in units of [2 ^ -1074], which makes every finite float an integer. *)

Module Binary64.

Set Warnings "-inexact-float".

(** The exponent of the last place of a number whose leading digit has the
    weight [2 ^ (g - 1)]: [fexp prec emax g]. *)
Definition fexp64 (g : Z) : Z := Z.max (g - 53) (-1074).

Definition digits (m : Z) : Z := Zdigits2 m.

(** The value of a finite float, counted in units of [2 ^ -1074], the
    least positive binary64 number; an infinity is given the first power
    of two above all finite values. *)
Definition Zval (x : spec_float) : Z :=
  match x with
  | S754_zero _ => 0
  | S754_finite s m e => cond_Zopp s (Zpos m * 2 ^ (e + 1074))
  | S754_infinity s => cond_Zopp s (2 ^ 2098)
  | S754_nan => 0
  end.

Definition is_nan (x : spec_float) : bool :=
  match x with S754_nan => true | _ => false end.

Definition b2z (b : bool) : Z := if b then 1 else 0.

(** A shift record as one number: the mantissa, then the round bit, then
    the sticky bit. *)
Definition code (r : shr_record) : Z :=
  4 * shr_m r + 2 * b2z (shr_r r) + b2z (shr_s r).

(** [n] places to the right, the last bit recording whether anything that
    is not zero was shifted out. *)
Definition sticky_shift (c n : Z) : Z :=
  2 * (c / 2 ^ (n + 1)) + (if c mod 2 ^ (n + 1) =? 0 then 0 else 1).

(** The nearest integer to [m / 2 ^ n], ties to even. *)
Definition rne (m n : Z) : Z :=
  let d := 2 ^ n in
  let q := m / d in
  match 2 * (m mod d) ?= d with
  | Lt => q
  | Eq => if Z.even q then q else q + 1
  | Gt => q + 1
  end.

(** Rounding a code to nearest, ties to even. *)
Definition rne4 (c : Z) : Z :=
  let m := c / 4 in
  let f := c mod 4 in
  if f <? 2 then m
  else if f =? 2 then (if Z.even m then m else m + 1)
  else m + 1.

(** The number of low bits that the format drops from [N] units. *)
Definition dropped (N : Z) : Z := Z.max 0 (digits N - 53).

(** [N] units of [2 ^ -1074], rounded to 53 digits. *)
Definition RN (N : Z) : Z := rne N (dropped N) * 2 ^ dropped N.

Definition is_finite (x : spec_float) : bool :=
  match x with
  | S754_zero _ | S754_finite _ _ _ => true
  | S754_infinity _ | S754_nan => false
  end.

(** [r] is the float of [RN N] units, for [0 <= N]: a zero for no unit,
    else a positive float, or [+infinity] when [RN N] is beyond the finite
    floats. *)
Definition rounded_units (N : Z) (r : spec_float) : Prop :=
  (N = 0 /\ exists s, r = S754_zero s)
  \/ (0 < N
      /\ ((exists m e, r = S754_finite false m e /\ -1074 <= e
                       /\ Zpos m * 2 ^ (e + 1074) = RN N)
          \/ (r = S754_infinity false /\ 2 ^ 2098 <= RN N))).

(** The float 100.0 *)
Definition hundred : spec_float := S754_finite false 7036874417766400 (-46).

(** The float 1.0 *)
Definition one : spec_float := S754_finite false 4503599627370496 (-52).

Definition sf_scaled (Mx Mn S : spec_float) : spec_float :=
  SF64mul (SF64div (SF64sub S Mn) (SF64sub Mx Mn)) hundred.

(** A finite float is within 0 and 100.0. *)
Definition within_100 (x : spec_float) : Prop :=
  match x with
  | S754_finite sg m e =>
      sg = false /\ -1074 <= e
      /\ Zpos m * 2 ^ (e + 1074) <= 100 * 2 ^ 1074
  | _ => True
  end.

Definition is_zero (x : spec_float) : bool :=
  match x with S754_zero _ => true | _ => false end.

Definition val (x : PrimFloat.float) : Z := Zval (Prim2SF x).

Definition nan_free (x : PrimFloat.float) : Prop := is_nan (Prim2SF x) = false.

Definition finite (x : PrimFloat.float) : bool := is_finite (Prim2SF x).

(** The value [m * 2 ^ e], rounded to the format, in units of
    [2 ^ -1074]; [e] may be below [-1074]. *)
Definition RNx (m e : Z) : Z :=
  rne m (fexp64 (digits m + e) - e) * 2 ^ (fexp64 (digits m + e) + 1074).

(** The quotient [N / D] with a sticky last bit: twice its integer part,
    plus one when it is not an integer. *)
Definition sticky_quotient (N D : Z) : Z :=
  2 * (N / D) + (if N mod D =? 0 then 0 else 1).

(** The two bits that a location adds to a mantissa. *)
Definition loc_bits (l : location) : Z :=
  match l with
  | loc_Exact => 0
  | loc_Inexact Lt => 1
  | loc_Inexact Eq => 2
  | loc_Inexact Gt => 3
  end.

End Binary64.

Module Binary64Facts.

Import Binary64.

Lemma fexp_eq : forall g, fexp prec emax g = fexp64 g.
Proof. reflexivity. Qed.

(** ** Digits *)

Lemma digits2_pos_size : forall p, digits2_pos p = Pos.size p.
Proof. induction p; simpl; congruence. Qed.

Lemma digits_pos : forall p, digits (Zpos p) = Z.log2 (Zpos p) + 1.
Proof.
  intro p. unfold digits, Zdigits2. rewrite digits2_pos_size.
  destruct p; simpl; rewrite ?Pos2Z.inj_succ; lia.
Qed.

Lemma digits_bounds : forall m, 0 < m ->
  0 < digits m /\ 2 ^ (digits m - 1) <= m < 2 ^ digits m.
Proof.
  intros m Hm. destruct m as [|p|p]; try lia.
  rewrite digits_pos.
  pose proof (Z.log2_spec (Zpos p) ltac:(lia)) as H.
  pose proof (Z.log2_nonneg (Zpos p)).
  replace (Z.log2 (Zpos p) + 1 - 1) with (Z.log2 (Zpos p)) by lia.
  replace (Z.log2 (Zpos p) + 1) with (Z.succ (Z.log2 (Zpos p))) by lia.
  split; [lia | exact H].
Qed.

Lemma digits_unique : forall m d, 0 < d -> 2 ^ (d - 1) <= m < 2 ^ d ->
  digits m = d.
Proof.
  intros m d Hd H.
  assert (Hm : 0 < m).
  { assert (0 < 2 ^ (d - 1)) by (apply Z.pow_pos_nonneg; lia). lia. }
  destruct m as [|p|p]; try lia.
  rewrite digits_pos.
  assert (Z.log2 (Zpos p) = d - 1); [|lia].
  apply Z.log2_unique; [lia|].
  replace (Z.succ (d - 1)) with d by lia. exact H.
Qed.

Lemma digits_0 : digits 0 = 0.
Proof. reflexivity. Qed.

Lemma digits_nonneg : forall m, 0 <= m -> 0 <= digits m.
Proof.
  intros m H. destruct (Z.eq_dec m 0) as [->|]; [simpl; lia|].
  destruct (digits_bounds m); lia.
Qed.

Lemma digits_le : forall m d, 0 <= m -> 0 <= d -> m < 2 ^ d -> digits m <= d.
Proof.
  intros m d Hm Hd H. destruct (Z.eq_dec m 0) as [->|]; [simpl; lia|].
  destruct (digits_bounds m ltac:(lia)) as [H0 [H1 H2]].
  destruct (Z_lt_le_dec d (digits m)) as [C|C]; [|lia].
  assert (2 ^ d <= 2 ^ (digits m - 1)) by (apply Z.pow_le_mono_r; lia).
  lia.
Qed.

Lemma digits_ge : forall m d, 0 < d -> 2 ^ (d - 1) <= m -> d <= digits m.
Proof.
  intros m d Hd H.
  assert (Hp : 0 < 2 ^ (d - 1)) by (apply Z.pow_pos_nonneg; lia).
  destruct (digits_bounds m ltac:(lia)) as [H0 [H1 H2]].
  destruct (Z_lt_le_dec (digits m) d) as [C|C]; [|lia].
  assert (2 ^ digits m <= 2 ^ (d - 1)) by (apply Z.pow_le_mono_r; lia).
  lia.
Qed.

Lemma digits_mono : forall a b, 0 <= a <= b -> digits a <= digits b.
Proof.
  intros a b H. destruct (Z.eq_dec a 0) as [->|].
  - apply digits_nonneg. lia.
  - destruct (digits_bounds a ltac:(lia)) as [H0 [H1 H2]].
    apply digits_ge; lia.
Qed.

Lemma digits_shift : forall m j, 0 < m -> 0 <= j ->
  digits (m * 2 ^ j) = digits m + j.
Proof.
  intros m j Hm Hj.
  destruct (digits_bounds m Hm) as [H0 [H1 H2]].
  apply digits_unique; [lia|].
  replace (digits m + j - 1) with (digits m - 1 + j) by lia.
  rewrite !Z.pow_add_r by lia.
  assert (0 < 2 ^ j) by (apply Z.pow_pos_nonneg; lia).
  nia.
Qed.

Lemma digits_div : forall m n, 0 < m -> 0 <= n -> n < digits m ->
  digits (m / 2 ^ n) = digits m - n.
Proof.
  intros m n Hm Hn Hlt.
  destruct (digits_bounds m Hm) as [H0 [H1 H2]].
  assert (Hp : 0 < 2 ^ n) by (apply Z.pow_pos_nonneg; lia).
  apply digits_unique; [lia|]. split.
  - apply Z.div_le_lower_bound; [lia|].
    rewrite <- Z.pow_add_r by lia.
    replace (n + (digits m - n - 1)) with (digits m - 1) by lia. lia.
  - apply Z.div_lt_upper_bound; [lia|].
    rewrite <- Z.pow_add_r by lia.
    replace (n + (digits m - n)) with (digits m) by lia. lia.
Qed.

(** ** Valid floats and their order *)

Lemma bounded_spec : forall m e, bounded prec emax m e = true ->
  fexp64 (digits (Zpos m) + e) = e /\ e <= 971.
Proof.
  intros m e H. unfold bounded, canonical_mantissa in H.
  apply andb_true_iff in H. destruct H as [H1 H2].
  apply Z.eqb_eq in H1. apply Z.leb_le in H2.
  split; [exact H1 | exact H2].
Qed.

Lemma canonical_digits : forall m e, 0 < m ->
  fexp64 (digits m + e) = e ->
  -1074 <= e /\ digits m <= 53 /\ (-1074 < e -> digits m = 53).
Proof. intros m e Hm H. unfold fexp64 in H. lia. Qed.

Lemma canonical_range : forall m e, 0 < m ->
  fexp64 (digits m + e) = e ->
  m < 2 ^ 53 /\ (-1074 < e -> 2 ^ 52 <= m).
Proof.
  intros m e Hm H.
  destruct (canonical_digits m e Hm H) as [H1 [H2 H3]].
  destruct (digits_bounds m Hm) as [H4 [H5 H6]]. split.
  - assert (2 ^ digits m <= 2 ^ 53) by (apply Z.pow_le_mono_r; lia). lia.
  - intro He. rewrite (H3 He) in H5. exact H5.
Qed.

Lemma pow2_pos : forall k, 0 <= k -> 0 < 2 ^ k.
Proof. intros k H. apply Z.pow_pos_nonneg; lia. Qed.

Lemma pow2_split : forall a b, 0 <= a -> 0 <= b -> 2 ^ (a + b) = 2 ^ a * 2 ^ b.
Proof. intros. apply Z.pow_add_r; lia. Qed.

(** The values of two canonical pairs are ordered as their exponents,
    when these differ. *)
Lemma canonical_lt : forall m1 e1 m2 e2, 0 < m1 -> 0 < m2 ->
  fexp64 (digits m1 + e1) = e1 -> fexp64 (digits m2 + e2) = e2 ->
  e1 < e2 -> m1 * 2 ^ (e1 + 1074) < m2 * 2 ^ (e2 + 1074).
Proof.
  intros m1 e1 m2 e2 Hm1 Hm2 C1 C2 He.
  destruct (canonical_range m1 e1 Hm1 C1) as [U1 _].
  destruct (canonical_range m2 e2 Hm2 C2) as [_ L2].
  destruct (canonical_digits m1 e1 Hm1 C1) as [E1 _].
  specialize (L2 ltac:(lia)).
  replace (e2 + 1074) with ((e1 + 1074) + (e2 - e1 - 1) + 1) by lia.
  rewrite (pow2_split (e1 + 1074 + (e2 - e1 - 1)) 1) by lia.
  rewrite (pow2_split (e1 + 1074) (e2 - e1 - 1)) by lia.
  pose proof (pow2_pos (e1 + 1074) ltac:(lia)) as P1.
  pose proof (pow2_pos (e2 - e1 - 1) ltac:(lia)) as P2.
  change (2 ^ 1) with 2. change (2 ^ 53) with (2 * 2 ^ 52) in U1.
  set (a := 2 ^ (e1 + 1074)) in *. set (b := 2 ^ (e2 - e1 - 1)) in *.
  set (c := 2 ^ 52) in *.
  assert (S1 : m1 * a < 2 * c * a) by (apply Z.mul_lt_mono_pos_r; lia).
  assert (S2 : 2 * c * a <= 2 * m2 * a) by (apply Z.mul_le_mono_nonneg_r; lia).
  assert (S3 : (2 * m2 * a) * 1 <= (2 * m2 * a) * b)
    by (apply Z.mul_le_mono_nonneg_l; nia).
  replace (m2 * (a * b * 2)) with (2 * m2 * a * b) by ring. lia.
Qed.

Lemma finite_below_infinity : forall m e,
  bounded prec emax m e = true -> 0 < Zpos m * 2 ^ (e + 1074) < 2 ^ 2098.
Proof.
  intros m e H. destruct (bounded_spec m e H) as [C B].
  destruct (canonical_range (Zpos m) e ltac:(lia) C) as [U _].
  destruct (canonical_digits (Zpos m) e ltac:(lia) C) as [E _].
  pose proof (pow2_pos (e + 1074) ltac:(lia)) as P.
  assert (Hp : 2 ^ (e + 1074) <= 2 ^ 2045) by (apply Z.pow_le_mono_r; lia).
  change (2 ^ 2098) with (2 ^ 53 * 2 ^ 2045).
  pose proof (pow2_pos 2045 ltac:(lia)).
  set (a := 2 ^ (e + 1074)) in *. set (b := 2 ^ 2045) in *.
  set (c := 2 ^ 53) in *. split; nia.
Qed.

Lemma mul_compare_r : forall n m p, 0 < p -> (n * p ?= m * p) = (n ?= m).
Proof.
  intros n m p Hp. destruct (Z.compare_spec n m) as [H | H | H].
  - subst. apply Z.compare_refl.
  - apply Z.compare_lt_iff. now apply Z.mul_lt_mono_pos_r.
  - apply Z.compare_gt_iff. now apply Z.mul_lt_mono_pos_r.
Qed.

Ltac solve_cmp :=
  f_equal; symmetry;
  first [ apply Z.compare_eq_iff; lia
        | apply Z.compare_lt_iff; lia
        | apply Z.compare_gt_iff; lia ].

(** On valid floats other than NaN, [SFcompare] is the order of [Zval]. *)
Lemma compare_Zval : forall x y,
  valid_binary x = true -> valid_binary y = true ->
  is_nan x = false -> is_nan y = false ->
  SFcompare x y = Some (Zval x ?= Zval y).
Proof.
  intros x y Vx Vy Nx Ny.
  assert (Pinf : 0 < 2 ^ 2098) by (apply pow2_pos; lia).
  destruct x as [sx|sx| |sx mx ex], y as [sy|sy| |sy my ey];
    try discriminate; simpl in Vx, Vy;
    try (pose proof (finite_below_infinity _ _ Vx) as Bx);
    try (pose proof (finite_below_infinity _ _ Vy) as By);
    unfold SFcompare, Zval, cond_Zopp;
    try solve [ reflexivity
              | repeat match goal with b : bool |- _ => destruct b end;
                solve_cmp ].
  destruct (bounded_spec _ _ Vx) as [Cx _].
  destruct (bounded_spec _ _ Vy) as [Cy _].
  destruct (canonical_digits _ _ (Pos2Z.is_pos mx) Cx) as [Ex _].
  destruct (canonical_digits _ _ (Pos2Z.is_pos my) Cy) as [Ey _].
  pose proof (pow2_pos (ex + 1074) ltac:(lia)) as Px.
  destruct sx, sy; f_equal.
  + destruct (Z.compare_spec ex ey) as [He | He | He].
    * subst ey. rewrite Z.compare_opp.
      rewrite mul_compare_r by lia.
      change (Pos.compare_cont Eq mx my) with (mx ?= my)%positive.
      rewrite <- Pos.compare_antisym. reflexivity.
    * symmetry. apply Z.compare_gt_iff.
      pose proof (canonical_lt _ _ _ _ (Pos2Z.is_pos mx) (Pos2Z.is_pos my)
                    Cx Cy He). lia.
    * symmetry. apply Z.compare_lt_iff.
      pose proof (canonical_lt _ _ _ _ (Pos2Z.is_pos my) (Pos2Z.is_pos mx)
                    Cy Cx He). lia.
  + symmetry. apply Z.compare_lt_iff. lia.
  + symmetry. apply Z.compare_gt_iff. lia.
  + destruct (Z.compare_spec ex ey) as [He | He | He].
    * subst ey. rewrite mul_compare_r by lia. reflexivity.
    * symmetry. apply Z.compare_lt_iff.
      apply canonical_lt; auto; lia.
    * symmetry. apply Z.compare_gt_iff.
      apply canonical_lt; auto; lia.
Qed.

(** ** Shifting a mantissa to the right, with a round and a sticky bit *)

Lemma xI_eq : forall p, Zpos p~1 = 2 * Zpos p + 1.
Proof. reflexivity. Qed.

Lemma xO_eq : forall p, Zpos p~0 = 2 * Zpos p.
Proof. reflexivity. Qed.

Lemma code_shr_1 : forall r, 0 <= shr_m r ->
  0 <= shr_m (shr_1 r) /\ code (shr_1 r) = sticky_shift (code r) 1.
Proof.
  intros [m r s] Hm. unfold sticky_shift, code. simpl in Hm.
  change (2 ^ (1 + 1)) with 4.
  destruct m as [|[p|p|]|p]; try lia; destruct r, s;
    cbn -[Z.mul Z.div Z.modulo Z.add];
    try (generalize (xI_eq p); generalize (Zpos p~1); intros x Hx);
    try (generalize (xO_eq p); generalize (Zpos p~0); intros x Hx);
    (split; [lia|]);
    match goal with
    | |- context [?a mod 4 =? 0] => destruct (Z.eqb_spec (a mod 4) 0)
    end; Z.div_mod_to_equations; lia.
Qed.

Lemma sticky_shift_0 : forall c, sticky_shift c 0 = c.
Proof.
  intro c. unfold sticky_shift. change (2 ^ (0 + 1)) with 2.
  destruct (Z.eqb_spec (c mod 2) 0); Z.div_mod_to_equations; lia.
Qed.

Lemma sticky_shift_add : forall c a b, 0 <= a -> 0 <= b ->
  sticky_shift (sticky_shift c a) b = sticky_shift c (a + b).
Proof.
  intros c a b Ha Hb. unfold sticky_shift.
  pose proof (pow2_pos a Ha) as PA. pose proof (pow2_pos b Hb) as PB.
  replace (a + b + 1) with ((a + 1) + b) by lia.
  rewrite (pow2_split (a + 1) b), (pow2_split a 1), (pow2_split b 1) by lia.
  change (2 ^ 1) with 2.
  set (A := 2 ^ a) in *. set (B := 2 ^ b) in *.
  rewrite <- (Z.div_div c (A * 2) B) by lia.
  rewrite (Z.rem_mul_r c (A * 2) B) by lia.
  set (q := c / (A * 2)). set (r := c mod (A * 2)).
  pose proof (Z.mod_pos_bound c (A * 2) ltac:(lia)) as Hr. fold r in Hr.
  set (t := if r =? 0 then 0 else 1).
  assert (Ht : (t = 0 /\ r = 0) \/ (t = 1 /\ r <> 0)).
  { unfold t. destruct (Z.eqb_spec r 0); lia. }
  assert (Hq : (2 * q + t) / (B * 2) = q / B).
  { replace (B * 2) with (2 * B) by ring.
    rewrite <- Z.div_div by lia.
    replace ((2 * q + t) / 2) with q; [reflexivity|].
    Z.div_mod_to_equations. lia. }
  rewrite Hq. f_equal.
  pose proof (Z.mod_pos_bound q B PB) as Hqb.
  pose proof (Z.div_mod q B ltac:(lia)) as Hdq.
  assert (Hm : (2 * q + t) mod (B * 2) = 2 * (q mod B) + t).
  { symmetry. apply Z.mod_unique with (q := q / B); [lia|].
    rewrite Hdq at 1. ring. }
  rewrite Hm.
  destruct (Z.eqb_spec (2 * (q mod B) + t) 0) as [E1 | E1];
    destruct (Z.eqb_spec (r + A * 2 * (q mod B)) 0) as [E2 | E2];
    try reflexivity; exfalso; nia.
Qed.

Lemma code_iter : forall p r, 0 <= shr_m r ->
  0 <= shr_m (iter_pos shr_1 p r) /\
  code (iter_pos shr_1 p r) = sticky_shift (code r) (Zpos p).
Proof.
  induction p as [p IH | p IH |]; intros r Hm; simpl iter_pos.
  - destruct (code_shr_1 r Hm) as [H1 E1].
    destruct (IH _ H1) as [H2 E2]. destruct (IH _ H2) as [H3 E3].
    split; [exact H3|].
    rewrite E3, E2, E1, !sticky_shift_add by lia. f_equal. lia.
  - destruct (IH _ Hm) as [H2 E2]. destruct (IH _ H2) as [H3 E3].
    split; [exact H3|].
    rewrite E3, E2, !sticky_shift_add by lia. f_equal. lia.
  - apply code_shr_1. exact Hm.
Qed.

Lemma code_bits : forall r, 0 <= shr_m r ->
  code r / 4 = shr_m r /\ 0 <= code r mod 4 < 4 /\
  code r mod 4 = 2 * b2z (shr_r r) + b2z (shr_s r).
Proof.
  intros [m r s] Hm. unfold code. cbn [shr_m shr_r shr_s] in *.
  destruct r, s; unfold b2z; Z.div_mod_to_equations; lia.
Qed.

Lemma round_code : forall r, 0 <= shr_m r ->
  round_nearest_even (shr_m r) (loc_of_shr_record r) = rne4 (code r).
Proof.
  intros r Hm. destruct (code_bits r Hm) as [H1 [H2 H3]].
  unfold rne4. rewrite H1, H3. destruct r as [m [|] [|]]; reflexivity.
Qed.

Lemma shr_m_iter : forall p r, 0 <= shr_m r ->
  shr_m (iter_pos shr_1 p r) = shr_m r / 2 ^ Zpos p.
Proof.
  intros p r Hm. destruct (code_iter p r Hm) as [H E].
  destruct (code_bits _ H) as [H1 _]. destruct (code_bits r Hm) as [H2 [H3 _]].
  rewrite <- H1, E. unfold sticky_shift.
  pose proof (pow2_pos (Zpos p) ltac:(lia)) as P.
  rewrite (pow2_split (Zpos p) 1) by lia. change (2 ^ 1) with 2.
  set (D := 2 ^ Zpos p) in *.
  set (t := if code r mod (D * 2) =? 0 then 0 else 1).
  assert (Ht : 0 <= t <= 1) by (unfold t; destruct (_ =? _); lia).
  rewrite <- H2.
  rewrite (Z.div_div (code r) 4 D) by lia.
  replace (4 * D) with (D * 2 * 2) by ring.
  rewrite <- (Z.div_div (code r) (D * 2) 2) by lia.
  Z.div_mod_to_equations. lia.
Qed.

Lemma location_eq_dec : forall l, {l = loc_Exact} + {l <> loc_Exact}.
Proof. intros [|c]; [left; reflexivity | right; discriminate]. Qed.

Lemma rne_0 : forall m, rne m 0 = m.
Proof.
  intro m. unfold rne. cbv zeta. change (2 ^ 0) with 1.
  rewrite Z.mod_1_r, Z.div_1_r. reflexivity.
Qed.

Lemma rne_bounds : forall m n, 0 <= n -> m / 2 ^ n <= rne m n <= m / 2 ^ n + 1.
Proof.
  intros m n Hn. unfold rne. cbv zeta.
  destruct (2 * (m mod 2 ^ n) ?= 2 ^ n); try lia.
  destruct (Z.even (m / 2 ^ n)); lia.
Qed.

(** A multiple of [2 ^ n] is rounded to its quotient. *)
Lemma rne_exact : forall m n, 0 <= n -> m mod 2 ^ n = 0 -> rne m n = m / 2 ^ n.
Proof.
  intros m n Hn H. unfold rne. cbv zeta. rewrite H.
  pose proof (pow2_pos n Hn).
  assert (C : (2 * 0 ?= 2 ^ n) = Lt) by (apply Z.compare_lt_iff; lia).
  now rewrite C.
Qed.

Lemma rne4_sticky : forall m n, 0 <= m -> 0 < n ->
  rne4 (sticky_shift (4 * m) n) = rne m n.
Proof.
  intros m n Hm Hn. unfold sticky_shift, rne, rne4. cbv zeta.
  assert (Hk : exists k, 0 <= k /\ n = k + 1) by (exists (n - 1); lia).
  destruct Hk as [k [Hk Hnk]]. subst n.
  replace (k + 1 + 1) with (k + 2) by lia.
  rewrite (pow2_split k 2), (pow2_split k 1) by lia.
  change (2 ^ 2) with 4. change (2 ^ 1) with 2.
  pose proof (pow2_pos k Hk) as PD.
  set (D := 2 ^ k) in *.
  replace (D * 4) with (4 * D) by ring.
  rewrite (Z.div_mul_cancel_l m D 4), (Z.mul_mod_distr_l m D 4) by lia.
  rewrite <- (Z.div_div m D 2), (Z.rem_mul_r m D 2) by lia.
  set (x := m / D). set (y := m mod D).
  pose proof (Z.mod_pos_bound m D PD) as Hy. fold y in Hy.
  pose proof (Z.mod_pos_bound x 2 ltac:(lia)) as Hb.
  pose proof (Z.div_mod x 2 ltac:(lia)) as Hx.
  set (q := x / 2) in *. set (b := x mod 2) in *.
  set (t := if 4 * y =? 0 then 0 else 1).
  assert (Ht : (t = 0 /\ y = 0) \/ (t = 1 /\ 0 < y)).
  { unfold t. destruct (Z.eqb_spec (4 * y) 0); lia. }
  assert (E1 : (2 * x + t) / 4 = q) by (Z.div_mod_to_equations; lia).
  assert (E2 : (2 * x + t) mod 4 = 2 * b + t) by (Z.div_mod_to_equations; lia).
  rewrite E1, E2.
  assert (Hb' : b = 0 \/ b = 1) by lia.
  destruct Hb' as [Hb0 | Hb1]; [rewrite Hb0 | rewrite Hb1].
  - assert (C1 : (2 * 0 + t <? 2) = true) by (apply Z.ltb_lt; lia).
    assert (C2 : (2 * (y + D * 0) ?= D * 2) = Lt)
      by (apply Z.compare_lt_iff; lia).
    now rewrite C1, C2.
  - assert (C1 : (2 * 1 + t <? 2) = false) by (apply Z.ltb_ge; lia).
    rewrite C1.
    destruct Ht as [[Ht Hy0] | [Ht Hy0]]; rewrite Ht.
    + assert (C2 : (2 * (y + D * 1) ?= D * 2) = Eq)
        by (apply Z.compare_eq_iff; lia).
      now rewrite C2.
    + assert (C2 : (2 * (y + D * 1) ?= D * 2) = Gt)
        by (apply Z.compare_gt_iff; lia).
      now rewrite C2.
Qed.

Lemma round_bounds : forall m l,
  m <= round_nearest_even m l <= m + 1.
Proof.
  intros m [|[| |]]; simpl; try lia. destruct (Z.even m); lia.
Qed.

Lemma record_of_loc : forall m l,
  shr_m (shr_record_of_loc m l) = m /\
  loc_of_shr_record (shr_record_of_loc m l) = l.
Proof. intros m [|[| |]]; split; reflexivity. Qed.

(** The first step of [binary_round_aux]: the mantissa is cut at the
    exponent that the format gives to its magnitude, and rounded. *)
Lemma shr_fexp_spec : forall m e l n,
  0 <= m -> n = fexp64 (digits m + e) - e -> 0 <= n ->
  exists rec,
    shr_fexp prec emax m e l = (rec, e + n)
    /\ shr_m rec = m / 2 ^ n
    /\ (l = loc_Exact ->
        round_nearest_even (shr_m rec) (loc_of_shr_record rec) = rne m n).
Proof.
  intros m e l n Hm Hn Hn0. unfold shr_fexp.
  change (fexp prec emax (Zdigits2 m + e)) with (fexp64 (digits m + e)).
  rewrite <- Hn. unfold shr.
  destruct (record_of_loc m l) as [R1 R2].
  destruct n as [|p|p]; try lia.
  - exists (shr_record_of_loc m l). rewrite R1, R2, Z.add_0_r.
    change (2 ^ 0) with 1. rewrite Z.div_1_r.
    split; [reflexivity|]. split; [reflexivity|].
    intro Hl. subst l. now rewrite rne_0.
  - exists (iter_pos shr_1 p (shr_record_of_loc m l)).
    split; [reflexivity|]. split.
    + rewrite shr_m_iter by lia. now rewrite R1.
    + intro Hl. subst l.
      destruct (code_iter p (shr_record_of_loc m loc_Exact)) as [H E];
        [simpl; lia|].
      rewrite round_code by exact H. rewrite E.
      change (code (shr_record_of_loc m loc_Exact)) with (4 * m + 2 * 0 + 0).
      replace (4 * m + 2 * 0 + 0) with (4 * m) by ring.
      apply rne4_sticky; lia.
Qed.

(** The second step of [binary_round_aux]: when rounding up has made the
    mantissa one digit longer, it is halved, without loss. *)
Lemma second_step : forall m1 e1, 0 < m1 ->
  e1 <= fexp64 (digits m1 + e1) <= e1 + 1 ->
  (fexp64 (digits m1 + e1) = e1 + 1 -> m1 mod 2 = 0) ->
  exists rec2 e2,
    shr_fexp prec emax m1 e1 loc_Exact = (rec2, e2)
    /\ 0 < shr_m rec2 /\ e1 <= e2
    /\ shr_m rec2 * 2 ^ (e2 - e1) = m1
    /\ fexp64 (digits (shr_m rec2) + e2) = e2.
Proof.
  intros m1 e1 Hm H Hev.
  set (n2 := fexp64 (digits m1 + e1) - e1).
  destruct (shr_fexp_spec m1 e1 loc_Exact n2 ltac:(lia) eq_refl ltac:(lia))
    as [rec2 [E [Hq _]]].
  exists rec2, (e1 + n2). split; [exact E|].
  replace (e1 + n2 - e1) with n2 by lia.
  assert (C : n2 = 0 \/ n2 = 1) by lia.
  destruct C as [C | C]; rewrite C in *.
  - change (2 ^ 0) with 1 in *. rewrite Z.div_1_r in Hq. rewrite Hq.
    repeat split; try lia. rewrite Z.add_0_r. unfold n2 in C. lia.
  - change (2 ^ 1) with 2 in *.
    assert (Hm2 : m1 mod 2 = 0) by (apply Hev; unfold n2 in C; lia).
    assert (Hd : m1 = 2 * shr_m rec2).
    { rewrite Hq. Z.div_mod_to_equations. lia. }
    assert (Hdig : digits (shr_m rec2) = digits m1 - 1).
    { rewrite Hq. change 2 with (2 ^ 1). apply digits_div; try lia.
      assert (2 <= digits m1); [|lia].
      apply digits_ge; [lia|]. change (2 ^ (2 - 1)) with 2. lia. }
    repeat split; try lia.
    rewrite Hdig. replace (digits m1 - 1 + (e1 + 1)) with (digits m1 + e1) by lia.
    unfold n2 in C. lia.
Qed.

Lemma shr_fexp_zero : forall e,
  shr_m (fst (shr_fexp prec emax 0 e loc_Exact)) = 0.
Proof.
  intro e. unfold shr_fexp, shr.
  destruct (fexp prec emax (Zdigits2 0 + e) - e) as [|p|p]; try reflexivity.
  cbn [fst]. rewrite shr_m_iter; simpl; [apply Z.div_0_l|lia].
  pose proof (pow2_pos (Zpos p) ltac:(lia)). lia.
Qed.

(** What [binary_round_aux] returns for a mantissa that has at least the
    digits the format keeps: the mantissa is cut at the exponent [e1] of
    the format, rounded to [m1] (to nearest, ties to even, when the input
    is exact), and the result is the float of value [m1 * 2 ^ e1], or an
    infinity when its exponent is above the largest one. *)
Lemma bra_spec : forall s m e l, 0 <= m -> e <= fexp64 (digits m + e) ->
  exists m1,
    m / 2 ^ (fexp64 (digits m + e) - e) <= m1
      <= m / 2 ^ (fexp64 (digits m + e) - e) + 1
    /\ (l = loc_Exact -> m1 = rne m (fexp64 (digits m + e) - e))
    /\ ((m1 = 0 /\ binary_round_aux prec emax s m e l = S754_zero s)
        \/ (exists m2 e2,
              fexp64 (digits (Zpos m2) + e2) = e2
              /\ fexp64 (digits m + e) <= e2
              /\ Zpos m2 * 2 ^ (e2 - fexp64 (digits m + e)) = m1
              /\ binary_round_aux prec emax s m e l =
                 if e2 <=? 971 then S754_finite s m2 e2
                 else S754_infinity s)).
Proof.
  intros s m e l Hm Hfull.
  set (d := digits m). set (e1 := fexp64 (d + e)). set (n := e1 - e).
  assert (Hn : 0 <= n) by (unfold n, e1, d; lia).
  assert (Hd2 : m < 2 ^ d).
  { destruct (Z.eq_dec m 0) as [->|]; [reflexivity|].
    now destruct (digits_bounds m ltac:(lia)) as [_ [_ H]]. }
  assert (Hd0 : 0 <= d) by (apply digits_nonneg; lia).
  destruct (shr_fexp_spec m e l n ltac:(lia) eq_refl Hn)
    as [rec [E [Hq Hex]]].
  replace (e + n) with e1 in E by (unfold n; lia).
  set (m1 := round_nearest_even (shr_m rec) (loc_of_shr_record rec)) in *.
  pose proof (round_bounds (shr_m rec) (loc_of_shr_record rec)) as Hb.
  fold m1 in Hb. rewrite Hq in Hb.
  pose proof (pow2_pos n Hn) as Pn.
  assert (Hq0 : 0 <= m / 2 ^ n) by (apply Z.div_pos; lia).
  exists m1. split; [exact Hb|]. split; [exact Hex|].
  unfold binary_round_aux. rewrite E. fold m1.
  destruct (Z.eq_dec m1 0) as [Hz | Hnz].
  - left. split; [exact Hz|]. rewrite Hz.
    pose proof (shr_fexp_zero e1) as Z0.
    destruct (shr_fexp prec emax 0 e1 loc_Exact) as [rec2 e2].
    cbn [fst] in Z0. now rewrite Z0.
  - right.
    assert (Hm1 : 0 < m1) by lia.
    assert (Hcond : e1 <= fexp64 (digits m1 + e1) <= e1 + 1 /\
                    (fexp64 (digits m1 + e1) = e1 + 1 -> m1 mod 2 = 0)).
    { destruct (Z_lt_le_dec n d) as [Hlt | Hge].
      - assert (Hmpos : 0 < m).
        { destruct (Z.eq_dec m 0) as [Hm0|]; [|lia].
          unfold d in Hlt. rewrite Hm0 in Hlt. simpl in Hlt. lia. }
        assert (Hdq : digits (m / 2 ^ n) = d - n) by (apply digits_div; lia).
        assert (Hq1 : 0 < m / 2 ^ n).
        { destruct (Z.eq_dec (m / 2 ^ n) 0) as [Hq1|]; [|lia].
          rewrite Hq1 in Hdq. simpl in Hdq. lia. }
        destruct (digits_bounds _ Hq1) as [_ [_ Hu]]. rewrite Hdq in Hu.
        assert (L1 : d - n <= digits m1).
        { rewrite <- Hdq. apply digits_mono. lia. }
        assert (L2 : digits m1 <= d - n + 1).
        { apply digits_le; try lia.
          rewrite (pow2_split (d - n) 1) by lia. change (2 ^ 1) with 2. lia. }
        split; [unfold e1 in *; unfold fexp64 in *; lia|].
        intro Hup.
        assert (Hdm : digits m1 = d - n + 1)
          by (unfold e1 in *; unfold fexp64 in *; lia).
        destruct (digits_bounds m1 Hm1) as [_ [Hl _]].
        rewrite Hdm in Hl. replace (d - n + 1 - 1) with (d - n) in Hl by lia.
        assert (Hm1' : m1 = 2 ^ (d - n)) by lia.
        rewrite Hm1'. replace (d - n) with (1 + (d - n - 1)) by lia.
        rewrite (pow2_split 1 (d - n - 1)) by lia. change (2 ^ 1) with 2.
        rewrite Z.mul_comm. apply Z.mod_mul. lia.
      - assert (Hq1 : m / 2 ^ n = 0).
        { apply Z.div_small. split; [lia|].
          assert (2 ^ d <= 2 ^ n) by (apply Z.pow_le_mono_r; lia). lia. }
        assert (Hm1' : m1 = 1) by lia.
        rewrite Hm1'. change (digits 1) with 1.
        unfold n, e1 in *. unfold fexp64 in *. lia. }
    destruct Hcond as [Hc1 Hc2].
    destruct (second_step m1 e1 Hm1 Hc1 Hc2)
      as [rec2 [e2 [E2 [P2 [L2 [V2 C2]]]]]].
    rewrite E2.
    destruct (shr_m rec2) as [|m2|m2] eqn:Hm2; try lia.
    exists m2, e2. repeat split; try assumption.
Qed.

Lemma pow2_le : forall a b, 0 <= a <= b -> 2 ^ a <= 2 ^ b.
Proof. intros. apply Z.pow_le_mono_r; lia. Qed.

Lemma pow2_diff : forall a b, 0 <= b <= a -> 2 ^ a = 2 ^ (a - b) * 2 ^ b.
Proof.
  intros a b H. rewrite <- pow2_split by lia. f_equal. lia.
Qed.

(** Rounding does not cross a float: a value that is at most the canonical
    float [mt * 2 ^ et] is rounded to a float that is at most that one.
    The value is the mantissa [m] at the exponent [e], or, when the
    location is not exact, something between [m] and [m + 1] there; [u]
    is an exponent below all others, which makes the values integers. *)
Lemma bra_le : forall m e l mt et u,
  0 <= m -> e <= fexp64 (digits m + e) ->
  0 < mt -> fexp64 (digits mt + et) = et -> et <= 971 ->
  u <= e -> u <= et -> u <= -1074 ->
  m * 2 ^ (e - u) <= mt * 2 ^ (et - u) ->
  (l <> loc_Exact -> m * 2 ^ (e - u) < mt * 2 ^ (et - u)) ->
  binary_round_aux prec emax false m e l = S754_zero false \/
  exists m2 e2,
    binary_round_aux prec emax false m e l = S754_finite false m2 e2
    /\ -1074 <= e2
    /\ Zpos m2 * 2 ^ (e2 + 1074) <= mt * 2 ^ (et + 1074).
Proof.
  intros m e l mt et u Hm Hfull Hmt Ct Bt Hue Huet Hu Hle Hlt.
  destruct (bra_spec false m e l Hm Hfull) as [m1 [Hb [Hex Hres]]].
  set (d := digits m) in *. set (e1 := fexp64 (d + e)) in *.
  set (n := e1 - e) in *.
  assert (Hn : 0 <= n) by (unfold n; lia).
  assert (He1 : -1074 <= e1) by (unfold e1, fexp64; lia).
  destruct (canonical_range mt et Hmt Ct) as [Umt Lmt].
  destruct (canonical_digits mt et Hmt Ct) as [Eet _].
  pose proof (pow2_pos n Hn) as Pn.
  pose proof (pow2_pos (e - u) ltac:(lia)) as Peu.
  pose proof (pow2_pos (et - u) ltac:(lia)) as Ptu.
  pose proof (pow2_pos (e1 - u) ltac:(lia)) as P1u.
  assert (S1 : 2 ^ (e1 - u) = 2 ^ n * 2 ^ (e - u)).
  { rewrite <- pow2_split by lia. f_equal. unfold n. lia. }
  set (q := m / 2 ^ n) in *.
  assert (Hq : 0 <= q) by (apply Z.div_pos; lia).
  assert (Hqm : q * 2 ^ n <= m).
  { rewrite Z.mul_comm. apply Z.mul_div_le. lia. }
  set (T := mt * 2 ^ (et - u)) in *.
  assert (Hq1 : q * 2 ^ (e1 - u) <= T).
  { rewrite S1. rewrite Z.mul_assoc.
    apply Z.le_trans with (m * 2 ^ (e - u)); [|exact Hle].
    apply Z.mul_le_mono_nonneg_r; lia. }
  assert (K : m1 * 2 ^ (e1 - u) <= T).
  { destruct (Z.eq_dec m1 q) as [-> | Hne]; [exact Hq1|].
    assert (Hm1 : m1 = q + 1) by lia. rewrite Hm1.
    assert (Strict : q * 2 ^ (e1 - u) < T).
    { rewrite S1, Z.mul_assoc.
      destruct (location_eq_dec l) as [Hl | Hl].
      - assert (Hrem : m mod 2 ^ n <> 0).
        { intro H0. rewrite (Hex Hl), (rne_exact m n Hn H0) in Hm1.
          fold q in Hm1. lia. }
        assert (q * 2 ^ n < m).
        { pose proof (Z.div_mod m (2 ^ n) ltac:(lia)) as Hdm. fold q in Hdm.
          pose proof (Z.mod_pos_bound m (2 ^ n) Pn). lia. }
        apply Z.lt_le_trans with (m * 2 ^ (e - u)); [|exact Hle].
        apply Z.mul_lt_mono_pos_r; lia.
      - apply Z.le_lt_trans with (m * 2 ^ (e - u)); [|exact (Hlt Hl)].
        apply Z.mul_le_mono_nonneg_r; lia. }
    destruct (Z_le_gt_dec e1 et) as [Hge | Hgt].
    - assert (S2 : 2 ^ (et - u) = 2 ^ (et - e1) * 2 ^ (e1 - u)).
      { rewrite <- pow2_split by lia. f_equal. lia. }
      unfold T in *. rewrite S2, Z.mul_assoc in *.
      set (P := 2 ^ (e1 - u)) in *. set (Kt := mt * 2 ^ (et - e1)) in *.
      assert (q < Kt) by nia.
      apply Z.mul_le_mono_nonneg_r; lia.
    - exfalso.
      assert (Hmpos : 0 < m).
      { destruct (Z.eq_dec m 0) as [Hm0|]; [|lia].
        unfold e1, d in *. rewrite Hm0 in *. simpl digits in *.
        unfold fexp64 in *. lia. }
      assert (Hnd : n = d - 53) by (unfold n, e1, fexp64 in *; lia).
      assert (Hdq : digits q = 53).
      { unfold q. rewrite digits_div; lia. }
      assert (Hqpos : 0 < q).
      { destruct (Z.eq_dec q 0) as [Hq0|]; [|lia].
        rewrite Hq0 in Hdq. simpl in Hdq. lia. }
      destruct (digits_bounds q Hqpos) as [_ [Lq _]]. rewrite Hdq in Lq.
      change (2 ^ (53 - 1)) with (2 ^ 52) in Lq.
      assert (S3 : 2 ^ (e1 - u) = 2 ^ (e1 - et - 1) * 2 * 2 ^ (et - u)).
      { replace (e1 - u) with ((e1 - et - 1) + 1 + (et - u)) by lia.
        rewrite (pow2_split (e1 - et - 1 + 1) (et - u)) by lia.
        rewrite (pow2_split (e1 - et - 1) 1) by lia. reflexivity. }
      pose proof (pow2_pos (e1 - et - 1) ltac:(lia)) as Pd.
      unfold T in *. rewrite S3 in Strict.
      change (2 ^ 53) with (2 * 2 ^ 52) in Umt.
      set (A := 2 ^ (et - u)) in *. set (B := 2 ^ (e1 - et - 1)) in *.
      set (C := 2 ^ 52) in *.
      assert (mt * A < 2 * C * A) by (apply Z.mul_lt_mono_pos_r; lia).
      assert (2 * C * A <= 2 * q * A) by (apply Z.mul_le_mono_nonneg_r; lia).
      assert ((2 * q * A) * 1 <= (2 * q * A) * B)
        by (apply Z.mul_le_mono_nonneg_l; nia).
      replace (q * (B * 2 * A)) with (2 * q * A * B) in Strict by ring.
      lia. }
  destruct Hres as [[Hz Hr] | [m2 [e2 [C2 [L2 [V2 Hr]]]]]].
  - left. exact Hr.
  - right. exists m2, e2.
    destruct (canonical_range (Zpos m2) e2 ltac:(lia) C2) as [_ Lm2].
    assert (S4 : 2 ^ (e2 - u) = 2 ^ (e2 - e1) * 2 ^ (e1 - u)).
    { rewrite <- pow2_split by lia. f_equal. lia. }
    assert (V : Zpos m2 * 2 ^ (e2 - u) <= T).
    { rewrite S4, Z.mul_assoc, V2. exact K. }
    assert (S5 : forall x, -1074 <= x -> 2 ^ (x - u) = 2 ^ (x + 1074) * 2 ^ (-1074 - u)).
    { intros x Hx. rewrite <- pow2_split by lia. f_equal. lia. }
    pose proof (pow2_pos (-1074 - u) ltac:(lia)) as Pu.
    assert (Fin : e2 <= 971).
    { destruct (Z_le_gt_dec e2 971) as [|Hov]; [assumption|exfalso].
      specialize (Lm2 ltac:(lia)).
      unfold T in V. rewrite (S5 e2), (S5 et), !Z.mul_assoc in V by lia.
      apply Z.mul_le_mono_pos_r in V; [|exact Pu].
      assert (2 ^ 2046 <= 2 ^ (e2 + 1074)) by (apply pow2_le; lia).
      assert (2 ^ (et + 1074) <= 2 ^ 2045) by (apply pow2_le; lia).
      pose proof (pow2_pos (et + 1074) ltac:(lia)).
      change (2 ^ 2046) with (2 * 2 ^ 2045) in *.
      change (2 ^ 53) with (2 * 2 ^ 52) in *.
      pose proof (pow2_pos 2045 ltac:(lia)).
      set (X := 2 ^ (e2 + 1074)) in *. set (Y := 2 ^ (et + 1074)) in *.
      set (W := 2 ^ 2045) in *. set (C := 2 ^ 52) in *.
      assert (Zpos m2 * X >= C * (2 * W)) by nia.
      assert (mt * Y < 2 * C * W) by nia.
      lia. }
    split; [|split].
    + rewrite Hr. apply Z.leb_le in Fin. now rewrite Fin.
    + lia.
    + unfold T in V. rewrite (S5 e2), (S5 et), !Z.mul_assoc in V by lia.
      apply Z.mul_le_mono_pos_r in V; [exact V | exact Pu].
Qed.

(** ** Rounding an integer count of units to the format *)

Lemma rne_mono : forall a b n, 0 <= n -> a <= b -> rne a n <= rne b n.
Proof.
  intros a b n Hn Hab. unfold rne. cbv zeta.
  pose proof (pow2_pos n Hn) as Pd. set (d := 2 ^ n) in *.
  pose proof (Z.div_mod a d ltac:(lia)) as Ha.
  pose proof (Z.div_mod b d ltac:(lia)) as Hb.
  pose proof (Z.mod_pos_bound a d Pd) as Ra.
  pose proof (Z.mod_pos_bound b d Pd) as Rb.
  assert (Hq : a / d <= b / d) by (apply Z.div_le_mono; lia).
  set (qa := a / d) in *. set (qb := b / d) in *.
  set (ra := a mod d) in *. set (rb := b mod d) in *.
  destruct (Z.eq_dec qa qb) as [E | NE].
  - rewrite <- E in *. assert (Hr : ra <= rb) by lia.
    destruct (Z.compare_spec (2 * ra) d) as [C1 | C1 | C1];
      destruct (Z.compare_spec (2 * rb) d) as [C2 | C2 | C2];
      try lia; destruct (Z.even qa); lia.
  - assert (Hlt : qa + 1 <= qb) by lia.
    destruct (2 * ra ?= d); destruct (2 * rb ?= d);
      try destruct (Z.even qa); try destruct (Z.even qb); lia.
Qed.

Lemma rne_scale : forall m n j, 0 <= n -> 0 <= j ->
  rne (m * 2 ^ j) (n + j) = rne m n.
Proof.
  intros m n j Hn Hj. unfold rne. cbv zeta.
  rewrite (pow2_split n j) by lia.
  pose proof (pow2_pos n Hn) as Pn. pose proof (pow2_pos j Hj) as Pj.
  rewrite Z.div_mul_cancel_r by lia.
  rewrite Z.mul_mod_distr_r by lia.
  replace (2 * (m mod 2 ^ n * 2 ^ j)) with (2 * (m mod 2 ^ n) * 2 ^ j) by ring.
  rewrite mul_compare_r by lia. reflexivity.
Qed.

Lemma dropped_nonneg : forall N, 0 <= dropped N.
Proof. intro N. unfold dropped. lia. Qed.

Lemma RN_upper : forall N, 0 < N -> RN N <= 2 ^ digits N.
Proof.
  intros N HN. unfold RN.
  destruct (digits_bounds N HN) as [D0 [D1 D2]].
  pose proof (dropped_nonneg N) as Hk. set (k := dropped N) in *.
  assert (Hkd : k <= digits N) by (unfold k, dropped; lia).
  pose proof (pow2_pos k Hk) as Pk.
  pose proof (rne_bounds N k Hk) as [_ Hu].
  assert (Hq : N / 2 ^ k < 2 ^ (digits N - k)).
  { apply Z.div_lt_upper_bound; [lia|].
    rewrite <- pow2_split by lia.
    replace (k + (digits N - k)) with (digits N) by lia. lia. }
  rewrite (pow2_diff (digits N) k) by lia.
  apply Z.mul_le_mono_nonneg_r; lia.
Qed.

Lemma RN_lower : forall N, 0 < N -> 2 ^ (digits N - 1) <= RN N.
Proof.
  intros N HN. unfold RN.
  destruct (digits_bounds N HN) as [D0 [D1 D2]].
  pose proof (dropped_nonneg N) as Hk. set (k := dropped N) in *.
  assert (Hkd : k <= digits N - 1) by (unfold k, dropped; lia).
  pose proof (pow2_pos k Hk) as Pk.
  pose proof (rne_bounds N k Hk) as [Hl _].
  assert (Hq : 2 ^ (digits N - 1 - k) <= N / 2 ^ k).
  { apply Z.div_le_lower_bound; [lia|].
    rewrite <- pow2_split by lia.
    replace (k + (digits N - 1 - k)) with (digits N - 1) by lia. lia. }
  rewrite (pow2_diff (digits N - 1) k) by lia.
  apply Z.mul_le_mono_nonneg_r; lia.
Qed.

(** Rounding to the format is monotone. *)
Lemma RN_mono : forall N1 N2, 0 < N1 -> N1 <= N2 -> RN N1 <= RN N2.
Proof.
  intros N1 N2 H1 H12.
  assert (Hd : digits N1 <= digits N2) by (apply digits_mono; lia).
  destruct (Z.eq_dec (dropped N1) (dropped N2)) as [E | NE].
  - unfold RN. rewrite E. pose proof (dropped_nonneg N2) as Hk.
    apply Z.mul_le_mono_nonneg_r; [apply Z.pow_nonneg; lia|].
    apply rne_mono; lia.
  - assert (Hlt : digits N1 < digits N2) by (unfold dropped in NE; lia).
    apply Z.le_trans with (2 ^ digits N1); [apply RN_upper; lia|].
    apply Z.le_trans with (2 ^ (digits N2 - 1)); [|apply RN_lower; lia].
    apply pow2_le. destruct (digits_bounds N1 H1). lia.
Qed.

(** A canonical float is its own rounding. *)
Lemma RN_canonical : forall m e, 0 < m -> fexp64 (digits m + e) = e ->
  RN (m * 2 ^ (e + 1074)) = m * 2 ^ (e + 1074).
Proof.
  intros m e Hm C. destruct (canonical_digits m e Hm C) as [E [D1 D2]].
  unfold RN.
  assert (Hk : dropped (m * 2 ^ (e + 1074)) = e + 1074).
  { unfold dropped. rewrite digits_shift by lia. unfold fexp64 in C. lia. }
  rewrite Hk. replace (e + 1074) with (0 + (e + 1074)) at 2 by lia.
  rewrite rne_scale by lia. now rewrite rne_0.
Qed.

Lemma iter_xO : forall m d, Zpos (Pos.iter xO m d) = Zpos m * 2 ^ Zpos d.
Proof.
  intros m d. induction d as [|d IH] using Pos.peano_ind.
  - change (Pos.iter xO m 1) with (m~0)%positive. rewrite xO_eq.
    change (2 ^ 1) with 2. ring.
  - rewrite Pos.iter_succ, Pos2Z.inj_succ, Z.pow_succ_r by lia.
    rewrite xO_eq, IH. ring.
Qed.

Lemma shl_align_spec : forall mx ex e',
  exists mz, shl_align mx ex e' = (mz, Z.min ex e')
             /\ Zpos mz = Zpos mx * 2 ^ (ex - Z.min ex e').
Proof.
  intros mx ex e'. unfold shl_align.
  destruct (e' - ex) as [|d|d] eqn:E.
  - exists mx. replace (Z.min ex e') with ex by lia.
    rewrite Z.sub_diag. split; [reflexivity | simpl; lia].
  - exists mx. replace (Z.min ex e') with ex by lia.
    rewrite Z.sub_diag. split; [reflexivity | simpl; lia].
  - exists (Pos.iter xO mx d). replace (Z.min ex e') with e' by lia.
    split; [reflexivity|]. rewrite iter_xO. f_equal. f_equal. lia.
Qed.

(** [binary_round] gives the float of [RN N] units, [N] being the units of
    its argument, or an infinity when [RN N] is beyond the finite floats. *)
Lemma binary_round_spec : forall s p e, -1074 <= e ->
  (exists m2 e2,
     binary_round prec emax s p e = S754_finite s m2 e2 /\ -1074 <= e2
     /\ Zpos m2 * 2 ^ (e2 + 1074) = RN (Zpos p * 2 ^ (e + 1074)))
  \/ (binary_round prec emax s p e = S754_infinity s
      /\ 2 ^ 2098 <= RN (Zpos p * 2 ^ (e + 1074))).
Proof.
  intros s p e He. unfold binary_round.
  change (fexp prec emax (Zpos (digits2_pos p) + e))
    with (fexp64 (digits (Zpos p) + e)).
  set (f := fexp64 (digits (Zpos p) + e)).
  destruct (shl_align_spec p e f) as [mz [E Hmz]]. rewrite E.
  set (ez := Z.min e f) in *.
  assert (Hf : -1074 <= f) by (unfold f, fexp64; lia).
  assert (Hez : -1074 <= ez <= e) by (unfold ez; lia).
  assert (Hdz : digits (Zpos mz) + ez = digits (Zpos p) + e).
  { rewrite Hmz, digits_shift by lia. lia. }
  assert (Hfz : fexp64 (digits (Zpos mz) + ez) = f) by (now rewrite Hdz).
  destruct (bra_spec s (Zpos mz) ez loc_Exact ltac:(lia) ltac:(rewrite Hfz; unfold ez; lia))
    as [m1 [Hb [Hex Hres]]].
  rewrite Hfz in *. specialize (Hex eq_refl).
  set (N := Zpos p * 2 ^ (e + 1074)).
  assert (HN : N = Zpos mz * 2 ^ (ez + 1074)).
  { unfold N. rewrite Hmz, <- Z.mul_assoc, <- pow2_split by lia.
    f_equal. f_equal. lia. }
  assert (Hk : dropped N = f + 1074).
  { unfold dropped. rewrite HN, digits_shift by lia.
    unfold f, fexp64 in *. lia. }
  assert (HRN : RN N = m1 * 2 ^ (f + 1074)).
  { unfold RN. rewrite Hk. f_equal. rewrite Hex, HN.
    replace (f + 1074) with ((f - ez) + (ez + 1074)) by lia.
    apply rne_scale; lia. }
  destruct (digits_bounds (Zpos mz) ltac:(lia)) as [Dz0 [Dz1 Dz2]].
  assert (Hm1 : 0 < m1).
  { assert (Hq : 1 <= Zpos mz / 2 ^ (f - ez)); [|lia].
    pose proof (pow2_pos (f - ez) ltac:(lia)).
    apply Z.div_le_lower_bound; [lia|]. rewrite Z.mul_1_r.
    apply Z.le_trans with (2 ^ (digits (Zpos mz) - 1)); [|lia].
    apply pow2_le. unfold f, fexp64 in *. lia. }
  destruct Hres as [[Hz _] | [m2 [e2 [C2 [L2 [V2 Hr]]]]]]; [lia|].
  assert (Hval : Zpos m2 * 2 ^ (e2 + 1074) = RN N).
  { rewrite HRN, <- V2, <- Z.mul_assoc, <- pow2_split by lia.
    f_equal. f_equal. lia. }
  rewrite Hr. destruct (e2 <=? 971) eqn:Hfin.
  - left. exists m2, e2. repeat split; [lia | exact Hval].
  - right. split; [reflexivity|]. apply Z.leb_gt in Hfin.
    rewrite <- Hval.
    destruct (canonical_range (Zpos m2) e2 ltac:(lia) C2) as [_ Lm2].
    specialize (Lm2 ltac:(lia)).
    assert (2 ^ 2046 <= 2 ^ (e2 + 1074)) by (apply pow2_le; lia).
    change (2 ^ 2098) with (2 ^ 52 * 2 ^ 2046).
    pose proof (pow2_pos 2046 ltac:(lia)).
    apply Z.mul_le_mono_nonneg; lia.
Qed.

(** ** The operations of the normalizer *)

Lemma Zval_finite : forall s m e, bounded prec emax m e = true ->
  Zval (S754_finite s m e) = cond_Zopp s (Zpos m * 2 ^ (e + 1074))
  /\ 0 < Zpos m * 2 ^ (e + 1074) < 2 ^ 2098 /\ -1074 <= e
  /\ fexp64 (digits (Zpos m) + e) = e.
Proof.
  intros s m e H. destruct (bounded_spec m e H) as [C B].
  destruct (canonical_digits (Zpos m) e ltac:(lia) C) as [E _].
  pose proof (finite_below_infinity m e H). auto.
Qed.

Lemma shl_align_fst : forall mx ex ez, ez <= ex ->
  Zpos (fst (shl_align mx ex ez)) = Zpos mx * 2 ^ (ex - ez).
Proof.
  intros mx ex ez H. destruct (shl_align_spec mx ex ez) as [mz [E Hm]].
  rewrite E. cbn [fst]. rewrite Hm. f_equal. f_equal. lia.
Qed.

Lemma cond_Zopp_mul : forall s a b, cond_Zopp s a * b = cond_Zopp s (a * b).
Proof. intros [|] a b; simpl; ring. Qed.

(** Subtraction of finite floats, when the difference is not negative. *)
Lemma sub_spec_finite : forall x y,
  valid_binary x = true -> valid_binary y = true ->
  is_finite x = true -> is_finite y = true ->
  Zval y <= Zval x ->
  rounded_units (Zval x - Zval y) (SF64sub x y).
Proof.
  intros x y Vx Vy Fx Fy Hle. unfold rounded_units.
  destruct x as [sx|sx| |sx mx ex], y as [sy|sy| |sy my ey];
    try discriminate; simpl in Vx, Vy.
  - left. split; [reflexivity|]. destruct sx, sy; cbn; eauto.
  - destruct (Zval_finite sy my ey Vy) as [Hv [Hp [He Hc]]].
    clear Hv. cbn [Zval] in *. right.
    destruct sy; cbn [cond_Zopp] in *; [|lia].
    split; [lia|]. left. exists my, ey. split; [reflexivity|].
    split; [lia|].
    replace (0 - - (Zpos my * 2 ^ (ey + 1074))) with (Zpos my * 2 ^ (ey + 1074))
      by ring.
    symmetry. apply RN_canonical; [lia | exact Hc].
  - destruct (Zval_finite sx mx ex Vx) as [Hv [Hp [He Hc]]].
    clear Hv. cbn [Zval] in *. right.
    destruct sx; cbn [cond_Zopp] in *; [lia|].
    split; [lia|]. left. exists mx, ex. split; [reflexivity|].
    split; [lia|]. rewrite Z.sub_0_r.
    symmetry. apply RN_canonical; [lia | exact Hc].
  - destruct (Zval_finite sx mx ex Vx) as [Hvx [Hpx [Hex Hcx]]].
    destruct (Zval_finite sy my ey Vy) as [Hvy [Hpy [Hey Hcy]]].
    clear Hvx Hvy. cbn [Zval] in *. unfold SF64sub, SFsub.
    set (ez := Z.min ex ey).
    rewrite !shl_align_fst by (unfold ez; lia).
    set (M := cond_Zopp sx (Zpos mx * 2 ^ (ex - ez)) -
              cond_Zopp sy (Zpos my * 2 ^ (ey - ez))).
    assert (Hez : -1074 <= ez) by (unfold ez; lia).
    assert (HM : M * 2 ^ (ez + 1074) =
                 cond_Zopp sx (Zpos mx * 2 ^ (ex + 1074)) -
                 cond_Zopp sy (Zpos my * 2 ^ (ey + 1074))).
    { unfold M. rewrite Z.mul_sub_distr_r, !cond_Zopp_mul.
      rewrite <- !Z.mul_assoc, <- !pow2_split by (unfold ez; lia).
      replace (ex - ez + (ez + 1074)) with (ex + 1074) by lia.
      replace (ey - ez + (ez + 1074)) with (ey + 1074) by lia.
      reflexivity. }
    rewrite <- HM.
    pose proof (pow2_pos (ez + 1074) ltac:(lia)) as Pz.
    unfold binary_normalize.
    destruct M as [|p|p].
    + left. split; [ring | eauto].
    + right. split; [lia|].
      destruct (binary_round_spec false p ez Hez)
        as [[m2 [e2 [E [L V]]]] | [E V]].
      * left. exists m2, e2. auto.
      * right. auto.
    + exfalso.
      assert (Z.neg p * 2 ^ (ez + 1074) < 0) by (apply Z.mul_neg_pos; lia).
      lia.
Qed.

Lemma digits_quot : forall a b, 0 < a -> 0 < b ->
  digits a - digits b <= digits (a / b).
Proof.
  intros a b Ha Hb.
  destruct (digits_bounds a Ha) as [A0 [A1 A2]].
  destruct (digits_bounds b Hb) as [B0 [B1 B2]].
  assert (Hq : 0 <= a / b) by (apply Z.div_pos; lia).
  pose proof (digits_nonneg (a / b) Hq).
  destruct (Z_le_gt_dec (digits a - digits b) 0) as [|Hpos]; [lia|].
  apply digits_ge; [lia|].
  apply Z.div_le_lower_bound; [lia|].
  pose proof (pow2_pos (digits a - digits b - 1) ltac:(lia)) as P.
  apply Z.le_trans with (2 ^ digits b * 2 ^ (digits a - digits b - 1)).
  - apply Z.mul_le_mono_nonneg_r; lia.
  - rewrite <- pow2_split by lia.
    replace (digits b + (digits a - digits b - 1)) with (digits a - 1) by lia.
    exact A1.
Qed.

Lemma new_location_exact : forall n k,
  new_location n k = loc_Exact <-> k = 0.
Proof.
  intros n k. unfold new_location, new_location_even, new_location_odd.
  destruct (Z.even n); destruct (Z.eqb_spec k 0); split; intro H;
    try reflexivity; try assumption; try discriminate; try contradiction.
Qed.

(** The quotient of two positive floats, the first at most the second, is
    at most one. *)
Lemma div_le_one : forall ma ea mb eb,
  bounded prec emax ma ea = true -> bounded prec emax mb eb = true ->
  Zpos ma * 2 ^ (ea + 1074) <= Zpos mb * 2 ^ (eb + 1074) ->
  SF64div (S754_finite false ma ea) (S754_finite false mb eb)
    = S754_zero false
  \/ exists m e,
       SF64div (S754_finite false ma ea) (S754_finite false mb eb)
         = S754_finite false m e
       /\ -1074 <= e /\ Zpos m * 2 ^ (e + 1074) <= 2 ^ 1074.
Proof.
  intros ma ea mb eb Va Vb Hle.
  destruct (Zval_finite false ma ea Va) as [_ [Pa [Ea Ca]]].
  destruct (Zval_finite false mb eb Vb) as [_ [Pb [Eb Cb]]].
  unfold SF64div, SFdiv, SFdiv_core_binary.
  change (Zdigits2 (Zpos ma)) with (digits (Zpos ma)).
  change (Zdigits2 (Zpos mb)) with (digits (Zpos mb)).
  change (fexp prec emax (digits (Zpos ma) + ea - (digits (Zpos mb) + eb)))
    with (fexp64 (digits (Zpos ma) + ea - (digits (Zpos mb) + eb))).
  set (d1 := digits (Zpos ma)). set (d2 := digits (Zpos mb)).
  set (G := d1 + ea - (d2 + eb)).
  set (e' := Z.min (fexp64 G) (ea - eb)).
  set (sh := ea - eb - e').
  assert (Hsh : 0 <= sh) by (unfold sh, e'; lia).
  destruct (digits_bounds (Zpos ma) ltac:(lia)) as [A0 [A1 A2]].
  destruct (digits_bounds (Zpos mb) ltac:(lia)) as [B0 [B1 B2]].
  fold d1 in A0, A1, A2. fold d2 in B0, B1, B2.
  assert (HG : G <= 0).
  { destruct (Z_le_gt_dec G 0) as [|HG]; [assumption|exfalso].
    assert (2 ^ (d2 + eb + 1074) <= 2 ^ (d1 - 1 + ea + 1074))
      by (apply pow2_le; unfold G in HG; lia).
    assert (Zpos mb * 2 ^ (eb + 1074) < 2 ^ (d2 + eb + 1074)).
    { replace (d2 + eb + 1074) with (d2 + (eb + 1074)) by lia.
      rewrite (pow2_split d2 (eb + 1074)) by lia.
      apply Z.mul_lt_mono_pos_r; [apply pow2_pos|]; lia. }
    assert (2 ^ (d1 - 1 + ea + 1074) <= Zpos ma * 2 ^ (ea + 1074)).
    { replace (d1 - 1 + ea + 1074) with (d1 - 1 + (ea + 1074)) by lia.
      rewrite (pow2_split (d1 - 1) (ea + 1074)) by lia.
      apply Z.mul_le_mono_nonneg_r; [apply Z.pow_nonneg|]; lia. }
    lia. }
  assert (He' : e' <= -53) by (unfold e', fexp64; lia).
  set (m' := match sh with
             | 0 => Zpos ma
             | Zpos _ => Z.shiftl (Zpos ma) sh
             | Zneg _ => 0
             end).
  assert (Hm' : m' = Zpos ma * 2 ^ sh).
  { unfold m'. destruct sh as [|p|p] eqn:Esh; try lia.
    apply Z.shiftl_mul_pow2. lia. }
  destruct (Z.div_eucl m' (Zpos mb)) as [q r] eqn:Hdiv.
  assert (Hq : q = m' / Zpos mb)
    by (unfold Z.div; now rewrite Hdiv).
  assert (Hr : r = m' mod Zpos mb)
    by (unfold Z.modulo; now rewrite Hdiv).
  pose proof (pow2_pos sh Hsh) as Psh.
  assert (Hm'pos : 0 < m') by (rewrite Hm'; apply Z.mul_pos_pos; lia).
  pose proof (Z.div_mod m' (Zpos mb) ltac:(lia)) as Hdm.
  pose proof (Z.mod_pos_bound m' (Zpos mb) ltac:(lia)) as Hrb.
  rewrite <- Hq, <- Hr in *.
  assert (Hq0 : 0 <= q) by (rewrite Hq; apply Z.div_pos; lia).
  cbn [xorb].
  (* the quotient keeps the digits of the format *)
  assert (Hfull : e' <= fexp64 (digits q + e')).
  { pose proof (digits_quot m' (Zpos mb) Hm'pos ltac:(lia)) as Hdq.
    rewrite <- Hq in Hdq. rewrite Hm', digits_shift in Hdq by lia.
    fold d1 d2 in Hdq.
    assert (G <= digits q + e') by (unfold G, sh in *; lia).
    unfold e', fexp64 in *. lia. }
  (* the quotient is at most 2 ^ (- e') *)
  pose proof (pow2_pos (- e') ltac:(lia)) as Pe.
  assert (Hma : m' <= Zpos mb * 2 ^ (- e')).
  { pose proof (pow2_pos (eb + 1074) ltac:(lia)) as Pb'.
    apply Z.mul_le_mono_pos_r with (p := 2 ^ (eb + 1074)); [exact Pb'|].
    rewrite Hm', <- Z.mul_assoc, <- (pow2_split sh (eb + 1074)) by lia.
    replace (sh + (eb + 1074)) with ((ea + 1074) + (- e')) by (unfold sh; lia).
    rewrite (pow2_split (ea + 1074) (- e')) by lia.
    replace (Zpos mb * 2 ^ (- e') * 2 ^ (eb + 1074))
      with (Zpos mb * 2 ^ (eb + 1074) * 2 ^ (- e')) by ring.
    rewrite Z.mul_assoc. apply Z.mul_le_mono_nonneg_r; lia. }
  assert (Hqle : q <= 2 ^ (- e') /\ (r <> 0 -> q < 2 ^ (- e'))).
  { split; [nia|]. intro Hr0. nia. }
  destruct Hqle as [Hqle Hqlt].
  set (u := Z.min e' (-1074)).
  assert (Hpow : 2 ^ 52 * 2 ^ (-52 - u) = 2 ^ (- e') * 2 ^ (e' - u)).
  { rewrite <- (pow2_split 52 (-52 - u)) by (unfold u; lia).
    rewrite <- (pow2_split (- e') (e' - u)) by (unfold u; lia).
    f_equal. lia. }
  pose proof (pow2_pos (e' - u) ltac:(unfold u; lia)) as Peu.
  assert (T1 : 0 < 2 ^ 52) by (apply pow2_pos; lia).
  assert (T2 : fexp64 (digits (2 ^ 52) + -52) = -52) by reflexivity.
  assert (U1 : u <= e') by (unfold u; lia).
  assert (U2 : u <= -52) by (unfold u; lia).
  assert (U3 : u <= -1074) by (unfold u; lia).
  assert (B3 : q * 2 ^ (e' - u) <= 2 ^ 52 * 2 ^ (-52 - u)).
  { rewrite Hpow. apply Z.mul_le_mono_nonneg_r; lia. }
  assert (B4 : new_location (Zpos mb) r <> loc_Exact ->
               q * 2 ^ (e' - u) < 2 ^ 52 * 2 ^ (-52 - u)).
  { intro Hl. rewrite Hpow. apply Z.mul_lt_mono_pos_r; [lia|].
    apply Hqlt. intro Hr0. apply Hl. now apply new_location_exact. }
  destruct (bra_le q e' (new_location (Zpos mb) r) (2 ^ 52) (-52) u
              Hq0 Hfull T1 T2 ltac:(lia) U1 U2 U3 B3 B4)
    as [Hz | [m2 [e2 [E [L V]]]]].
  - left. exact Hz.
  - right. exists m2, e2. split; [exact E|]. split; [exact L|].
    change (2 ^ 52 * 2 ^ (-52 + 1074)) with (2 ^ 1074) in V. exact V.
Qed.

Lemma hundred_spec : Prim2SF 100%float = hundred.
Proof. reflexivity. Qed.

Lemma fexp64_mono : forall a b, a <= b -> fexp64 a <= fexp64 b.
Proof. intros a b H. unfold fexp64. lia. Qed.

(** A float that is at most one, times 100.0, is at most 100.0. *)
Lemma mul_le_hundred : forall mq eq,
  bounded prec emax mq eq = true ->
  Zpos mq * 2 ^ (eq + 1074) <= 2 ^ 1074 ->
  SF64mul (S754_finite false mq eq) hundred = S754_zero false
  \/ exists m e,
       SF64mul (S754_finite false mq eq) hundred = S754_finite false m e
       /\ -1074 <= e /\ Zpos m * 2 ^ (e + 1074) <= 100 * 2 ^ 1074.
Proof.
  intros mq eq Vq Hle.
  destruct (Zval_finite false mq eq Vq) as [_ [Pq [Eq Cq]]].
  unfold SF64mul, SFmul, hundred. cbn [xorb].
  rewrite Pos2Z.inj_mul.
  set (M := 7036874417766400).
  assert (HM : M = 100 * 2 ^ 46) by reflexivity.
  destruct (digits_bounds (Zpos mq) ltac:(lia)) as [D0 [D1 D2]].
  assert (Hfull : eq + -46 <= fexp64 (digits (Zpos mq * M) + (eq + -46))).
  { assert (Hd : digits (Zpos mq) + 52 <= digits (Zpos mq * M)).
    { rewrite <- (digits_shift (Zpos mq) 52) by lia.
      apply digits_mono. split; [apply Z.mul_nonneg_nonneg; lia|].
      apply Z.mul_le_mono_nonneg_l; [lia|]. rewrite HM.
      change (2 ^ 52) with (64 * 2 ^ 46). pose proof (pow2_pos 46). lia. }
    pose proof (fexp64_mono (digits (Zpos mq) + eq)
                  (digits (Zpos mq * M) + (eq + -46)) ltac:(lia)).
    lia. }
  assert (T1 : 0 < M) by reflexivity.
  assert (T2 : fexp64 (digits M + -46) = -46) by reflexivity.
  assert (B3 : Zpos mq * M * 2 ^ (eq + -46 - -1120) <= M * 2 ^ (-46 - -1120)).
  { replace (eq + -46 - -1120) with ((eq + 1074) + 0) by lia.
    replace (-46 - -1120) with 1074 by lia. rewrite Z.add_0_r.
    replace (Zpos mq * M * 2 ^ (eq + 1074))
      with (M * (Zpos mq * 2 ^ (eq + 1074))) by ring.
    apply Z.mul_le_mono_nonneg_l; lia. }
  destruct (bra_le (Zpos mq * M) (eq + -46) loc_Exact M (-46) (-1120)
              ltac:(lia) Hfull T1 T2 ltac:(lia) ltac:(lia) ltac:(lia)
              ltac:(lia) B3 ltac:(congruence))
    as [Hz | [m2 [e2 [E [L V]]]]].
  - left. exact Hz.
  - right. exists m2, e2. split; [exact E|]. split; [exact L|].
    change (M * 2 ^ (-46 + 1074)) with (100 * 2 ^ 1074) in V. exact V.
Qed.

Lemma round_half_even_rne : forall m e, e < 0 ->
  Py.round_half_even m e = rne m (- e).
Proof.
  intros m e He. unfold Py.round_half_even, rne.
  assert (C : (0 <=? e) = false) by (apply Z.leb_gt; lia).
  now rewrite C.
Qed.

(** A float between 0 and 100.0 is rounded to an integer between 0 and
    100. *)
Lemma round_within : forall m e, -1074 <= e ->
  Zpos m * 2 ^ (e + 1074) <= 100 * 2 ^ 1074 ->
  0 <= Py.round_half_even (Zpos m) e <= 100.
Proof.
  intros m e He H.
  destruct (Z_le_gt_dec 0 e) as [Hpos | Hneg].
  - unfold Py.round_half_even.
    assert (C : (0 <=? e) = true) by (apply Z.leb_le; lia). rewrite C.
    rewrite (pow2_split e 1074), Z.mul_assoc in H by lia.
    pose proof (pow2_pos 1074 ltac:(lia)) as P.
    apply Z.mul_le_mono_pos_r in H; [|exact P].
    pose proof (pow2_pos e Hpos). split; [|exact H].
    apply Z.mul_nonneg_nonneg; lia.
  - rewrite round_half_even_rne by lia.
    set (n := - e). assert (Hn : 0 <= n <= 1074) by (unfold n; lia).
    pose proof (pow2_pos n ltac:(lia)) as Pn.
    assert (Hm : Zpos m <= 100 * 2 ^ n).
    { replace 1074 with (n + (e + 1074)) in H at 2 by (unfold n; lia).
      rewrite (pow2_split n (e + 1074)), !Z.mul_assoc in H by lia.
      apply Z.mul_le_mono_pos_r in H; [exact H|].
      apply pow2_pos. lia. }
    split.
    + pose proof (rne_bounds (Zpos m) n ltac:(lia)) as [Hl _].
      assert (0 <= Zpos m / 2 ^ n) by (apply Z.div_pos; lia). lia.
    + apply Z.le_trans with (rne (100 * 2 ^ n) n).
      * apply rne_mono; lia.
      * rewrite rne_exact; [|lia|apply Z.mod_mul; lia].
        rewrite Z.div_mul by lia. lia.
Qed.

Lemma canonical_unique : forall m1 e1 m2 e2,
  bounded prec emax m1 e1 = true -> bounded prec emax m2 e2 = true ->
  Zpos m1 * 2 ^ (e1 + 1074) = Zpos m2 * 2 ^ (e2 + 1074) ->
  m1 = m2 /\ e1 = e2.
Proof.
  intros m1 e1 m2 e2 V1 V2 H.
  destruct (Zval_finite false m1 e1 V1) as [_ [P1 [E1 C1]]].
  destruct (Zval_finite false m2 e2 V2) as [_ [P2 [E2 C2]]].
  assert (He : e1 = e2).
  { destruct (Z.lt_trichotomy e1 e2) as [Hlt | [Heq | Hgt]]; [|exact Heq|].
    - pose proof (canonical_lt _ _ _ _ (Pos2Z.is_pos m1) (Pos2Z.is_pos m2)
                    C1 C2 Hlt). lia.
    - pose proof (canonical_lt _ _ _ _ (Pos2Z.is_pos m2) (Pos2Z.is_pos m1)
                    C2 C1 ltac:(lia)). lia. }
  split; [|exact He]. subst e2.
  pose proof (pow2_pos (e1 + 1074) ltac:(lia)) as P.
  apply Z.mul_cancel_r in H; [|lia]. now inversion H.
Qed.

Lemma div_self : forall m e,
  SF64div (S754_finite false m e) (S754_finite false m e) = one.
Proof.
  intros m e. unfold SF64div, SFdiv, SFdiv_core_binary.
  rewrite !Z.sub_diag.
  change (Z.min (fexp prec emax 0) 0) with (-53).
  change (0 - -53) with 53.
  cbv iota beta.
  rewrite Z.shiftl_mul_pow2 by lia.
  destruct (Z.div_eucl (Zpos m * 2 ^ 53) (Zpos m)) as [q r] eqn:Hdiv.
  assert (Hq : q = 2 ^ 53).
  { replace q with (Zpos m * 2 ^ 53 / Zpos m)
      by (unfold Z.div; now rewrite Hdiv).
    rewrite Z.mul_comm. apply Z.div_mul. lia. }
  assert (Hr : r = 0).
  { replace r with ((Zpos m * 2 ^ 53) mod Zpos m)
      by (unfold Z.modulo; now rewrite Hdiv).
    rewrite Z.mul_comm. apply Z.mod_mul. lia. }
  subst q r.
  replace (new_location (Zpos m) 0) with loc_Exact
    by (symmetry; now apply new_location_exact).
  reflexivity.
Qed.

Lemma one_times_hundred : SF64mul one hundred = hundred.
Proof. reflexivity. Qed.

(** ** The scaled score *)

Lemma Zval_infinite : forall x, valid_binary x = true ->
  is_nan x = false -> is_finite x = true -> - 2 ^ 2098 < Zval x < 2 ^ 2098.
Proof.
  intros [s|s| |s m e] V N F; try discriminate; simpl in V.
  - simpl. pose proof (pow2_pos 2098). lia.
  - destruct (Zval_finite s m e V) as [_ [P _]].
    cbn [Zval]. destruct s; cbn [cond_Zopp]; lia.
Qed.

(** With [min_score] at [-infinity] the scaled score is a NaN. *)
Lemma sf_scaled_min_infinite : forall Mx S,
  is_nan Mx = false -> is_nan S = false -> Mx <> S754_infinity true ->
  sf_scaled Mx (S754_infinity true) S = S754_nan.
Proof.
  intros [sx|[|]| |sx mx ex] [ss|[|]| |ss ms es] Nx Ns Hx;
    try discriminate; try contradiction; try reflexivity.
Qed.

Lemma Zval_range : forall x, valid_binary x = true ->
  - 2 ^ 2098 <= Zval x <= 2 ^ 2098.
Proof.
  intros [s|s| |s m e] V; simpl in V; cbn [Zval];
    pose proof (pow2_pos 2098 ltac:(lia)); try lia.
  - destruct s; cbn [cond_Zopp]; lia.
  - destruct (Zval_finite s m e V) as [_ [P _]].
    destruct s; cbn [cond_Zopp]; lia.
Qed.

Lemma over_infinity : forall a A, rounded_units A a ->
  within_100 (SF64mul (SF64div a (S754_infinity false)) hundred).
Proof.
  intros a A [[_ [s Ha]] | [_ [[m [e [Ha _]]] | [Ha _]]]]; subst a;
    exact I.
Qed.

(** The quotient of two rounded differences, the first at most the second,
    times 100.0. *)
Lemma quotient_within : forall a A mb eb B,
  rounded_units A a -> A <= B ->
  Zpos mb * 2 ^ (eb + 1074) = RN B ->
  valid_binary a = true -> bounded prec emax mb eb = true ->
  valid_binary (SF64div a (S754_finite false mb eb)) = true ->
  let x := SF64mul (SF64div a (S754_finite false mb eb)) hundred in
  within_100 x /\ is_finite x = true
  /\ (A = 0 -> is_zero x = true)
  /\ (A = B -> x = hundred).
Proof.
  intros a A mb eb B Ha HAB Hb Va Vb Vq. cbv zeta.
  destruct (Zval_finite false mb eb Vb) as [_ [Pb [Eb Cb]]].
  destruct Ha as [[HA [s Ha]] | [HA [[ma [ea [Ha [Ea Hva]]]] | [Ha Hov]]]];
    subst a.
  - (* no unit: a zero *)
    change (SF64div (S754_zero s) (S754_finite false mb eb))
      with (S754_zero (xorb s false)).
    change (SF64mul (S754_zero (xorb s false)) hundred)
      with (S754_zero (xorb (xorb s false) false)).
    repeat split; try exact I; try reflexivity.
    intro E. rewrite <- E, HA in Hb.
    change (RN 0) with 0 in Hb. lia.
  - (* a positive float, at most [b] *)
    simpl in Va.
    assert (Hle : Zpos ma * 2 ^ (ea + 1074) <= Zpos mb * 2 ^ (eb + 1074)).
    { rewrite Hva, Hb. apply RN_mono; lia. }
    assert (Hsame : A = B -> SF64mul (SF64div (S754_finite false ma ea)
                      (S754_finite false mb eb)) hundred = hundred).
    { intro E. rewrite E, <- Hb in Hva.
      destruct (canonical_unique _ _ _ _ Va Vb Hva) as [-> ->].
      now rewrite div_self. }
    destruct (div_le_one ma ea mb eb Va Vb Hle)
      as [Hq | [mq [eq [Hq [Eq Hq1]]]]]; rewrite Hq in *.
    + change (SF64mul (S754_zero false) hundred) with (S754_zero false) in *.
      repeat split; solve [exact I | assumption | lia | reflexivity].
    + simpl in Vq.
      destruct (mul_le_hundred mq eq Vq Hq1)
        as [Hx | [m [e [Hx [Ex Hx1]]]]]; rewrite Hx in *;
        repeat split; solve [exact I | assumption | lia | reflexivity].
  - (* overflow of the smaller difference: excluded *)
    exfalso. assert (RN A <= RN B) by (apply RN_mono; lia). lia.
Qed.

(** The scaled score of a total between the extremes: it is within 0 and
    100.0 when it is finite, and when the extremes and their difference
    are finite it is finite, a zero at [min_score] and 100.0 at
    [max_score]. *)
Lemma sf_scaled_spec : forall Mx Mn S,
  valid_binary Mx = true -> valid_binary Mn = true -> valid_binary S = true ->
  is_nan Mx = false -> is_nan Mn = false -> is_nan S = false ->
  Zval Mn <= Zval S <= Zval Mx -> Zval Mn < Zval Mx ->
  valid_binary (SF64sub S Mn) = true ->
  valid_binary (SF64sub Mx Mn) = true ->
  valid_binary (SF64div (SF64sub S Mn) (SF64sub Mx Mn)) = true ->
  within_100 (sf_scaled Mx Mn S)
  /\ (is_finite Mx = true -> is_finite Mn = true ->
      is_finite (SF64sub Mx Mn) = true ->
      is_finite (sf_scaled Mx Mn S) = true
      /\ (Zval S = Zval Mn -> is_zero (sf_scaled Mx Mn S) = true)
      /\ (Zval S = Zval Mx -> sf_scaled Mx Mn S = hundred)).
Proof.
  intros Mx Mn S Vx Vn Vs Nx Nn Ns Hord Hlt Va Vb Vq.
  pose proof (Zval_range Mx Vx) as Rx.
  pose proof (Zval_range Mn Vn) as Rn.
  pose proof (Zval_range S Vs) as Rs.
  pose proof (pow2_pos 2098 ltac:(lia)) as Pinf.
  destruct (is_finite Mn) eqn:Fn.
  2:{ destruct Mn as [sn|[|]| |sn mn en]; try discriminate.
      - rewrite sf_scaled_min_infinite; try assumption.
        + split; [exact I | discriminate].
        + intro E. subst Mx. cbn in Hlt. lia.
      - cbn [Zval cond_Zopp] in *. lia. }
  pose proof (Zval_infinite Mn Vn Nn Fn) as In.
  destruct (is_finite Mx) eqn:Fx.
  2:{ destruct Mx as [sx|[|]| |sx mx ex]; try discriminate.
      - cbn [Zval cond_Zopp] in *. lia.
      - split; [|discriminate]. unfold sf_scaled.
        replace (SF64sub (S754_infinity false) Mn) with (S754_infinity false)
          by (destruct Mn; try discriminate; reflexivity).
        destruct (is_finite S) eqn:Fs.
        + apply over_infinity with (A := Zval S - Zval Mn).
          apply sub_spec_finite; try assumption. lia.
        + destruct S as [ss|[|]| |ss ms es]; try discriminate.
          * cbn [Zval cond_Zopp] in *. lia.
          * replace (SF64sub (S754_infinity false) Mn)
              with (S754_infinity false)
              by (destruct Mn; try discriminate; reflexivity).
            exact I. }
  pose proof (Zval_infinite Mx Vx Nx Fx) as Ix.
  assert (Fs : is_finite S = true).
  { destruct S as [ss|[|]| |ss ms es]; try discriminate; try reflexivity;
      cbn [Zval cond_Zopp] in *; lia. }
  pose proof (sub_spec_finite S Mn Vs Vn Fs Fn ltac:(lia)) as Ha.
  pose proof (sub_spec_finite Mx Mn Vx Vn Fx Fn ltac:(lia)) as Hb.
  unfold sf_scaled.
  destruct Hb as [[HB _] | [HB [[mb [eb [Eb [Leb Hvb]]]] | [Eb Hov]]]];
    [lia | |].
  - rewrite Eb in *. simpl in Vb.
    destruct (quotient_within (SF64sub S Mn) (Zval S - Zval Mn) mb eb
                (Zval Mx - Zval Mn) Ha ltac:(lia) Hvb Va Vb Vq)
      as [W [F [Z0 H100]]].
    split; [exact W|]. intros _ _ _. split; [exact F|]. split.
    + intro E. apply Z0. lia.
    + intro E. apply H100. lia.
  - rewrite Eb in *. split; [|discriminate].
    now apply over_infinity with (A := Zval S - Zval Mn).
Qed.

(** ** Primitive floats *)

Lemma nan_free_dec : forall x, {nan_free x} + {Prim2SF x = S754_nan}.
Proof.
  intro x. unfold nan_free. destruct (Prim2SF x); auto.
Qed.

Lemma ltb_val : forall x y, nan_free x -> nan_free y ->
  (x <? y)%float = (val x <? val y).
Proof.
  intros x y Nx Ny. rewrite ltb_spec. unfold SFltb.
  rewrite (compare_Zval _ _ (Prim2SF_valid x) (Prim2SF_valid y) Nx Ny).
  unfold val, Z.ltb. now destruct (Zval (Prim2SF x) ?= Zval (Prim2SF y)).
Qed.

Lemma eqb_val : forall x y, nan_free x -> nan_free y ->
  (x =? y)%float = (val x =? val y).
Proof.
  intros x y Nx Ny. rewrite eqb_spec. unfold SFeqb.
  rewrite (compare_Zval _ _ (Prim2SF_valid x) (Prim2SF_valid y) Nx Ny).
  unfold val. rewrite Z.eqb_compare.
  now destruct (Zval (Prim2SF x) ?= Zval (Prim2SF y)).
Qed.

Lemma ltb_nan : forall x y,
  Prim2SF x = S754_nan \/ Prim2SF y = S754_nan -> (x <? y)%float = false.
Proof.
  intros x y H. rewrite ltb_spec. unfold SFltb, SFcompare.
  destruct H as [H | H]; rewrite H; [reflexivity|].
  now destruct (Prim2SF x).
Qed.

Lemma eqb_nan : forall x y,
  Prim2SF x = S754_nan \/ Prim2SF y = S754_nan -> (x =? y)%float = false.
Proof.
  intros x y H. rewrite eqb_spec. unfold SFeqb, SFcompare.
  destruct H as [H | H]; rewrite H; [reflexivity|].
  now destruct (Prim2SF x).
Qed.

Lemma scaled_spec : forall mx mn s,
  Prim2SF (Spec.scaled mx mn s) = sf_scaled (Prim2SF mx) (Prim2SF mn) (Prim2SF s).
Proof.
  intros mx mn s. unfold Spec.scaled, sf_scaled.
  now rewrite mul_spec, div_spec, !sub_spec, hundred_spec.
Qed.

Lemma div_nan_r : forall a, SF64div a S754_nan = S754_nan.
Proof. now intros [| | |]. Qed.

Lemma sub_nan_r : forall a, SF64sub a S754_nan = S754_nan.
Proof. now intros [| | |]. Qed.

(** A NaN among the score and the extremes makes the scaled score a NaN. *)
Lemma sf_scaled_nan : forall Mx Mn S,
  Mx = S754_nan \/ Mn = S754_nan \/ S = S754_nan ->
  sf_scaled Mx Mn S = S754_nan.
Proof.
  intros Mx Mn S [H | [H | H]]; subst; unfold sf_scaled.
  - change (SF64sub S754_nan Mn) with S754_nan. now rewrite div_nan_r.
  - now rewrite !sub_nan_r.
  - reflexivity.
Qed.

(** The scaled score of a total between the extremes, rounded: an integer
    from 0 to 100, when [round] returns one. *)
Lemma round_scaled_within : forall mx mn s n,
  (nan_free mx -> nan_free mn -> nan_free s ->
   val mn <= val s <= val mx /\ val mn < val mx) ->
  Py.round (Spec.scaled mx mn s) = inr n -> 0 <= n <= 100.
Proof.
  intros mx mn s n Hord. unfold Py.round. rewrite scaled_spec.
  destruct (nan_free_dec mx) as [Nx | Nx];
    [|rewrite sf_scaled_nan by auto; discriminate].
  destruct (nan_free_dec mn) as [Nn | Nn];
    [|rewrite sf_scaled_nan by auto; discriminate].
  destruct (nan_free_dec s) as [Ns | Ns];
    [|rewrite sf_scaled_nan by auto; discriminate].
  destruct (Hord Nx Nn Ns) as [H1 H2].
  destruct (sf_scaled_spec (Prim2SF mx) (Prim2SF mn) (Prim2SF s)) as [W _];
    try apply Prim2SF_valid; try assumption.
  - rewrite <- sub_spec. apply Prim2SF_valid.
  - rewrite <- sub_spec. apply Prim2SF_valid.
  - rewrite <- !sub_spec, <- div_spec. apply Prim2SF_valid.
  - destruct (sf_scaled (Prim2SF mx) (Prim2SF mn) (Prim2SF s))
      as [sg|sg| |sg m e]; try discriminate.
    + intro H. inversion H. lia.
    + destruct W as [Hsg [He Hv]]. subst sg. cbn [cond_Zopp].
      intro H. inversion H. apply round_within; assumption.
Qed.

Lemma finite_nan_free : forall x, finite x = true -> nan_free x.
Proof.
  intros x H. unfold finite, nan_free in *. now destruct (Prim2SF x).
Qed.

(** With finite extremes whose difference is finite, every total between
    them is rounded, to 0 at [min_score] and to 100 at [max_score]. *)
Lemma round_scaled_finite : forall mx mn s,
  finite mx = true -> finite mn = true -> finite s = true ->
  finite (mx - mn)%float = true ->
  val mn <= val s <= val mx -> val mn < val mx ->
  exists n, Py.round (Spec.scaled mx mn s) = inr n
            /\ (val s = val mn -> n = 0)
            /\ (val s = val mx -> n = 100).
Proof.
  intros mx mn s Fx Fn Fs Fd H1 H2. unfold Py.round. rewrite scaled_spec.
  destruct (sf_scaled_spec (Prim2SF mx) (Prim2SF mn) (Prim2SF s))
    as [_ Hfin]; try apply Prim2SF_valid; try (now apply finite_nan_free);
    try assumption.
  - rewrite <- sub_spec. apply Prim2SF_valid.
  - rewrite <- sub_spec. apply Prim2SF_valid.
  - rewrite <- !sub_spec, <- div_spec. apply Prim2SF_valid.
  - unfold finite in Fd. rewrite sub_spec in Fd.
    destruct (Hfin Fx Fn Fd) as [F [Z0 H100]].
    destruct (sf_scaled (Prim2SF mx) (Prim2SF mn) (Prim2SF s))
      as [sg|sg| |sg m e] eqn:E; try discriminate.
    + exists 0. split; [reflexivity|]. split; [reflexivity|].
      intro Hs. specialize (H100 Hs). discriminate.
    + eexists. split; [reflexivity|]. split.
      * intro Hs. specialize (Z0 Hs). discriminate.
      * intro Hs. specialize (H100 Hs). inversion H100. reflexivity.
Qed.

End Binary64Facts.

(** ** More on the operations of the normalizer *)

Module Binary64More.

Import Binary64 Binary64Facts.

(** ** The divisor of the normalizer *)

(** The difference of two floats of different value is not a zero: with
    the subnormal numbers, a difference is rounded to zero only when it is
    zero. *)
Lemma sub_not_zero : forall x y,
  valid_binary x = true -> valid_binary y = true ->
  is_nan x = false -> is_nan y = false -> Zval x <> Zval y ->
  is_zero (SF64sub x y) = false.
Proof.
  intros x y Vx Vy Nx Ny Hne.
  destruct x as [sx|sx| |sx mx ex], y as [sy|sy| |sy my ey];
    try discriminate; try (destruct sx, sy; reflexivity).
  - exfalso. apply Hne. reflexivity.
  - simpl in Vx, Vy.
    destruct (Zval_finite sx mx ex Vx) as [Hvx [Hpx [Hex Hcx]]].
    destruct (Zval_finite sy my ey Vy) as [Hvy [Hpy [Hey Hcy]]].
    clear Hvx Hvy. cbn [Zval] in *. unfold SF64sub, SFsub.
    set (ez := Z.min ex ey).
    rewrite !shl_align_fst by (unfold ez; lia).
    set (M := cond_Zopp sx (Zpos mx * 2 ^ (ex - ez)) -
              cond_Zopp sy (Zpos my * 2 ^ (ey - ez))).
    assert (Hez : -1074 <= ez) by (unfold ez; lia).
    assert (HM : M * 2 ^ (ez + 1074) =
                 cond_Zopp sx (Zpos mx * 2 ^ (ex + 1074)) -
                 cond_Zopp sy (Zpos my * 2 ^ (ey + 1074))).
    { unfold M. rewrite Z.mul_sub_distr_r, !cond_Zopp_mul.
      rewrite <- !Z.mul_assoc, <- !pow2_split by (unfold ez; lia).
      replace (ex - ez + (ez + 1074)) with (ex + 1074) by lia.
      replace (ey - ez + (ez + 1074)) with (ey + 1074) by lia.
      reflexivity. }
    unfold binary_normalize.
    destruct M as [|p|p].
    + exfalso. apply Hne. lia.
    + destruct (binary_round_spec false p ez Hez)
        as [[m2 [e2 [E _]]] | [E _]]; rewrite E; reflexivity.
    + destruct (binary_round_spec true p ez Hez)
        as [[m2 [e2 [E _]]] | [E _]]; rewrite E; reflexivity.
Qed.

(** ** The scaled score is never an infinity *)

Lemma over_infinity_zero_or_nan : forall a A, rounded_units A a ->
  forall sg,
  SF64mul (SF64div a (S754_infinity false)) hundred <> S754_infinity sg.
Proof.
  intros a A [[_ [s Ha]] | [_ [[m [e [Ha _]]] | [Ha _]]]] sg; subst a;
    discriminate.
Qed.

Lemma sf_scaled_not_infinite : forall Mx Mn S,
  valid_binary Mx = true -> valid_binary Mn = true -> valid_binary S = true ->
  is_nan Mx = false -> is_nan Mn = false -> is_nan S = false ->
  Zval Mn <= Zval S <= Zval Mx -> Zval Mn < Zval Mx ->
  valid_binary (SF64sub S Mn) = true ->
  valid_binary (SF64sub Mx Mn) = true ->
  valid_binary (SF64div (SF64sub S Mn) (SF64sub Mx Mn)) = true ->
  forall sg, sf_scaled Mx Mn S <> S754_infinity sg.
Proof.
  intros Mx Mn S Vx Vn Vs Nx Nn Ns Hord Hlt Va Vb Vq sg.
  pose proof (Zval_range Mx Vx) as Rx.
  pose proof (Zval_range Mn Vn) as Rn.
  pose proof (Zval_range S Vs) as Rs.
  pose proof (pow2_pos 2098 ltac:(lia)) as Pinf.
  destruct (is_finite Mn) eqn:Fn.
  2:{ destruct Mn as [sn|[|]| |sn mn en]; try discriminate.
      - rewrite sf_scaled_min_infinite; try assumption; [discriminate|].
        intro E. subst Mx. cbn in Hlt. lia.
      - cbn [Zval cond_Zopp] in *. lia. }
  pose proof (Zval_infinite Mn Vn Nn Fn) as In.
  destruct (is_finite Mx) eqn:Fx.
  2:{ destruct Mx as [sx|[|]| |sx mx ex]; try discriminate.
      - cbn [Zval cond_Zopp] in *. lia.
      - unfold sf_scaled.
        replace (SF64sub (S754_infinity false) Mn) with (S754_infinity false)
          by (destruct Mn; try discriminate; reflexivity).
        destruct (is_finite S) eqn:Fs.
        + apply over_infinity_zero_or_nan with (A := Zval S - Zval Mn).
          apply sub_spec_finite; try assumption. lia.
        + destruct S as [ss|[|]| |ss ms es]; try discriminate.
          * cbn [Zval cond_Zopp] in *. lia.
          * replace (SF64sub (S754_infinity false) Mn)
              with (S754_infinity false)
              by (destruct Mn; try discriminate; reflexivity).
            discriminate. }
  pose proof (Zval_infinite Mx Vx Nx Fx) as Ix.
  assert (Fs : is_finite S = true).
  { destruct S as [ss|[|]| |ss ms es]; try discriminate; try reflexivity;
      cbn [Zval cond_Zopp] in *; lia. }
  pose proof (sub_spec_finite S Mn Vs Vn Fs Fn ltac:(lia)) as Ha.
  pose proof (sub_spec_finite Mx Mn Vx Vn Fx Fn ltac:(lia)) as Hb.
  unfold sf_scaled.
  destruct Hb as [[HB _] | [HB [[mb [eb [Eb [Leb Hvb]]]] | [Eb Hov]]]];
    [lia | |].
  - rewrite Eb in *. simpl in Vb.
    destruct (quotient_within (SF64sub S Mn) (Zval S - Zval Mn) mb eb
                (Zval Mx - Zval Mn) Ha ltac:(lia) Hvb Va Vb Vq)
      as [_ [F _]].
    intro E. rewrite E in F. discriminate.
  - rewrite Eb in *.
    now apply over_infinity_zero_or_nan with (A := Zval S - Zval Mn).
Qed.

(** [round] of the scaled score of a total between the extremes raises
    nothing but [ValueError]. *)
Lemma round_scaled_raises : forall mx mn s e,
  (nan_free mx -> nan_free mn -> nan_free s ->
   val mn <= val s <= val mx /\ val mn < val mx) ->
  Py.round (Spec.scaled mx mn s) = inl e -> e = Py.ValueError.
Proof.
  intros mx mn s e Hord. unfold Py.round. rewrite scaled_spec.
  destruct (nan_free_dec mx) as [Nx | Nx];
    [|rewrite sf_scaled_nan by auto; congruence].
  destruct (nan_free_dec mn) as [Nn | Nn];
    [|rewrite sf_scaled_nan by auto; congruence].
  destruct (nan_free_dec s) as [Ns | Ns];
    [|rewrite sf_scaled_nan by auto; congruence].
  destruct (Hord Nx Nn Ns) as [H1 H2].
  pose proof (sf_scaled_not_infinite (Prim2SF mx) (Prim2SF mn) (Prim2SF s))
    as W.
  destruct (sf_scaled (Prim2SF mx) (Prim2SF mn) (Prim2SF s))
    as [sg|sg| |sg m e']; try discriminate; try congruence.
  exfalso. apply (W (Prim2SF_valid _) (Prim2SF_valid _) (Prim2SF_valid _)
                    Nx Nn Ns H1 H2) with (sg := sg); try reflexivity.
  - rewrite <- sub_spec. apply Prim2SF_valid.
  - rewrite <- sub_spec. apply Prim2SF_valid.
  - rewrite <- !sub_spec, <- div_spec. apply Prim2SF_valid.
Qed.

End Binary64More.

(** ** The order of the floats through the operations *)

Module Binary64Order.

Import Binary64 Binary64Facts Binary64More.

(** ** Rounding with a sticky bit *)

(** Rounding a code that was shifted with a sticky bit is rounding the
    code itself, two places further. *)
Lemma rne4_sticky_shift : forall V n, 0 <= V -> 0 <= n ->
  rne4 (sticky_shift V n) = rne V (n + 2).
Proof.
  intros V n HV Hn. unfold sticky_shift, rne, rne4. cbv zeta.
  replace (n + 2) with ((n + 1) + 1) by lia.
  rewrite (pow2_split (n + 1) 1) by lia. change (2 ^ 1) with 2.
  pose proof (pow2_pos (n + 1) ltac:(lia)) as PD.
  set (D := 2 ^ (n + 1)) in *.
  rewrite <- (Z.div_div V D 2), (Z.rem_mul_r V D 2) by lia.
  set (x := V / D). set (y := V mod D).
  pose proof (Z.mod_pos_bound V D PD) as Hy. fold y in Hy.
  pose proof (Z.mod_pos_bound x 2 ltac:(lia)) as Hb.
  pose proof (Z.div_mod x 2 ltac:(lia)) as Hx.
  set (q := x / 2) in *. set (b := x mod 2) in *.
  set (t := if y =? 0 then 0 else 1).
  assert (Ht : (t = 0 /\ y = 0) \/ (t = 1 /\ 0 < y)).
  { unfold t. destruct (Z.eqb_spec y 0); lia. }
  assert (E1 : (2 * x + t) / 4 = q) by (Z.div_mod_to_equations; lia).
  assert (E2 : (2 * x + t) mod 4 = 2 * b + t) by (Z.div_mod_to_equations; lia).
  rewrite E1, E2.
  assert (Hb' : b = 0 \/ b = 1) by lia.
  destruct Hb' as [Hb0 | Hb1]; [rewrite Hb0 | rewrite Hb1].
  - assert (C1 : (2 * 0 + t <? 2) = true) by (apply Z.ltb_lt; lia).
    assert (C2 : (2 * (y + D * 0) ?= D * 2) = Lt)
      by (apply Z.compare_lt_iff; lia).
    now rewrite C1, C2.
  - assert (C1 : (2 * 1 + t <? 2) = false) by (apply Z.ltb_ge; lia).
    rewrite C1.
    destruct Ht as [[Ht Hy0] | [Ht Hy0]]; rewrite Ht.
    + assert (C2 : (2 * (y + D * 1) ?= D * 2) = Eq)
        by (apply Z.compare_eq_iff; lia).
      now rewrite C2.
    + assert (C2 : (2 * (y + D * 1) ?= D * 2) = Gt)
        by (apply Z.compare_gt_iff; lia).
      now rewrite C2.
Qed.

Lemma code_of_loc : forall m l,
  code (shr_record_of_loc m l) = 4 * m + loc_bits l.
Proof. intros m [|[| |]]; unfold code; cbn; ring. Qed.

Lemma loc_bits_range : forall l, 0 <= loc_bits l <= 3.
Proof. intros [|[| |]]; cbn; lia. Qed.

(** The first step of [binary_round_aux], for any location. *)
Lemma shr_fexp_loc : forall m e l n,
  0 <= m -> n = fexp64 (digits m + e) - e -> 0 <= n ->
  exists rec,
    shr_fexp prec emax m e l = (rec, e + n)
    /\ round_nearest_even (shr_m rec) (loc_of_shr_record rec)
       = rne (4 * m + loc_bits l) (n + 2).
Proof.
  intros m e l n Hm Hn Hn0. unfold shr_fexp.
  change (fexp prec emax (Zdigits2 m + e)) with (fexp64 (digits m + e)).
  rewrite <- Hn. unfold shr.
  destruct (record_of_loc m l) as [R1 R2].
  pose proof (loc_bits_range l) as Hl.
  destruct n as [|p|p]; try lia.
  - exists (shr_record_of_loc m l). rewrite Z.add_0_r.
    split; [reflexivity|].
    rewrite round_code by (rewrite R1; lia).
    rewrite code_of_loc.
    replace (rne4 (4 * m + loc_bits l))
      with (rne4 (sticky_shift (4 * m + loc_bits l) 0))
      by (now rewrite sticky_shift_0).
    apply rne4_sticky_shift; lia.
  - exists (iter_pos shr_1 p (shr_record_of_loc m l)).
    split; [reflexivity|].
    destruct (code_iter p (shr_record_of_loc m l)) as [H E];
      [rewrite R1; lia|].
    rewrite round_code by exact H. rewrite E, code_of_loc.
    apply rne4_sticky_shift; lia.
Qed.

(** A mantissa with a location is rounded as the mantissa with the two
    bits of the location, two places lower and exact, is. *)
Lemma bra_code : forall s m e l,
  0 <= m -> e <= fexp64 (digits m + e) ->
  fexp64 (digits (4 * m + loc_bits l) + (e - 2)) = fexp64 (digits m + e) ->
  binary_round_aux prec emax s m e l =
  binary_round_aux prec emax s (4 * m + loc_bits l) (e - 2) loc_Exact.
Proof.
  intros s m e l Hm Hfull Hf.
  pose proof (loc_bits_range l) as Hl.
  set (n := fexp64 (digits m + e) - e).
  destruct (shr_fexp_loc m e l n Hm eq_refl ltac:(unfold n; lia))
    as [rec1 [E1 R1]].
  destruct (shr_fexp_loc (4 * m + loc_bits l) (e - 2) loc_Exact (n + 2)
              ltac:(lia) ltac:(unfold n; lia) ltac:(unfold n; lia))
    as [rec2 [E2 R2]].
  unfold binary_round_aux. rewrite E1, E2, R1, R2.
  replace (e - 2 + (n + 2)) with (e + n) by lia.
  cbn [loc_bits]. rewrite Z.add_0_r.
  replace (4 * (4 * m + loc_bits l)) with ((4 * m + loc_bits l) * 2 ^ 2)
    by (change (2 ^ 2) with 4; ring).
  rewrite (rne_scale (4 * m + loc_bits l) (n + 2) 2) by (unfold n; lia).
  reflexivity.
Qed.

Lemma digits_code : forall m b, 0 < m -> 0 <= b <= 3 ->
  digits (4 * m + b) = digits m + 2.
Proof.
  intros m b Hm Hb. destruct (digits_bounds m Hm) as [D0 [D1 D2]].
  apply digits_unique; [lia|].
  replace (digits m + 2 - 1) with ((digits m - 1) + 2) by lia.
  rewrite (pow2_split (digits m - 1) 2), (pow2_split (digits m) 2) by lia.
  change (2 ^ 2) with 4. lia.
Qed.

(** ** The value that [binary_round_aux] returns *)

(** An exact mantissa [m] at the exponent [e] is rounded to the float of
    [RNx m e] units: a zero, a positive float, or an infinity. *)
Lemma bra_value : forall m e, 0 <= m -> e <= fexp64 (digits m + e) ->
  (binary_round_aux prec emax false m e loc_Exact = S754_zero false
   /\ RNx m e = 0)
  \/ (exists m2 e2,
        binary_round_aux prec emax false m e loc_Exact
          = S754_finite false m2 e2
        /\ -1074 <= e2 /\ Zpos m2 * 2 ^ (e2 + 1074) = RNx m e)
  \/ binary_round_aux prec emax false m e loc_Exact = S754_infinity false.
Proof.
  intros m e Hm Hfull.
  destruct (bra_spec false m e loc_Exact Hm Hfull)
    as [m1 [_ [Hex Hres]]].
  specialize (Hex eq_refl). unfold RNx.
  set (f := fexp64 (digits m + e)) in *.
  assert (Hf : -1074 <= f) by (unfold f, fexp64; lia).
  destruct Hres as [[Hz E] | [m2 [e2 [C2 [L2 [V2 E]]]]]].
  - left. split; [exact E|]. rewrite <- Hex, Hz. reflexivity.
  - right. rewrite E. destruct (e2 <=? 971).
    + left. exists m2, e2. split; [reflexivity|]. split; [lia|].
      rewrite <- Hex, <- V2, <- Z.mul_assoc, <- pow2_split by lia.
      f_equal. f_equal. lia.
    + right. reflexivity.
Qed.

(** Zeros at the end of the mantissa make no difference. *)
Lemma RNx_scale : forall m e j, 0 < m -> 0 <= j ->
  e <= fexp64 (digits m + e) -> RNx (m * 2 ^ j) (e - j) = RNx m e.
Proof.
  intros m e j Hm Hj Hfull. unfold RNx.
  rewrite digits_shift by lia.
  replace (digits m + j + (e - j)) with (digits m + e) by lia.
  f_equal.
  replace (fexp64 (digits m + e) - (e - j))
    with ((fexp64 (digits m + e) - e) + j) by lia.
  apply rne_scale; lia.
Qed.

(** Rounding to the format is monotone, below the unit as well. *)
Lemma RNx_mono : forall N1 N2 u, 0 < N1 -> N1 <= N2 ->
  u <= fexp64 (digits N1 + u) -> RNx N1 u <= RNx N2 u.
Proof.
  intros N1 N2 u H1 H12 Hfull. unfold RNx.
  assert (Hd : digits N1 <= digits N2) by (apply digits_mono; lia).
  set (f1 := fexp64 (digits N1 + u)) in *.
  set (f2 := fexp64 (digits N2 + u)).
  assert (Hf : f1 <= f2) by (apply fexp64_mono; lia).
  assert (Hf1 : -1074 <= f1) by (unfold f1, fexp64; lia).
  destruct (digits_bounds N1 H1) as [D10 [D11 D12]].
  destruct (digits_bounds N2 ltac:(lia)) as [D20 [D21 D22]].
  destruct (Z.eq_dec f1 f2) as [E | NE].
  - rewrite <- E. apply Z.mul_le_mono_nonneg_r; [apply Z.pow_nonneg; lia|].
    apply rne_mono; lia.
  - assert (Hlt : f1 < f2) by lia.
    assert (E2 : f2 = digits N2 + u - 53) by (unfold f2, fexp64 in *; lia).
    assert (Hdd : digits N1 < digits N2)
      by (unfold f1, f2, fexp64 in *; lia).
    (* the greater one is at least the power of two below it *)
    assert (L2 : 2 ^ (digits N2 - 1 + u + 1074)
                 <= rne N2 (f2 - u) * 2 ^ (f2 + 1074)).
    { pose proof (rne_bounds N2 (f2 - u) ltac:(lia)) as [Hl _].
      pose proof (pow2_pos (f2 - u) ltac:(lia)) as Pk.
      assert (Hq : 2 ^ (digits N2 - 1 - (f2 - u)) <= N2 / 2 ^ (f2 - u)).
      { apply Z.div_le_lower_bound; [lia|].
        rewrite <- pow2_split by lia.
        replace (f2 - u + (digits N2 - 1 - (f2 - u))) with (digits N2 - 1)
          by lia.
        exact D21. }
      replace (digits N2 - 1 + u + 1074)
        with ((digits N2 - 1 - (f2 - u)) + (f2 + 1074)) by lia.
      rewrite pow2_split by lia.
      apply Z.mul_le_mono_nonneg_r; [apply Z.pow_nonneg|]; lia. }
    apply Z.le_trans with (2 ^ (digits N2 - 1 + u + 1074)); [|exact L2].
    (* the smaller one is at most the power of two above it *)
    pose proof (rne_bounds N1 (f1 - u) ltac:(lia)) as [_ Hu].
    pose proof (pow2_pos (f1 - u) ltac:(lia)) as Pk.
    destruct (Z_le_gt_dec (f1 - u) (digits N1)) as [Hk | Hk].
    + assert (Hq : N1 / 2 ^ (f1 - u) < 2 ^ (digits N1 - (f1 - u))).
      { apply Z.div_lt_upper_bound; [lia|].
        rewrite <- pow2_split by lia.
        replace (f1 - u + (digits N1 - (f1 - u))) with (digits N1) by lia.
        exact D12. }
      apply Z.le_trans with (2 ^ (digits N1 - (f1 - u)) * 2 ^ (f1 + 1074)).
      * apply Z.mul_le_mono_nonneg_r; [apply Z.pow_nonneg|]; lia.
      * rewrite <- pow2_split by lia. apply pow2_le. lia.
    + assert (Hq : N1 / 2 ^ (f1 - u) = 0).
      { apply Z.div_small. split; [lia|].
        apply Z.lt_le_trans with (2 ^ digits N1); [exact D12|].
        apply pow2_le. lia. }
      assert (F1 : f1 = -1074) by (unfold f1, fexp64 in *; lia).
      rewrite F1 in *. change (2 ^ (-1074 + 1074)) with 1.
      assert (1 <= 2 ^ (digits N2 - 1 + u + 1074))
        by (pose proof (pow2_pos (digits N2 - 1 + u + 1074)); lia).
      lia.
Qed.

(** ** Quotients with a sticky bit *)

Lemma sticky_quotient_mono : forall N1 N2 D, 0 < D -> N1 <= N2 ->
  sticky_quotient N1 D <= sticky_quotient N2 D.
Proof.
  intros N1 N2 D HD H. unfold sticky_quotient.
  pose proof (Z.div_mod N1 D ltac:(lia)) as E1.
  pose proof (Z.div_mod N2 D ltac:(lia)) as E2.
  pose proof (Z.mod_pos_bound N1 D HD) as R1.
  pose proof (Z.mod_pos_bound N2 D HD) as R2.
  assert (Hq : N1 / D <= N2 / D) by (apply Z.div_le_mono; lia).
  destruct (Z.eqb_spec (N1 mod D) 0); destruct (Z.eqb_spec (N2 mod D) 0);
    try lia.
  destruct (Z.eq_dec (N1 / D) (N2 / D)) as [E | NE]; [|lia].
  rewrite E in *. lia.
Qed.

Lemma sticky_quotient_nonneg : forall N D, 0 <= N -> 0 < D ->
  0 <= sticky_quotient N D.
Proof.
  intros N D HN HD. unfold sticky_quotient.
  pose proof (Z.div_pos N D HN HD). destruct (N mod D =? 0); lia.
Qed.

(** The quotient of a numerator with [j] more binary places, shifted back
    with a sticky bit, is the quotient of the numerator. *)
Lemma sticky_quotient_shift : forall N D j, 0 <= N -> 0 < D -> 0 <= j ->
  sticky_shift (sticky_quotient (N * 2 ^ j) D) j = sticky_quotient N D.
Proof.
  intros N D j HN HD Hj. unfold sticky_shift, sticky_quotient.
  rewrite (pow2_split j 1) by lia. change (2 ^ 1) with 2.
  pose proof (pow2_pos j Hj) as PP. set (P := 2 ^ j) in *.
  set (Q := N * P / D). set (R := (N * P) mod D).
  pose proof (Z.div_mod (N * P) D ltac:(lia)) as EQ. fold Q R in EQ.
  pose proof (Z.mod_pos_bound (N * P) D HD) as HR. fold R in HR.
  set (t := if R =? 0 then 0 else 1).
  assert (Ht : (t = 0 /\ R = 0) \/ (t = 1 /\ 0 < R)).
  { unfold t. destruct (Z.eqb_spec R 0); lia. }
  assert (HQ0 : 0 <= Q) by (apply Z.div_pos; nia).
  assert (Hq : Q / P = N / D).
  { unfold Q. rewrite Z.div_div by lia.
    rewrite Z.div_mul_cancel_r by lia. reflexivity. }
  assert (E1 : (2 * Q + t) / (P * 2) = N / D).
  { rewrite <- Hq. rewrite (Z.mul_comm P 2).
    rewrite <- Z.div_div by lia. f_equal.
    Z.div_mod_to_equations. lia. }
  rewrite E1. f_equal.
  pose proof (Z.div_mod Q P ltac:(lia)) as EP. rewrite Hq in EP.
  pose proof (Z.mod_pos_bound Q P PP) as HP.
  pose proof (Z.div_mod N D ltac:(lia)) as EN.
  pose proof (Z.mod_pos_bound N D HD) as HN'.
  set (q := N / D) in *. set (r := N mod D) in *. set (Q2 := Q mod P) in *.
  assert (Hrel : r * P = D * Q2 + R) by nia.
  assert (E2 : (2 * Q + t) mod (P * 2) = 2 * Q2 + t).
  { symmetry. apply Z.mod_unique with (q := q); [lia|]. lia. }
  rewrite E2.
  destruct (Z.eqb_spec r 0) as [Hr0 | Hr0].
  - assert (Q2 = 0 /\ R = 0) by nia.
    destruct (Z.eqb_spec (2 * Q2 + t) 0); lia.
  - assert (0 < r * P) by nia.
    destruct (Z.eqb_spec (2 * Q2 + t) 0); [|reflexivity].
    exfalso. assert (Q2 = 0 /\ t = 0) by lia. nia.
Qed.

(** The location of a remainder, as bits after the quotient. *)
Lemma new_location_bits : forall D q r, 0 < D -> 0 <= r < D ->
  4 * q + loc_bits (new_location D r) = sticky_quotient (2 * (D * q + r)) D.
Proof.
  intros D q r HD Hr. unfold sticky_quotient.
  assert (Hcases : (2 * r < D /\ (2 * (D * q + r)) / D = 2 * q
                    /\ (2 * (D * q + r)) mod D = 2 * r)
                \/ (D <= 2 * r /\ (2 * (D * q + r)) / D = 2 * q + 1
                    /\ (2 * (D * q + r)) mod D = 2 * r - D)).
  { destruct (Z_lt_le_dec (2 * r) D) as [H | H]; [left | right];
      (split; [exact H|]); split.
    - symmetry. apply Z.div_unique with (r := 2 * r); [lia | ring].
    - symmetry. apply Z.mod_unique with (q := 2 * q); [lia | ring].
    - symmetry. apply Z.div_unique with (r := 2 * r - D); [lia | ring].
    - symmetry. apply Z.mod_unique with (q := 2 * q + 1); [lia | ring]. }
  unfold new_location, new_location_even, new_location_odd.
  destruct (Z.even D) eqn:Ev.
  - destruct (Z.eqb_spec r 0) as [Hr0 | Hr0].
    + subst r. destruct Hcases as [[_ [E1 E2]] | [H _]]; [|lia].
      rewrite E1, E2. cbn [loc_bits].
      change (2 * 0 =? 0) with true. cbv iota. lia.
    + destruct (Z.compare_spec (2 * r) D) as [C | C | C];
        destruct Hcases as [[H [E1 E2]] | [H [E1 E2]]]; try lia;
        rewrite E1, E2; cbn [loc_bits].
      * replace (2 * r - D) with 0 by lia.
        change (0 =? 0) with true. cbv iota. lia.
      * destruct (Z.eqb_spec (2 * r) 0); lia.
      * destruct (Z.eqb_spec (2 * r - D) 0); lia.
  - assert (Hodd : D mod 2 = 1).
    { rewrite Zmod_even, Ev. reflexivity. }
    destruct (Z.eqb_spec r 0) as [Hr0 | Hr0].
    + subst r. destruct Hcases as [[_ [E1 E2]] | [H _]]; [|lia].
      rewrite E1, E2. cbn [loc_bits].
      change (2 * 0 =? 0) with true. cbv iota. lia.
    + assert (Hne : 2 * r <> D).
      { intro E. rewrite <- E in Hodd.
        rewrite Z.mul_comm, Z.mod_mul in Hodd by lia. discriminate. }
      destruct (Z.compare_spec (2 * r + 1) D) as [C | C | C];
        destruct Hcases as [[H [E1 E2]] | [H [E1 E2]]]; try lia;
        rewrite E1, E2; cbn [loc_bits].
      * destruct (Z.eqb_spec (2 * r) 0); lia.
      * destruct (Z.eqb_spec (2 * r) 0); lia.
      * destruct (Z.eqb_spec (2 * r - D) 0); lia.
Qed.

Lemma digits_small : forall m d, 0 <= m -> 0 <= d -> m < 2 ^ d ->
  digits m <= d.
Proof. intros m d Hm Hd H. now apply digits_le. Qed.

(** A code with [j] more places and the code shifted back are rounded to
    the same value, when the cut is above the last two places of the
    shifted code. *)
Lemma RNx_sticky : forall V u j, 0 <= V -> 0 <= j ->
  fexp64 (digits (sticky_shift V j) + (u + j)) = fexp64 (digits V + u) ->
  u + j + 2 <= fexp64 (digits V + u) ->
  RNx (sticky_shift V j) (u + j) = RNx V u.
Proof.
  intros V u j HV Hj Hf Hcut. unfold RNx. rewrite Hf.
  set (f := fexp64 (digits V + u)) in *. f_equal.
  replace (f - (u + j)) with ((f - u - j - 2) + 2) by lia.
  assert (H0 : 0 <= sticky_shift V j).
  { unfold sticky_shift.
    pose proof (Z.div_pos V (2 ^ (j + 1)) HV (pow2_pos (j + 1) ltac:(lia))).
    destruct (V mod 2 ^ (j + 1) =? 0); lia. }
  rewrite <- rne4_sticky_shift by lia.
  rewrite sticky_shift_add by lia.
  rewrite rne4_sticky_shift by lia.
  f_equal. lia.
Qed.

Lemma digits_sticky_shift : forall V j, 0 <= j -> 2 ^ (j + 1) <= V ->
  digits (sticky_shift V j) = digits V - j.
Proof.
  intros V j Hj HV. unfold sticky_shift.
  pose proof (pow2_pos (j + 1) ltac:(lia)) as PP.
  assert (Hx : 1 <= V / 2 ^ (j + 1)).
  { apply Z.div_le_lower_bound; lia. }
  assert (Hd : j + 2 <= digits V).
  { apply digits_ge; [lia|]. replace (j + 2 - 1) with (j + 1) by lia.
    exact HV. }
  assert (Hdx : digits (V / 2 ^ (j + 1)) = digits V - (j + 1))
    by (apply digits_div; lia).
  destruct (digits_bounds (V / 2 ^ (j + 1)) ltac:(lia)) as [D0 [D1 D2]].
  rewrite Hdx in *.
  apply digits_unique; [lia|].
  replace (digits V - j - 1) with ((digits V - (j + 1) - 1) + 1) by lia.
  replace (digits V - j) with ((digits V - (j + 1)) + 1) by lia.
  rewrite (pow2_split (digits V - (j + 1) - 1) 1) by lia.
  rewrite (pow2_split (digits V - (j + 1)) 1) by lia.
  change (2 ^ 1) with 2.
  destruct (V mod 2 ^ (j + 1) =? 0); lia.
Qed.

(** ** Division *)

(** The quotient of two positive floats, the first at most the second: it
    is the float of the quotient of the mantissas, taken with enough
    places and a sticky bit, rounded to the format. The unit [2 ^ u] of
    that quotient is any that is fine enough. *)
Lemma div_value : forall ma ea mb eb u,
  bounded prec emax ma ea = true -> bounded prec emax mb eb = true ->
  Zpos ma * 2 ^ (ea + 1074) <= Zpos mb * 2 ^ (eb + 1074) ->
  u <= fexp64 (digits (Zpos ma) + ea - (digits (Zpos mb) + eb)) - 2 ->
  u <= ea - eb - 2 ->
  let V := sticky_quotient (Zpos ma * 2 ^ (ea - eb - 1 - u)) (Zpos mb) in
  (SF64div (S754_finite false ma ea) (S754_finite false mb eb)
     = S754_zero false /\ RNx V u = 0)
  \/ (exists m e,
        SF64div (S754_finite false ma ea) (S754_finite false mb eb)
          = S754_finite false m e
        /\ -1074 <= e /\ Zpos m * 2 ^ (e + 1074) = RNx V u).
Proof.
  intros ma ea mb eb u Va Vb Hle Hu1 Hu2 V.
  pose proof (div_le_one ma ea mb eb Va Vb Hle) as Hone.
  destruct (Zval_finite false ma ea Va) as [_ [Pa [Ea Ca]]].
  destruct (Zval_finite false mb eb Vb) as [_ [Pb [Eb Cb]]].
  unfold SF64div, SFdiv, SFdiv_core_binary in *.
  change (Zdigits2 (Zpos ma)) with (digits (Zpos ma)) in *.
  change (Zdigits2 (Zpos mb)) with (digits (Zpos mb)) in *.
  change (fexp prec emax (digits (Zpos ma) + ea - (digits (Zpos mb) + eb)))
    with (fexp64 (digits (Zpos ma) + ea - (digits (Zpos mb) + eb))) in *.
  set (d1 := digits (Zpos ma)) in *. set (d2 := digits (Zpos mb)) in *.
  set (G := d1 + ea - (d2 + eb)) in *.
  set (e' := Z.min (fexp64 G) (ea - eb)) in *.
  set (sh := ea - eb - e') in *.
  assert (Hsh : 0 <= sh) by (unfold sh, e'; lia).
  assert (Hue : u <= e' - 2) by (unfold e'; lia).
  destruct (digits_bounds (Zpos ma) ltac:(lia)) as [A0 [A1 A2]].
  destruct (digits_bounds (Zpos mb) ltac:(lia)) as [B0 [B1 B2]].
  fold d1 in A0, A1, A2. fold d2 in B0, B1, B2.
  set (m' := match sh with
             | 0 => Zpos ma
             | Zpos _ => Z.shiftl (Zpos ma) sh
             | Zneg _ => 0
             end) in *.
  assert (Hm' : m' = Zpos ma * 2 ^ sh).
  { unfold m'. destruct sh as [|p|p] eqn:Esh; try lia.
    apply Z.shiftl_mul_pow2. lia. }
  destruct (Z.div_eucl m' (Zpos mb)) as [q r] eqn:Hdiv.
  assert (Hq : q = m' / Zpos mb)
    by (unfold Z.div; now rewrite Hdiv).
  assert (Hr : r = m' mod Zpos mb)
    by (unfold Z.modulo; now rewrite Hdiv).
  pose proof (pow2_pos sh Hsh) as Psh.
  assert (Hm'pos : 0 < m') by (rewrite Hm'; apply Z.mul_pos_pos; lia).
  pose proof (Z.div_mod m' (Zpos mb) ltac:(lia)) as Hdm.
  pose proof (Z.mod_pos_bound m' (Zpos mb) ltac:(lia)) as Hrb.
  rewrite <- Hq, <- Hr in *.
  assert (Hq0 : 0 <= q) by (rewrite Hq; apply Z.div_pos; lia).
  cbn [xorb] in *.
  pose proof (digits_quot m' (Zpos mb) Hm'pos ltac:(lia)) as Hdq.
  rewrite <- Hq in Hdq. rewrite Hm', digits_shift in Hdq by lia.
  fold d1 d2 in Hdq.
  assert (HGq : G <= digits q + e') by (unfold G, sh in *; lia).
  assert (Hfull : e' <= fexp64 (digits q + e'))
    by (unfold e', fexp64 in *; lia).
  pose proof (loc_bits_range (new_location (Zpos mb) r)) as Hlb.
  set (l := new_location (Zpos mb) r) in *.
  set (c := 4 * q + loc_bits l).
  assert (Hc0 : 0 <= c) by (unfold c; lia).
  (* the exponent of the format, for the code as for the quotient *)
  assert (Hfc : fexp64 (digits c + (e' - 2)) = fexp64 (digits q + e')).
  { destruct (Z.eq_dec q 0) as [Hz | Hnz].
    - rewrite Hz in *. change (digits 0) with 0 in *.
      assert (He' : e' <= -1074) by (unfold e', fexp64 in *; lia).
      assert (digits c <= 2).
      { apply digits_small; [lia | lia |]. change (2 ^ 2) with 4.
        unfold c. lia. }
      pose proof (digits_nonneg c Hc0). unfold fexp64. lia.
    - unfold c. rewrite digits_code by lia. f_equal. lia. }
  rewrite (bra_code false q e' l Hq0 Hfull Hfc) in *. fold c in Hone |- *.
  (* the code is the sticky quotient at the exponent [e' - 2] *)
  assert (Hc : c = sticky_quotient (2 * m') (Zpos mb)).
  { unfold c, l. rewrite (new_location_bits (Zpos mb) q r) by lia.
    f_equal. lia. }
  set (j := e' - 2 - u).
  assert (Hj : 0 <= j) by (unfold j; lia).
  assert (HV : V = sticky_quotient (2 * m' * 2 ^ j) (Zpos mb)).
  { unfold V. f_equal. rewrite Hm'.
    replace (ea - eb - 1 - u) with (sh + (1 + j)) by (unfold sh, j; lia).
    rewrite (pow2_split sh (1 + j)), (pow2_split 1 j) by lia.
    change (2 ^ 1) with 2. ring. }
  assert (HcV : c = sticky_shift V j).
  { rewrite Hc, HV. symmetry. apply sticky_quotient_shift; lia. }
  assert (HV0 : 0 <= V).
  { rewrite HV. apply sticky_quotient_nonneg; [|lia].
    pose proof (pow2_pos j Hj). nia. }
  assert (Hfv : fexp64 (digits V + u) = fexp64 (digits q + e')).
  { rewrite <- Hfc.
    destruct (Z_lt_le_dec c 4) as [Hsmall | Hbig].
    - assert (Hz : q = 0) by (unfold c in Hsmall; lia).
      rewrite Hz in *. change (digits 0) with 0 in *.
      assert (He' : e' <= -1074) by (unfold e', fexp64 in *; lia).
      assert (HVs : V < 2 ^ (j + 2)).
      { destruct (Z_lt_le_dec V (2 ^ (j + 2))) as [|HVb]; [assumption|].
        exfalso.
        assert (2 <= V / 2 ^ (j + 1)).
        { apply Z.div_le_lower_bound; [apply pow2_pos; lia|].
          replace (j + 2) with ((j + 1) + 1) in HVb by lia.
          rewrite (pow2_split (j + 1) 1) in HVb by lia.
          change (2 ^ 1) with 2 in HVb. lia. }
        rewrite HcV in Hsmall. unfold sticky_shift in Hsmall.
        destruct (V mod 2 ^ (j + 1) =? 0); lia. }
      assert (digits V <= j + 2) by (apply digits_small; lia).
      pose proof (digits_nonneg V HV0).
      assert (digits c <= 2).
      { apply digits_small; [lia | lia |]. change (2 ^ 2) with 4. lia. }
      pose proof (digits_nonneg c Hc0).
      unfold fexp64, j in *. lia.
    - assert (HVb : 2 ^ (j + 1) <= V).
      { destruct (Z_lt_le_dec V (2 ^ (j + 1))) as [Hs|]; [|assumption].
        exfalso. rewrite HcV in Hbig. unfold sticky_shift in Hbig.
        rewrite Z.div_small in Hbig by lia.
        destruct (V mod 2 ^ (j + 1) =? 0); lia. }
      pose proof (digits_sticky_shift V j Hj HVb) as Hds.
      rewrite <- HcV in Hds. f_equal. unfold j in *. lia. }
  assert (HRN : RNx c (e' - 2) = RNx V u).
  { rewrite HcV. replace (e' - 2) with (u + j) by (unfold j; lia).
    apply RNx_sticky; try lia.
    rewrite <- HcV. replace (u + j) with (e' - 2) by (unfold j; lia).
    now rewrite Hfc, Hfv. }
  assert (Hfullc : e' - 2 <= fexp64 (digits c + (e' - 2)))
    by (rewrite Hfc; lia).
  destruct (bra_value c (e' - 2) Hc0 Hfullc)
    as [[E Z0] | [[m2 [e2 [E [L Vl]]]] | E]].
  - left. split; [exact E | now rewrite <- HRN].
  - right. exists m2, e2. split; [exact E|]. split; [exact L|].
    now rewrite <- HRN.
  - exfalso. rewrite E in Hone.
    destruct Hone as [H | [m [e [H _]]]]; discriminate.
Qed.

Lemma sticky_quotient_pos : forall N D, 0 < N -> 0 < D ->
  0 < sticky_quotient N D.
Proof.
  intros N D HN HD. unfold sticky_quotient.
  pose proof (Z.div_pos N D ltac:(lia) HD).
  pose proof (Z.div_mod N D ltac:(lia)).
  destruct (Z.eqb_spec (N mod D) 0); [|lia]. nia.
Qed.

(** An order between two numbers with binary places is the same with [c]
    places more, or less. *)
Lemma pow2_le_shift : forall x1 p1 x2 p2 c,
  0 <= p1 -> 0 <= p2 -> 0 <= p1 + c -> 0 <= p2 + c ->
  x1 * 2 ^ (p1 + c) <= x2 * 2 ^ (p2 + c) ->
  x1 * 2 ^ p1 <= x2 * 2 ^ p2.
Proof.
  intros x1 p1 x2 p2 c H1 H2 H1c H2c H.
  destruct (Z_le_gt_dec 0 c) as [Hc | Hc].
  - rewrite (pow2_split p1 c), (pow2_split p2 c), !Z.mul_assoc in H by lia.
    apply Z.mul_le_mono_pos_r in H; [exact H | apply pow2_pos; lia].
  - replace p1 with ((p1 + c) + (- c)) by lia.
    replace p2 with ((p2 + c) + (- c)) by lia.
    rewrite (pow2_split (p1 + c) (- c)), (pow2_split (p2 + c) (- c)),
      !Z.mul_assoc by lia.
    apply Z.mul_le_mono_nonneg_r; [apply Z.pow_nonneg; lia | exact H].
Qed.

(** Division by a positive float is monotone, for numerators that are
    positive and at most the divisor. *)
Lemma div_mono : forall ma1 ea1 ma2 ea2 mb eb,
  bounded prec emax ma1 ea1 = true -> bounded prec emax ma2 ea2 = true ->
  bounded prec emax mb eb = true ->
  Zpos ma1 * 2 ^ (ea1 + 1074) <= Zpos ma2 * 2 ^ (ea2 + 1074) ->
  Zpos ma2 * 2 ^ (ea2 + 1074) <= Zpos mb * 2 ^ (eb + 1074) ->
  Zval (SF64div (S754_finite false ma1 ea1) (S754_finite false mb eb))
  <= Zval (SF64div (S754_finite false ma2 ea2) (S754_finite false mb eb)).
Proof.
  intros ma1 ea1 ma2 ea2 mb eb V1 V2 Vb H12 H2b.
  destruct (Zval_finite false ma1 ea1 V1) as [_ [P1 [E1 _]]].
  destruct (Zval_finite false ma2 ea2 V2) as [_ [P2 [E2 _]]].
  destruct (Zval_finite false mb eb Vb) as [_ [Pb [Eb _]]].
  set (u := Z.min
              (Z.min (fexp64 (digits (Zpos ma1) + ea1
                              - (digits (Zpos mb) + eb)) - 2)
                     (ea1 - eb - 2))
              (Z.min
                 (Z.min (fexp64 (digits (Zpos ma2) + ea2
                                 - (digits (Zpos mb) + eb)) - 2)
                        (ea2 - eb - 2))
                 (-1074))).
  pose proof (div_value ma1 ea1 mb eb u V1 Vb ltac:(lia)
                ltac:(unfold u; lia) ltac:(unfold u; lia)) as D1.
  pose proof (div_value ma2 ea2 mb eb u V2 Vb ltac:(lia)
                ltac:(unfold u; lia) ltac:(unfold u; lia)) as D2.
  cbv zeta in D1, D2.
  set (N1 := Zpos ma1 * 2 ^ (ea1 - eb - 1 - u)) in *.
  set (N2 := Zpos ma2 * 2 ^ (ea2 - eb - 1 - u)) in *.
  assert (HN : N1 <= N2).
  { unfold N1, N2.
    apply (pow2_le_shift _ _ _ _ (eb + 1 + u + 1074));
      try (unfold u; lia).
    replace (ea1 - eb - 1 - u + (eb + 1 + u + 1074)) with (ea1 + 1074) by lia.
    replace (ea2 - eb - 1 - u + (eb + 1 + u + 1074)) with (ea2 + 1074) by lia.
    exact H12. }
  assert (HN1 : 0 < N1).
  { unfold N1. apply Z.mul_pos_pos; [lia|]. apply pow2_pos. unfold u. lia. }
  assert (HR : RNx (sticky_quotient N1 (Zpos mb)) u
               <= RNx (sticky_quotient N2 (Zpos mb)) u).
  { apply RNx_mono.
    - apply sticky_quotient_pos; lia.
    - apply sticky_quotient_mono; lia.
    - assert (u <= -1074) by (unfold u; lia). unfold fexp64. lia. }
  destruct D1 as [[Q1 R1] | [m1 [e1 [Q1 [L1 R1]]]]];
    destruct D2 as [[Q2 R2] | [m2 [e2 [Q2 [L2 R2]]]]];
    rewrite Q1, Q2; cbn [Zval cond_Zopp]; lia.
Qed.

(** ** Multiplication by 100.0 *)

Lemma mul_value : forall mq eq,
  bounded prec emax mq eq = true ->
  Zpos mq * 2 ^ (eq + 1074) <= 2 ^ 1074 ->
  eq + -46 <= fexp64 (digits (Zpos mq * 7036874417766400) + (eq + -46))
  /\ ((SF64mul (S754_finite false mq eq) hundred = S754_zero false
       /\ RNx (Zpos mq * 7036874417766400) (eq + -46) = 0)
      \/ (exists m e,
            SF64mul (S754_finite false mq eq) hundred
              = S754_finite false m e
            /\ -1074 <= e
            /\ Zpos m * 2 ^ (e + 1074)
               = RNx (Zpos mq * 7036874417766400) (eq + -46))).
Proof.
  intros mq eq Vq Hle.
  pose proof (mul_le_hundred mq eq Vq Hle) as Hh.
  destruct (Zval_finite false mq eq Vq) as [_ [Pq [Eq Cq]]].
  unfold SF64mul, SFmul, hundred in *. cbn [xorb] in *.
  rewrite Pos2Z.inj_mul in *.
  set (M := 7036874417766400) in *.
  assert (HM : M = 100 * 2 ^ 46) by reflexivity.
  destruct (digits_bounds (Zpos mq) ltac:(lia)) as [D0 [D1 D2]].
  assert (Hfull : eq + -46 <= fexp64 (digits (Zpos mq * M) + (eq + -46))).
  { assert (Hd : digits (Zpos mq) + 52 <= digits (Zpos mq * M)).
    { rewrite <- (digits_shift (Zpos mq) 52) by lia.
      apply digits_mono. split; [apply Z.mul_nonneg_nonneg; lia|].
      apply Z.mul_le_mono_nonneg_l; [lia|]. rewrite HM.
      change (2 ^ 52) with (64 * 2 ^ 46). pose proof (pow2_pos 46). lia. }
    pose proof (fexp64_mono (digits (Zpos mq) + eq)
                  (digits (Zpos mq * M) + (eq + -46)) ltac:(lia)).
    lia. }
  split; [exact Hfull|].
  destruct (bra_value (Zpos mq * M) (eq + -46) ltac:(lia) Hfull)
    as [[E Z0] | [[m2 [e2 [E [L Vl]]]] | E]].
  - left. split; assumption.
  - right. exists m2, e2. repeat split; assumption.
  - exfalso. rewrite E in Hh.
    destruct Hh as [H | [m [e [H _]]]]; discriminate.
Qed.

(** Multiplication by 100.0 is monotone, for positive floats that are at
    most one. *)
Lemma mul_mono : forall mq1 eq1 mq2 eq2,
  bounded prec emax mq1 eq1 = true -> bounded prec emax mq2 eq2 = true ->
  Zpos mq1 * 2 ^ (eq1 + 1074) <= Zpos mq2 * 2 ^ (eq2 + 1074) ->
  Zpos mq2 * 2 ^ (eq2 + 1074) <= 2 ^ 1074 ->
  Zval (SF64mul (S754_finite false mq1 eq1) hundred)
  <= Zval (SF64mul (S754_finite false mq2 eq2) hundred).
Proof.
  intros mq1 eq1 mq2 eq2 V1 V2 H12 H2.
  destruct (Zval_finite false mq1 eq1 V1) as [_ [P1 [E1 _]]].
  destruct (Zval_finite false mq2 eq2 V2) as [_ [P2 [E2 _]]].
  destruct (mul_value mq1 eq1 V1 ltac:(lia)) as [F1 D1].
  destruct (mul_value mq2 eq2 V2 H2) as [F2 D2].
  set (M := 7036874417766400) in *.
  assert (HM : 0 < M) by reflexivity.
  set (u := Z.min eq1 eq2 + -46).
  assert (S1 : RNx (Zpos mq1 * M) (eq1 + -46)
               = RNx (Zpos mq1 * M * 2 ^ (eq1 + -46 - u)) u).
  { rewrite <- (RNx_scale (Zpos mq1 * M) (eq1 + -46) (eq1 + -46 - u));
      try (unfold u; lia).
    f_equal. lia. }
  assert (S2 : RNx (Zpos mq2 * M) (eq2 + -46)
               = RNx (Zpos mq2 * M * 2 ^ (eq2 + -46 - u)) u).
  { rewrite <- (RNx_scale (Zpos mq2 * M) (eq2 + -46) (eq2 + -46 - u));
      try (unfold u; lia).
    f_equal. lia. }
  assert (HR : RNx (Zpos mq1 * M) (eq1 + -46)
               <= RNx (Zpos mq2 * M) (eq2 + -46)).
  { rewrite S1, S2. apply RNx_mono.
    - apply Z.mul_pos_pos; [lia|]. apply pow2_pos. unfold u. lia.
    - rewrite <- !(Z.mul_assoc _ M), !(Z.mul_comm M), !Z.mul_assoc.
      apply Z.mul_le_mono_nonneg_r; [lia|].
      apply (pow2_le_shift _ _ _ _ (u + 46 + 1074)); try (unfold u; lia).
      replace (eq1 + -46 - u + (u + 46 + 1074)) with (eq1 + 1074) by lia.
      replace (eq2 + -46 - u + (u + 46 + 1074)) with (eq2 + 1074) by lia.
      exact H12.
    - rewrite digits_shift by (unfold u; lia).
      replace (digits (Zpos mq1 * M) + (eq1 + -46 - u) + u)
        with (digits (Zpos mq1 * M) + (eq1 + -46)) by lia.
      unfold u. lia. }
  destruct D1 as [[Q1 R1] | [m1 [e1 [Q1 [L1 R1]]]]];
    destruct D2 as [[Q2 R2] | [m2 [e2 [Q2 [L2 R2]]]]];
    rewrite Q1, Q2; cbn [Zval cond_Zopp]; lia.
Qed.

(** ** [round] *)

Lemma round_half_even_units : forall m e, 0 <= m -> -1074 <= e ->
  Py.round_half_even m e = rne (m * 2 ^ (e + 1074)) 1074.
Proof.
  intros m e Hm He. destruct (Z_lt_le_dec e 0) as [Hneg | Hpos].
  - rewrite round_half_even_rne by lia.
    replace 1074 with ((- e) + (e + 1074)) at 2 by lia.
    symmetry. apply rne_scale; lia.
  - unfold Py.round_half_even.
    assert (C : (0 <=? e) = true) by (apply Z.leb_le; lia). rewrite C.
    rewrite rne_exact by
      (try lia; rewrite (pow2_split e 1074), Z.mul_assoc by lia;
       apply Z.mod_mul; pose proof (pow2_pos 1074); lia).
    rewrite (pow2_split e 1074), Z.mul_assoc by lia.
    rewrite Z.div_mul by (pose proof (pow2_pos 1074); lia). reflexivity.
Qed.

(** [round] is monotone on the floats that are not negative. *)
Lemma round_half_even_mono : forall m1 e1 m2 e2,
  0 <= m1 -> -1074 <= e1 -> -1074 <= e2 ->
  m1 * 2 ^ (e1 + 1074) <= m2 * 2 ^ (e2 + 1074) ->
  Py.round_half_even m1 e1 <= Py.round_half_even m2 e2.
Proof.
  intros m1 e1 m2 e2 H1 E1 E2 H.
  assert (H2 : 0 <= m2).
  { pose proof (pow2_pos (e1 + 1074) ltac:(lia)).
    pose proof (pow2_pos (e2 + 1074) ltac:(lia)). nia. }
  rewrite !round_half_even_units by lia. apply rne_mono; lia.
Qed.

(** ** The scaled score keeps the order of the totals *)

Lemma over_infinity_zero : forall a A, rounded_units A a ->
  is_finite (SF64mul (SF64div a (S754_infinity false)) hundred) = true ->
  Zval (SF64mul (SF64div a (S754_infinity false)) hundred) = 0.
Proof.
  intros a A [[_ [s Ha]] | [_ [[m [e [Ha _]]] | [Ha _]]]]; subst a;
    intro F; try reflexivity; discriminate.
Qed.

Lemma within_100_nonneg : forall x, within_100 x -> is_finite x = true ->
  0 <= Zval x.
Proof.
  intros [s|s| |s m e] W F; try discriminate; cbn [Zval].
  destruct W as [Hs _]. subst s. cbn [cond_Zopp].
  pose proof (pow2_pos (e + 1074)).
  destruct (Z_le_gt_dec 0 (e + 1074)); [nia|].
  rewrite Z.pow_neg_r by lia. lia.
Qed.

(** For two totals between the extremes, the smaller one has the smaller
    scaled score, when both scores are finite. *)
Lemma sf_scaled_mono : forall Mx Mn S1 S2,
  valid_binary Mx = true -> valid_binary Mn = true ->
  valid_binary S1 = true -> valid_binary S2 = true ->
  is_nan Mx = false -> is_nan Mn = false ->
  is_nan S1 = false -> is_nan S2 = false ->
  Zval Mn <= Zval S1 -> Zval S1 <= Zval S2 -> Zval S2 <= Zval Mx ->
  Zval Mn < Zval Mx ->
  valid_binary (SF64sub S1 Mn) = true ->
  valid_binary (SF64sub S2 Mn) = true ->
  valid_binary (SF64sub Mx Mn) = true ->
  valid_binary (SF64div (SF64sub S1 Mn) (SF64sub Mx Mn)) = true ->
  valid_binary (SF64div (SF64sub S2 Mn) (SF64sub Mx Mn)) = true ->
  is_finite (sf_scaled Mx Mn S1) = true ->
  is_finite (sf_scaled Mx Mn S2) = true ->
  Zval (sf_scaled Mx Mn S1) <= Zval (sf_scaled Mx Mn S2).
Proof.
  intros Mx Mn S1 S2 Vx Vn Vs1 Vs2 Nx Nn Ns1 Ns2 H1 H12 H2 Hlt
         Va1 Va2 Vb Vq1 Vq2 F1 F2.
  pose proof (Zval_range Mx Vx) as Rx.
  pose proof (Zval_range Mn Vn) as Rn.
  pose proof (Zval_range S1 Vs1) as Rs1.
  pose proof (Zval_range S2 Vs2) as Rs2.
  pose proof (pow2_pos 2098 ltac:(lia)) as Pinf.
  destruct (sf_scaled_spec Mx Mn S1 Vx Vn Vs1 Nx Nn Ns1 ltac:(lia) Hlt
              Va1 Vb Vq1) as [W1 _].
  destruct (sf_scaled_spec Mx Mn S2 Vx Vn Vs2 Nx Nn Ns2 ltac:(lia) Hlt
              Va2 Vb Vq2) as [W2 _].
  pose proof (within_100_nonneg _ W2 F2) as P2.
  destruct (is_finite Mn) eqn:Fn.
  2:{ exfalso. destruct Mn as [sn|[|]| |sn mn en]; try discriminate.
      - rewrite sf_scaled_min_infinite in F1; try assumption;
          [discriminate|].
        intro E. subst Mx. cbn in Hlt. lia.
      - cbn [Zval cond_Zopp] in *. lia. }
  pose proof (Zval_infinite Mn Vn Nn Fn) as In.
  assert (Hinf : forall S, valid_binary S = true -> is_nan S = false ->
            Zval Mn <= Zval S ->
            is_finite (SF64mul (SF64div (SF64sub S Mn) (S754_infinity false))
                         hundred) = true ->
            Zval (SF64mul (SF64div (SF64sub S Mn) (S754_infinity false))
                    hundred) = 0).
  { intros S Vs Ns Hs F. destruct (is_finite S) eqn:Fs.
    - apply over_infinity_zero with (A := Zval S - Zval Mn); [|exact F].
      apply sub_spec_finite; try assumption.
    - exfalso. pose proof (Zval_range S Vs).
      destruct S as [ss|[|]| |ss ms es]; try discriminate.
      + cbn [Zval cond_Zopp] in *. lia.
      + replace (SF64sub (S754_infinity false) Mn)
          with (S754_infinity false) in F
          by (destruct Mn; try discriminate; reflexivity).
        discriminate. }
  destruct (is_finite Mx) eqn:Fx.
  2:{ destruct Mx as [sx|[|]| |sx mx ex]; try discriminate.
      - cbn [Zval cond_Zopp] in *. lia.
      - unfold sf_scaled in *.
        replace (SF64sub (S754_infinity false) Mn) with (S754_infinity false)
          in * by (destruct Mn; try discriminate; reflexivity).
        rewrite (Hinf S1 Vs1 Ns1 H1 F1), (Hinf S2 Vs2 Ns2 ltac:(lia) F2).
        lia. }
  pose proof (Zval_infinite Mx Vx Nx Fx) as Ix.
  assert (Fs1 : is_finite S1 = true).
  { destruct S1 as [ss|[|]| |ss ms es]; try discriminate; try reflexivity;
      cbn [Zval cond_Zopp] in *; lia. }
  assert (Fs2 : is_finite S2 = true).
  { destruct S2 as [ss|[|]| |ss ms es]; try discriminate; try reflexivity;
      cbn [Zval cond_Zopp] in *; lia. }
  pose proof (sub_spec_finite S1 Mn Vs1 Vn Fs1 Fn ltac:(lia)) as Ha1.
  pose proof (sub_spec_finite S2 Mn Vs2 Vn Fs2 Fn ltac:(lia)) as Ha2.
  pose proof (sub_spec_finite Mx Mn Vx Vn Fx Fn ltac:(lia)) as Hb.
  unfold sf_scaled in *.
  destruct Hb as [[HB _] | [HB [[mb [eb [Eb [Leb Hvb]]]] | [Eb Hov]]]];
    [lia | |].
  2:{ rewrite Eb in *.
      rewrite (Hinf S1 Vs1 Ns1 H1 F1), (Hinf S2 Vs2 Ns2 ltac:(lia) F2).
      lia. }
  rewrite Eb in *. simpl in Vb.
  set (A1 := Zval S1 - Zval Mn) in *. set (A2 := Zval S2 - Zval Mn) in *.
  set (B := Zval Mx - Zval Mn) in *.
  assert (HA : A1 <= A2 <= B) by (unfold A1, A2, B; lia).
  destruct Ha1 as [[HA1 [s1 Ea1]] | [HA1 [[ma1 [ea1 [Ea1 [L1 Hv1]]]]
                                        | [Ea1 Ho1]]]].
  - (* the smaller total is the minimum *)
    rewrite Ea1.
    change (SF64div (S754_zero s1) (S754_finite false mb eb))
      with (S754_zero (xorb s1 false)).
    change (SF64mul (S754_zero (xorb s1 false)) hundred)
      with (S754_zero (xorb (xorb s1 false) false)).
    exact P2.
  - destruct Ha2 as [[HA2 _] | [HA2 [[ma2 [ea2 [Ea2 [L2 Hv2]]]]
                                    | [Ea2 Ho2]]]]; [lia | |].
    2:{ exfalso. assert (RN A2 <= RN B) by (apply RN_mono; lia).
        destruct (Zval_finite false mb eb Vb) as [_ [Pb _]]. lia. }
    rewrite Ea1, Ea2 in *. simpl in Va1, Va2.
    assert (Hle12 : Zpos ma1 * 2 ^ (ea1 + 1074)
                    <= Zpos ma2 * 2 ^ (ea2 + 1074)).
    { rewrite Hv1, Hv2. apply RN_mono; lia. }
    assert (Hle2b : Zpos ma2 * 2 ^ (ea2 + 1074)
                    <= Zpos mb * 2 ^ (eb + 1074)).
    { rewrite Hv2, Hvb. apply RN_mono; lia. }
    pose proof (div_mono ma1 ea1 ma2 ea2 mb eb Va1 Va2 Vb Hle12 Hle2b)
      as Hq.
    destruct (div_le_one ma1 ea1 mb eb Va1 Vb ltac:(lia))
      as [Q1 | [mq1 [eq1 [Q1 [Lq1 Hq1]]]]]; rewrite Q1 in *.
    + change (SF64mul (S754_zero false) hundred) with (S754_zero false).
      exact P2.
    + destruct (div_le_one ma2 ea2 mb eb Va2 Vb Hle2b)
        as [Q2 | [mq2 [eq2 [Q2 [Lq2 Hq2]]]]]; rewrite Q2 in *.
      * exfalso. simpl in Vq1.
        destruct (Zval_finite false mq1 eq1 Vq1) as [_ [Pq1 _]].
        cbn [Zval cond_Zopp] in Hq. lia.
      * simpl in Vq1, Vq2. cbn [Zval cond_Zopp] in Hq.
        now apply mul_mono.
  - exfalso. assert (RN A1 <= RN B) by (apply RN_mono; lia).
    destruct (Zval_finite false mb eb Vb) as [_ [Pb _]]. lia.
Qed.

(** ** Primitive floats *)

Lemma leb_true_val : forall x y : float,
  (x <=? y)%float = true -> nan_free x /\ nan_free y /\ val x <= val y.
Proof.
  intros x y H. rewrite leb_spec in H. unfold SFleb in H.
  destruct (nan_free_dec x) as [Fx | Nx].
  2:{ rewrite Nx in H. discriminate. }
  destruct (nan_free_dec y) as [Fy | Ny].
  2:{ rewrite Ny in H. now destruct (Prim2SF x). }
  rewrite (compare_Zval _ _ (Prim2SF_valid x) (Prim2SF_valid y) Fx Fy) in H.
  split; [exact Fx|]. split; [exact Fy|]. unfold val.
  destruct (Zval (Prim2SF x) ?= Zval (Prim2SF y)) eqn:C;
    try discriminate.
  - apply Z.compare_eq_iff in C. lia.
  - change (Zval (Prim2SF x) < Zval (Prim2SF y)) in C. lia.
Qed.

(** For two totals between the extremes, the smaller one is rounded to the
    smaller score, when both are rounded. *)
Lemma round_scaled_mono : forall mx mn s1 s2 n1 n2,
  (nan_free mx -> nan_free mn -> nan_free s1 -> nan_free s2 ->
   val mn <= val s1 /\ val s1 <= val s2 /\ val s2 <= val mx
   /\ val mn < val mx) ->
  Py.round (Spec.scaled mx mn s1) = inr n1 ->
  Py.round (Spec.scaled mx mn s2) = inr n2 -> n1 <= n2.
Proof.
  intros mx mn s1 s2 n1 n2 Hord. unfold Py.round. rewrite !scaled_spec.
  destruct (nan_free_dec mx) as [Nx | Nx];
    [|rewrite !sf_scaled_nan by auto; discriminate].
  destruct (nan_free_dec mn) as [Nn | Nn];
    [|rewrite !sf_scaled_nan by auto; discriminate].
  destruct (nan_free_dec s1) as [Ns1 | Ns1];
    [|rewrite (sf_scaled_nan _ _ (Prim2SF s1)) by auto; discriminate].
  destruct (nan_free_dec s2) as [Ns2 | Ns2];
    [|rewrite (sf_scaled_nan _ _ (Prim2SF s2)) by auto; intros _ H;
      discriminate].
  destruct (Hord Nx Nn Ns1 Ns2) as [H1 [H12 [H2 Hlt]]].
  assert (Va : forall s, valid_binary (SF64sub (Prim2SF s) (Prim2SF mn))
                         = true).
  { intro s. rewrite <- sub_spec. apply Prim2SF_valid. }
  assert (Vq : forall s,
            valid_binary (SF64div (SF64sub (Prim2SF s) (Prim2SF mn))
                            (SF64sub (Prim2SF mx) (Prim2SF mn))) = true).
  { intro s. rewrite <- !sub_spec, <- div_spec. apply Prim2SF_valid. }
  destruct (sf_scaled_spec (Prim2SF mx) (Prim2SF mn) (Prim2SF s1)
              (Prim2SF_valid _) (Prim2SF_valid _) (Prim2SF_valid _)
              Nx Nn Ns1 ltac:(unfold val in *; lia) Hlt
              (Va s1) (Va mx) (Vq s1)) as [W1 _].
  destruct (sf_scaled_spec (Prim2SF mx) (Prim2SF mn) (Prim2SF s2)
              (Prim2SF_valid _) (Prim2SF_valid _) (Prim2SF_valid _)
              Nx Nn Ns2 ltac:(unfold val in *; lia) Hlt
              (Va s2) (Va mx) (Vq s2)) as [W2 _].
  pose proof (sf_scaled_mono (Prim2SF mx) (Prim2SF mn) (Prim2SF s1)
                (Prim2SF s2)
                (Prim2SF_valid _) (Prim2SF_valid _) (Prim2SF_valid _)
                (Prim2SF_valid _) Nx Nn Ns1 Ns2 H1 H12 H2 Hlt
                (Va s1) (Va s2) (Va mx) (Vq s1) (Vq s2)) as Hm.
  destruct (sf_scaled (Prim2SF mx) (Prim2SF mn) (Prim2SF s1))
    as [sg1|sg1| |sg1 m1 e1]; try discriminate;
  destruct (sf_scaled (Prim2SF mx) (Prim2SF mn) (Prim2SF s2))
    as [sg2|sg2| |sg2 m2 e2]; try discriminate;
  intros Q1 Q2; inversion Q1; inversion Q2; subst; clear Q1 Q2;
  specialize (Hm eq_refl eq_refl); cbn [Zval] in Hm.
  - lia.
  - destruct W2 as [Hs [He Hv]]. subst sg2. cbn [cond_Zopp].
    pose proof (round_within m2 e2 He Hv). lia.
  - exfalso. destruct W1 as [Hs [He Hv]]. subst sg1. cbn [cond_Zopp] in Hm.
    pose proof (pow2_pos (e1 + 1074) ltac:(lia)). nia.
  - destruct W1 as [Hs1 [He1 Hv1]]. destruct W2 as [Hs2 [He2 Hv2]].
    subst sg1 sg2. cbn [cond_Zopp] in *.
    apply round_half_even_mono; lia.
Qed.

End Binary64Order.

(** * Properties *)

Module Props.

Import Spec.

Set Warnings "-inexact-float".

Import Py Cli.

Local Open Scope string_scope.
Local Open Scope list_scope.
Local Open Scope Z_scope.

(** ** The dictionary *)

Section DictFacts.
Context {K V : Type}.
Variable eqb : K -> K -> bool.
Hypothesis eqb_eq : forall a b, eqb a b = true <-> a = b.

Lemma eqb_refl' : forall a, eqb a a = true.
Proof. intro a. now apply eqb_eq. Qed.

Lemma eqb_neq' : forall a b, a <> b -> eqb a b = false.
Proof.
  intros a b Hab. destruct (eqb a b) eqn:E; [|reflexivity].
  apply eqb_eq in E. contradiction.
Qed.

Lemma get_set_same : forall (k : K) (v : V) d,
  Dict.get eqb k (Dict.set eqb k v d) = Some v.
Proof.
  intros k v d. induction d as [|[k' v'] r IH]; simpl.
  - now rewrite eqb_refl'.
  - destruct (eqb k k') eqn:E; simpl; rewrite E; [reflexivity | exact IH].
Qed.

Lemma get_set_other : forall (k k0 : K) (v : V) d,
  k0 <> k -> Dict.get eqb k0 (Dict.set eqb k v d) = Dict.get eqb k0 d.
Proof.
  intros k k0 v d Hne. induction d as [|[k' v'] r IH]; simpl.
  - now rewrite (eqb_neq' _ _ Hne).
  - destruct (eqb k k') eqn:E; simpl.
    + apply eqb_eq in E. subst k'. now rewrite (eqb_neq' _ _ Hne).
    + now rewrite IH.
Qed.

Lemma get_none_keys : forall (k : K) (d : @Dict.t K V),
  Dict.get eqb k d = None <-> ~ In k (Dict.keys d).
Proof.
  intros k d. induction d as [|[k' v'] r IH]; simpl.
  - tauto.
  - destruct (eqb k k') eqn:E.
    + apply eqb_eq in E. subst. split; [discriminate | intros H; exfalso; apply H; now left].
    + rewrite IH. split.
      * intros H [H1 | H1]; [subst; rewrite eqb_refl' in E; discriminate | tauto].
      * tauto.
Qed.

(** Writing to a key that is there changes no key; a new key goes last. *)
Lemma keys_set : forall (k : K) (v : V) d,
  Dict.keys (Dict.set eqb k v d) =
  if existsb (eqb k) (Dict.keys d) then Dict.keys d else Dict.keys d ++ [k].
Proof.
  intros k v d. induction d as [|[k' v'] r IH]; simpl.
  - reflexivity.
  - destruct (eqb k k') eqn:E; simpl.
    + reflexivity.
    + rewrite IH. now destruct (existsb (eqb k) (Dict.keys r)).
Qed.

End DictFacts.

Lemma dict_of_quartile_labels :
  Dict.items (Dict.of_pairs String.eqb QUARTILE_LABELS) = QUARTILE_LABELS.
Proof. reflexivity. Qed.

Lemma dict_of_event_factors : factors = EVENT_FACTORS.
Proof. reflexivity. Qed.

(** ** [parse_row] *)

Lemma known_event_type_In : forall s,
  known_event_type s = true <-> In s EVENT_TYPES.
Proof.
  intro s. unfold known_event_type. rewrite existsb_exists. split.
  - intros [x [Hin Heq]]. apply String.eqb_eq in Heq. now subst.
  - intro Hin. exists s. split; [exact Hin | apply String.eqb_refl].
Qed.

Lemma short_row : forall row : list string,
  (List.length row <? 3)%nat = true <-> (List.length row < 3)%nat.
Proof. intro row. apply Nat.ltb_lt. Qed.

Lemma long_row_shape : forall row : list string,
  (3 <= List.length row)%nat ->
  row = field 0 row :: field 1 row :: field 2 row :: skipn 3 row.
Proof.
  intros [|a [|b [|c r]]] H; simpl in H; try lia. reflexivity.
Qed.

(** What [parse_row] does, check by check. *)
Lemma parse_row_cases : forall row,
  ((List.length row < 3)%nat /\ parse_row row = (map VStr row, inl MalformedRow))
  \/ ((3 <= List.length row)%nat /\ Py.int (field 0 row) = None /\
      parse_row row = (map VStr row, inl BadContactId))
  \/ (exists n, (3 <= List.length row)%nat /\ Py.int (field 0 row) = Some n /\
      ~ In (field 1 row) EVENT_TYPES /\
      parse_row row = (set_item (map VStr row) 0 (VInt n), inl UnknownEventType))
  \/ (exists n, (3 <= List.length row)%nat /\ Py.int (field 0 row) = Some n /\
      In (field 1 row) EVENT_TYPES /\ Py.float (field 2 row) = None /\
      parse_row row = (set_item (map VStr row) 0 (VInt n), inl BadScore))
  \/ (exists n x, (3 <= List.length row)%nat /\ Py.int (field 0 row) = Some n /\
      In (field 1 row) EVENT_TYPES /\ Py.float (field 2 row) = Some x /\
      let r := set_item (set_item (map VStr row) 0 (VInt n)) 2 (VFloat x) in
      parse_row row = (r, inr r)).
Proof.
  intro row. unfold parse_row.
  destruct (List.length row <? 3)%nat eqn:Hlen.
  - left. apply Nat.ltb_lt in Hlen. now split.
  - right. apply Nat.ltb_ge in Hlen.
    destruct (Py.int (field 0 row)) as [n|] eqn:Hint.
    + right.
      destruct (known_event_type (field 1 row)) eqn:Hty; simpl.
      * apply known_event_type_In in Hty. right.
        destruct (Py.float (field 2 row)) as [x|] eqn:Hfl.
        -- right. exists n, x. auto.
        -- left. exists n. auto.
      * left. exists n. repeat split; auto.
        intro Hin. apply known_event_type_In in Hin. congruence.
    + left. auto.
Qed.

Lemma typed_row : forall (row : list string) n x,
  (3 <= List.length row)%nat ->
  set_item (set_item (map VStr row) 0 (VInt n)) 2 (VFloat x) =
  VInt n :: VStr (field 1 row) :: VFloat x :: map VStr (skipn 3 row).
Proof.
  intros [|a [|b [|c r]]] n x H; simpl in H; try lia. reflexivity.
Qed.

(** The checks of [parse_row], in their order: MalformedRow when the row
    has fewer than three fields; otherwise BadContactId when field 0 is no
    integer; otherwise UnknownEventType when field 1 is none of web, email,
    social, webinar; otherwise BadScore when field 2 is no float. Only the
    first reason that applies is reported. When no check fails the list
    returned holds the integer of field 0, field 1, the float of field 2,
    and behind them every further field of the row. *)
Theorem parse_row_checks_in_order : forall row : list string,
  let outcome := snd (parse_row row) in
  (outcome = inl MalformedRow <-> (List.length row < 3)%nat)
  /\ (outcome = inl BadContactId <->
      (3 <= List.length row)%nat /\ Py.int (field 0 row) = None)
  /\ (outcome = inl UnknownEventType <->
      (3 <= List.length row)%nat /\ Py.int (field 0 row) <> None /\
      ~ In (field 1 row) ["web"; "email"; "social"; "webinar"])
  /\ (outcome = inl BadScore <->
      (3 <= List.length row)%nat /\ Py.int (field 0 row) <> None /\
      In (field 1 row) ["web"; "email"; "social"; "webinar"] /\
      Py.float (field 2 row) = None)
  /\ (forall record, outcome = inr record <->
      exists n x,
        (3 <= List.length row)%nat /\ Py.int (field 0 row) = Some n /\
        In (field 1 row) ["web"; "email"; "social"; "webinar"] /\
        Py.float (field 2 row) = Some x /\
        record = VInt n :: VStr (field 1 row) :: VFloat x
                   :: map VStr (skipn 3 row)).
Proof.
  intro row. cbv zeta. fold EVENT_TYPES.
  destruct (parse_row_cases row)
    as [[Hl E] | [[Hl [Hi E]] | [[n [Hl [Hi [Ht E]]]]
       | [[n [Hl [Hi [Ht [Hf E]]]]] | [n [x [Hl [Hi [Ht [Hf E]]]]]]]]]];
    cbv zeta in E; rewrite E; simpl snd.
  - repeat split; try tauto; try discriminate; try (intros; lia).
    intros [n [x [H _]]]. lia.
  - repeat split; try tauto; try discriminate; try (intros; lia);
      try (intros [_ [H _]]; congruence).
    intros [n [x [_ [H _]]]]. congruence.
  - repeat split; try tauto; try discriminate; try (intros; lia);
      try congruence; try (intros [_ [_ [H _]]]; tauto);
      try (intros [_ H]; congruence).
    intros [n0 [x [_ [_ [H _]]]]]. tauto.
  - repeat split; try tauto; try discriminate; try (intros; lia);
      try congruence; try (intros [_ [_ H]]; tauto);
      try (intros [_ H]; congruence).
    intros [n0 [x [_ [_ [_ [H _]]]]]]. congruence.
  - rewrite (typed_row row n x Hl).
    repeat split; try discriminate; try (intros; lia);
      try (intros [_ H]; congruence);
      try (intros [_ [_ [_ H]]]; congruence).
    + intros [_ [_ H]]. tauto.
    + intro H. exists n, x. inversion H. auto.
    + intros [n0 [x0 [_ [Hi0 [_ [Hf0 Hr]]]]]]. congruence.
Qed.

(** C1: [parse_row] does not always return the typed record of three that
    its docstring and the claim name. For a row of three valid fields it
    does; for a valid row with a fourth field it returns a list of four:
    what it returns is the row itself, which has as many items as the row
    has fields. *)
Theorem parse_row_returns_the_extra_fields :
  snd (parse_row ["1"; "web"; "1.0"])
  = inr [VInt 1; VStr "web"; VFloat 1%float]
  /\ snd (parse_row ["1"; "web"; "1.0"; "x"])
     = inr [VInt 1; VStr "web"; VFloat 1%float; VStr "x"]
  /\ (forall (row : list string) (record : list value),
        snd (parse_row row) = inr record ->
        List.length record = List.length row).
Proof.
  split; [reflexivity|]. split; [reflexivity|].
  intros row record H.
  destruct (parse_row_cases row)
    as [[Hl E] | [[Hl [Hi E]] | [[n [Hl [Hi [Ht E]]]]
       | [[n [Hl [Hi [Ht [Hf E]]]]] | [n [x [Hl [Hi [Ht [Hf E]]]]]]]]]];
    cbv zeta in E; rewrite E in H; cbn [snd] in H; try discriminate.
  inversion H. clear.
  destruct row as [|f0 [|f1 [|f2 more]]]; try reflexivity.
  cbn [map set_item List.length]. now rewrite length_map.
Qed.

Lemma set_item_length : forall (A : Type) (l : list A) i v,
  List.length (set_item l i v) = List.length l.
Proof.
  intros A l. induction l as [|a t IH]; intros [|j] v; simpl; auto.
Qed.

Lemma set_item_other : forall (A : Type) (l : list A) i j v,
  i <> j -> nth_error (set_item l i v) j = nth_error l j.
Proof.
  intros A l. induction l as [|a t IH]; intros [|i] [|j] v H; simpl; auto.
  contradiction.
Qed.

Lemma set_item_same : forall (A : Type) (l : list A) i v,
  (i < List.length l)%nat -> nth_error (set_item l i v) i = Some v.
Proof.
  intros A l. induction l as [|a t IH]; intros [|i] v H; simpl in *;
    try lia; auto.
  apply IH. lia.
Qed.

(** C9, as the code has it: [parse_row] reads nothing but its row, and it
    writes to that row. The length and every position other than 0 and 2
    are kept. Position 0 holds the integer of field 0 as soon as the
    contact id check has passed, also when a later check fails; position 2
    holds the float of field 2 when the call returns; the list returned is
    the row itself. After MalformedRow or BadContactId the row is as it
    was. *)
Theorem parse_row_writes_in_place : forall row : list string,
  let after := fst (parse_row row) in
  let outcome := snd (parse_row row) in
  List.length after = List.length row
  /\ (forall i, i <> 0%nat -> i <> 2%nat ->
        nth_error after i = nth_error (map VStr row) i)
  /\ nth_error after 0 =
       match outcome with
       | inl MalformedRow | inl BadContactId => nth_error (map VStr row) 0
       | inl UnknownEventType | inl BadScore | inr _ =>
           option_map VInt (Py.int (field 0 row))
       end
  /\ nth_error after 2 =
       match outcome with
       | inl _ => nth_error (map VStr row) 2
       | inr _ => option_map VFloat (Py.float (field 2 row))
       end
  /\ (forall record, outcome = inr record -> record = after)
  /\ (outcome = inl MalformedRow \/ outcome = inl BadContactId ->
      after = map VStr row).
Proof.
  intro row. cbv zeta.
  assert (Hlen : List.length (map VStr row) = List.length row)
    by apply length_map.
  destruct (parse_row_cases row)
    as [[Hl E] | [[Hl [Hi E]] | [[n [Hl [Hi [Ht E]]]]
       | [[n [Hl [Hi [Ht [Hf E]]]]] | [n [x [Hl [Hi [Ht [Hf E]]]]]]]]]];
    cbv zeta in E; rewrite E; simpl fst; simpl snd;
    rewrite ?set_item_length, ?Hi, ?Hf; simpl option_map.
  - repeat split; auto; discriminate.
  - repeat split; auto; discriminate.
  - repeat split; auto; try discriminate.
    + intros i H0 H2. apply set_item_other. congruence.
    + apply set_item_same. lia.
    + apply set_item_other. discriminate.
    + intros [H | H]; discriminate.
  - repeat split; auto; try discriminate.
    + intros i H0 H2. apply set_item_other. congruence.
    + apply set_item_same. lia.
    + apply set_item_other. discriminate.
    + intros [H | H]; discriminate.
  - repeat split; auto; try discriminate.
    + intros i H0 H2.
      rewrite set_item_other by congruence. apply set_item_other. congruence.
    + rewrite set_item_other by discriminate. apply set_item_same. lia.
    + apply set_item_same. rewrite set_item_length. lia.
    + intros record H. now inversion H.
    + intros [H | H]; discriminate.
Qed.

(** C9, as the claim states it, fails: after a call that returns, the row
    given to [parse_row] holds an integer and a float where it held
    strings. *)
Lemma parse_row_changes_its_row :
  fst (parse_row ["1"; "web"; "23.45"]) <> map VStr ["1"; "web"; "23.45"].
Proof. vm_compute. discriminate. Qed.

(** A call that fails after the contact id check leaves the integer behind. *)
Example parse_row_failure_changes_its_row :
  parse_row ["1"; "people"; "23.45"] =
  ([VInt 1; VStr "people"; VStr "23.45"], inl UnknownEventType).
Proof. reflexivity. Qed.

(** ** [get_quartile_label] *)

(** The label of each band, and the empty label outside them. *)
Lemma label_by_band : forall score : Z,
  (75 <= score <= 100 -> get_quartile_label score = "platinum")
  /\ (50 <= score <= 74 -> get_quartile_label score = "gold")
  /\ (25 <= score <= 49 -> get_quartile_label score = "silver")
  /\ (0 <= score <= 24 -> get_quartile_label score = "bronze")
  /\ (score < 0 \/ 100 < score -> get_quartile_label score = "").
Proof.
  intro score. unfold get_quartile_label.
  rewrite dict_of_quartile_labels. unfold QUARTILE_LABELS.
  cbn [first_band].
  repeat match goal with
         | |- context [Z.leb ?a ?b] => destruct (Z.leb_spec a b)
         end; cbn [andb]; repeat split; intros; try reflexivity; lia.
Qed.

(** C6: for every integer score the label is the one of the band whose
    inclusive range holds it, platinum for 75..100, gold for 50..74, silver
    for 25..49, bronze for 0..24, and outside 0..100 the lookup returns the
    empty label (the function is total: it raises nothing). *)
Theorem get_quartile_label_bands : forall score : Z,
  (75 <= score <= 100 -> get_quartile_label score = "platinum")
  /\ (50 <= score <= 74 -> get_quartile_label score = "gold")
  /\ (25 <= score <= 49 -> get_quartile_label score = "silver")
  /\ (0 <= score <= 24 -> get_quartile_label score = "bronze")
  /\ (score < 0 \/ 100 < score -> get_quartile_label score = "").
Proof.
  intro score. unfold get_quartile_label.
  rewrite dict_of_quartile_labels. unfold QUARTILE_LABELS.
  cbn [first_band].
  repeat match goal with
         | |- context [Z.leb ?a ?b] => destruct (Z.leb_spec a b)
         end; cbn [andb]; repeat split; intros; try reflexivity; lia.
Qed.

Example quartile_boundaries :
  map get_quartile_label [75; 74; 50; 49; 25; 24; 0; 100; 120; -1] =
  ["platinum"; "gold"; "gold"; "silver"; "silver"; "bronze"; "bronze";
   "platinum"; ""; ""].
Proof. reflexivity. Qed.

(** A label within 0..100 is never empty. *)
Lemma label_in_range : forall score : Z,
  0 <= score <= 100 -> get_quartile_label score <> "".
Proof.
  intros score H.
  destruct (label_by_band score) as [H1 [H2 [H3 [H4 _]]]].
  assert (C : 75 <= score <= 100 \/ 50 <= score <= 74 \/
              25 <= score <= 49 \/ 0 <= score <= 24) by lia.
  destruct C as [C | [C | [C | C]]];
    [rewrite (H1 C) | rewrite (H2 C) | rewrite (H3 C) | rewrite (H4 C)];
    discriminate.
Qed.

(** ** The aggregator *)

Lemma weight_of_known_type : forall t,
  In t EVENT_TYPES -> Dict.get String.eqb t factors = Some (weight t).
Proof.
  intros t [H | [H | [H | [H | []]]]]; subst; reflexivity.
Qed.

(** C2, the weight table: web 1.0, email 1.2, social 1.5, webinar 2.0, as
    [factors[event_type]] reads it. *)
Lemma event_factors_table :
  map (fun t => Dict.get String.eqb t factors) EVENT_TYPES =
  [Some 1.0%float; Some 1.2%float; Some 1.5%float; Some 2.0%float].
Proof. reflexivity. Qed.

(** One turn of the loop: a row that fails validation changes nothing, a
    valid row of three fields adds its weighted score to the total of its
    contact id, and a valid row with more fields ends the loop, since it
    cannot be unpacked into three names. *)
Lemma add_row_spec : forall contacts row,
  add_row contacts row =
  match validated row with
  | None => inr contacts
  | Some (c, t, s) =>
      if (3 <? List.length row)%nat then inl ValueError
      else
        inr (Dict.set Z.eqb c
               (match Dict.get Z.eqb c contacts with
                | Some old => old
                | None => 0%float
                end + s * weight t)%float contacts)
  end.
Proof.
  intros contacts row. unfold add_row, validated.
  destruct (parse_row_cases row)
    as [[Hl E] | [[Hl [Hi E]] | [[n [Hl [Hi [Ht E]]]]
       | [[n [Hl [Hi [Ht [Hf E]]]]] | [n [x [Hl [Hi [Ht [Hf E]]]]]]]]]];
    cbv zeta in E; rewrite E; simpl snd; try reflexivity.
  rewrite (typed_row row n x Hl).
  destruct row as [|f0 [|f1 [|f2 rest]]]; simpl in Hl; try lia.
  cbn [skipn field nth List.length map unpack].
  destruct rest as [|extra more]; cbn [map List.length Nat.ltb Nat.leb].
  - cbn [field nth] in Ht. now rewrite (weight_of_known_type _ Ht).
  - reflexivity.
Qed.

Lemma validated_passes : forall row,
  passes row = true <-> validated row <> None.
Proof.
  intro row. unfold passes, validated.
  destruct (parse_row_cases row)
    as [[Hl E] | [[Hl [Hi E]] | [[n [Hl [Hi [Ht E]]]]
       | [[n [Hl [Hi [Ht [Hf E]]]]] | [n [x [Hl [Hi [Ht [Hf E]]]]]]]]]];
    cbv zeta in E; rewrite E; simpl snd;
    try (split; [discriminate | congruence]).
  rewrite (typed_row row n x Hl). split; [discriminate | reflexivity].
Qed.

Lemma contributions_cons : forall cid row rows,
  contributions cid (row :: rows) =
  match validated row with
  | Some (c, t, s) => if Z.eqb c cid then [(s * weight t)%float] else []
  | None => []
  end ++ contributions cid rows.
Proof. reflexivity. Qed.

Lemma contact_ids_cons : forall row rows,
  contact_ids (row :: rows) =
  match validated row with
  | Some (c, _, _) => [c]
  | None => []
  end ++ contact_ids rows.
Proof. reflexivity. Qed.

(** The fold ends normally when no row has more than three fields. *)
Lemma aggregate_completes : forall rows contacts,
  Forall (fun row => (List.length row <= 3)%nat) rows ->
  exists contacts', aggregate rows contacts = inr contacts'.
Proof.
  intros rows. induction rows as [|row rest IH]; intros contacts H;
    cbn [aggregate].
  - now exists contacts.
  - inversion H as [|? ? Hrow Hrest]; subst.
    rewrite add_row_spec.
    destruct (validated row) as [[[c t] sc]|]; [|now apply IH].
    destruct (3 <? List.length row)%nat eqn:E; [|now apply IH].
    apply Nat.ltb_lt in E. lia.
Qed.

(** The only way the fold ends early: a row that passes validation and has
    more than three fields, at which unpacking raises [ValueError]. *)
Lemma aggregate_raises : forall rows contacts e,
  aggregate rows contacts = inl e ->
  e = ValueError /\
  Exists (fun row => passes row = true /\ (3 < List.length row)%nat) rows.
Proof.
  intros rows. induction rows as [|row rest IH]; intros contacts e;
    cbn [aggregate].
  - discriminate.
  - rewrite add_row_spec.
    destruct (validated row) as [[[c t] sc]|] eqn:Hv.
    + destruct (3 <? List.length row)%nat eqn:E.
      * intro H. inversion H. split; [reflexivity|].
        apply Exists_cons_hd. split.
        -- apply validated_passes. congruence.
        -- now apply Nat.ltb_lt.
      * intro H. destruct (IH _ _ H) as [H1 H2]. split; [exact H1|].
        now apply Exists_cons_tl.
    + intro H. destruct (IH _ _ H) as [H1 H2]. split; [exact H1|].
      now apply Exists_cons_tl.
Qed.

(** The totals after the fold, from the totals before it. *)
Lemma aggregate_totals : forall rows contacts contacts',
  aggregate rows contacts = inr contacts' ->
  forall cid,
    Dict.get Z.eqb cid contacts' =
    match contributions cid rows with
    | [] => Dict.get Z.eqb cid contacts
    | xs =>
        Some (fold_left PrimFloat.add xs (or_zero (Dict.get Z.eqb cid contacts)))
    end.
Proof.
  intros rows. induction rows as [|row rest IH]; intros contacts contacts';
    cbn [aggregate].
  - intros H cid. now inversion H.
  - rewrite add_row_spec. intros H cid. rewrite contributions_cons.
    destruct (validated row) as [[[c t] sc]|] eqn:Hv.
    + destruct (3 <? List.length row)%nat; [discriminate|].
      rewrite (IH _ _ H cid). fold (or_zero (Dict.get Z.eqb c contacts)).
      destruct (Z.eqb c cid) eqn:Hc.
      * apply Z.eqb_eq in Hc. subst c.
        rewrite (get_set_same Z.eqb Z.eqb_eq). simpl.
        now destruct (contributions cid rest).
      * apply Z.eqb_neq in Hc.
        rewrite (get_set_other Z.eqb Z.eqb_eq) by congruence. reflexivity.
    + simpl. now apply IH.
Qed.

(** The keys after the fold: the new contact ids follow the old keys, each
    at the place of its first valid row. *)
Lemma aggregate_keys : forall rows contacts contacts',
  aggregate rows contacts = inr contacts' ->
  Dict.keys contacts' =
  Dict.keys contacts ++ first_seen (Dict.keys contacts) (contact_ids rows).
Proof.
  intros rows. induction rows as [|row rest IH]; intros contacts contacts';
    cbn [aggregate].
  - intro H. inversion H. now rewrite app_nil_r.
  - rewrite add_row_spec. intro H. rewrite contact_ids_cons.
    destruct (validated row) as [[[c t] sc]|] eqn:Hv.
    + destruct (3 <? List.length row)%nat; [discriminate|].
      rewrite (IH _ _ H). rewrite (keys_set Z.eqb). simpl.
      destruct (existsb (Z.eqb c) (Dict.keys contacts)); [reflexivity|].
      now rewrite <- app_assoc.
    + simpl. now apply IH.
Qed.

(** [0.0 + c] is [c], but for [c = -0.0], where it is [+0.0]. *)
Lemma zero_plus : forall c : PrimFloat.float,
  (0 + c)%float = c \/ (c = neg_zero /\ (0 + c)%float = 0%float).
Proof.
  intro c.
  assert (H := add_spec 0%float c).
  change (Prim2SF 0%float) with (S754_zero false) in H.
  unfold SF64add, SFadd in H.
  destruct (Prim2SF c) as [[|]| | |] eqn:E.
  - right. split; apply Prim2SF_inj; [exact E | exact H].
  - left. apply Prim2SF_inj. congruence.
  - left. apply Prim2SF_inj. congruence.
  - left. apply Prim2SF_inj. congruence.
  - left. apply Prim2SF_inj. congruence.
Qed.

(** C2: for every input stream, the aggregate that the fold ends with maps
    each contact id to the sum, over the rows that pass validation and
    carry that id, of score * weight(event type), the contributions added
    one after the other in the order of the stream, to [0.0] first; a
    contact id with no valid row is not in the aggregate. The first
    contribution [c] gives the total [0.0 + c], the number [c] (the float
    [c] itself, but [+0.0] for [c = -0.0]). The weights are web 1.0, email
    1.2, social 1.5, webinar 2.0. The fold ends with an aggregate whenever
    no row has more than three fields; it ends otherwise only at a valid
    row with more fields, with [ValueError]. *)
Theorem aggregate_weighted_sums : forall rows : list (list string),
  (forall contacts, aggregate rows [] = inr contacts ->
     forall contact_id,
       Dict.get Z.eqb contact_id contacts =
       total (contributions contact_id rows))
  /\ (forall c, total [c] = Some c \/
                (c = neg_zero /\ total [c] = Some 0%float))
  /\ (weight "web" = 1.0%float /\ weight "email" = 1.2%float /\
      weight "social" = 1.5%float /\ weight "webinar" = 2.0%float)
  /\ (Forall (fun row => (List.length row <= 3)%nat) rows ->
      exists contacts, aggregate rows [] = inr contacts)
  /\ (forall e, aggregate rows [] = inl e ->
      e = ValueError /\
      Exists (fun row => passes row = true /\ (3 < List.length row)%nat) rows).
Proof.
  intro rows. split; [|split; [|split; [|split]]].
  - intros contacts H cid. rewrite (aggregate_totals _ _ _ H cid).
    unfold total. now destruct (contributions cid rows).
  - intro c. unfold total. cbn [fold_left].
    destruct (zero_plus c) as [H | [H1 H2]]; [left | right].
    + now rewrite H.
    + split; [exact H1 | now rewrite H2].
  - repeat split; reflexivity.
  - apply aggregate_completes.
  - apply aggregate_raises.
Qed.

Example aggregate_of_a_stream :
  aggregate [["1"; "web"; "34.33"]; [""; "webinar"; "55.4"];
             ["3"; "webinar"; "15.4"]; ["2"; "webinar"; "55.4"]] [] =
  inr [(1, 34.33%float); (3, 30.8%float); (2, 110.8%float)].
Proof. reflexivity. Qed.

Example aggregate_adds_up :
  aggregate [["1"; "web"; "34.33"]; ["1"; "email"; "3.4"];
             ["1"; "social"; "4"]] [] =
  inr [(1, (0 + 34.33 * 1.0 + 3.4 * 1.2 + 4 * 1.5)%float)].
Proof. reflexivity. Qed.

(** C5: a valid row with a fourth field is not processed as its first three
    fields are. The three-field row gives contact 1 its entry; with one
    more field the generator ends with the [ValueError] of the unpacking of
    line 146, which [except ValidationError] does not catch, and yields
    nothing, not even for the rows before. *)
Theorem extra_field_ends_the_run :
  process_file [["1"; "web"; "1.0"]] = ([(1, "bronze", 0)], None)
  /\ process_file [["1"; "web"; "1.0"; "x"]] = ([], Some ValueError)
  /\ process_file [["2"; "web"; "5"]; ["1"; "web"; "1.0"; "x"];
                   ["3"; "web"; "7"]] = ([], Some ValueError).
Proof. repeat split; reflexivity. Qed.

(** ** The normalizer *)

Lemma eqb_not_ltb : forall x y : PrimFloat.float,
  (x =? y)%float = true -> (x <? y)%float = false.
Proof.
  intros x y. rewrite eqb_spec, ltb_spec. unfold SFeqb, SFltb.
  now destruct (SFcompare (Prim2SF x) (Prim2SF y)) as [[| |]|].
Qed.

Lemma extremes_of_equal_scores : forall (scores : list PrimFloat.float) v,
  (forall s, In s scores ->
     (v <? s)%float = false /\ (s <? v)%float = false) ->
  fold_left extremes_step scores (Some v, Some v) = (Some v, Some v).
Proof.
  intros scores v. induction scores as [|s rest IH]; intro H; simpl.
  - reflexivity.
  - destruct (H s (or_introl eq_refl)) as [H1 H2]. rewrite H1, H2.
    apply IH. intros s' Hs'. apply H. now right.
Qed.

Lemma report_entries : forall mx mn items,
  fst (report mx mn items) =
  map (entry_of mx mn) (take_while (rounds mx mn) items).
Proof.
  intros mx mn items. induction items as [|[c sc] rest IH]; [reflexivity|].
  cbn [report take_while]. unfold rounds at 1. cbn [snd].
  destruct (normalized_score mx mn sc) as [e|n] eqn:E; [reflexivity|].
  cbn [map]. unfold entry_of at 1. cbn [snd fst]. rewrite E.
  destruct (report mx mn rest) as [es r]. cbn [fst] in *. now rewrite IH.
Qed.

Lemma report_ending : forall mx mn items,
  snd (report mx mn items) = None <-> forallb (rounds mx mn) items = true.
Proof.
  intros mx mn items. induction items as [|[c sc] rest IH].
  - simpl. tauto.
  - cbn [report forallb]. unfold rounds at 1. cbn [snd].
    destruct (normalized_score mx mn sc) as [e|n]; cbn [andb].
    + split; discriminate.
    + destruct (report mx mn rest) as [es r]. cbn [snd] in *. exact IH.
Qed.

Lemma take_while_all : forall (A : Type) (p : A -> bool) l,
  forallb p l = true -> take_while p l = l.
Proof.
  intros A p l. induction l as [|a t IH]; simpl; [reflexivity|].
  destruct (p a); simpl; [|discriminate]. intro H. now rewrite IH.
Qed.

(** When the totals of all contacts compare equal ([==] on floats, so none
    of them is a NaN, the one of a single contact included), every contact
    is given the normalized score 0 (and the label bronze), and the
    generator ends normally. *)
Theorem equal_totals_normalize_to_zero :
  forall contacts : @Dict.t Z PrimFloat.float,
  (forall s t, In s (Dict.values contacts) -> In t (Dict.values contacts) ->
     (s =? t)%float = true) ->
  normalize contacts =
  (map (fun item => (fst item, "bronze", 0)) contacts, None).
Proof.
  intros contacts H. unfold normalize.
  destruct contacts as [|[c v] rest]; [reflexivity|].
  assert (Hv : forall s, In s (Dict.values ((c, v) :: rest)) ->
                 (v =? s)%float = true /\ (s =? v)%float = true).
  { intros s Hs. split; apply H; auto; now left. }
  assert (E : extremes (Dict.values ((c, v) :: rest)) = (Some v, Some v)).
  { unfold extremes. simpl. apply extremes_of_equal_scores.
    intros s Hs. destruct (Hv s (or_intror Hs)).
    split; now apply eqb_not_ltb. }
  rewrite E. unfold Dict.items.
  assert (Hvv : (v =? v)%float = true) by (apply Hv; now left).
  clear H Hv E. generalize ((c, v) :: rest). intro items.
  induction items as [|[c' s'] more IH]; simpl.
  - reflexivity.
  - rewrite Hvv. now rewrite IH.
Qed.

(** An instance: two contacts with the same total, as in
    [test_process_file_with_eqauls_scores]. *)
Lemma equal_totals_witness :
  normalize [(1, 34.33%float); (2, 34.33%float)] =
  ([(1, "bronze", 0); (2, "bronze", 0)], None).
Proof.
  apply (equal_totals_normalize_to_zero [(1, 34.33%float); (2, 34.33%float)]).
  intros s t [Hs | [Hs | []]] [Ht | [Ht | []]]; subst; reflexivity.
Defined.

(** C3: a single contact is not always given the score 0. The row
    [1,web,nan] is valid ([float] reads nan) and gives contact 1 the total
    NaN. Both extremes are then this NaN, but [max_score == min_score] is
    false, since a NaN is not equal to itself: the branch that the comment
    of line 164 means for "only 1 contact" is not taken, [round] is given a
    NaN and raises [ValueError], and no score is given at all. One contact
    with a total that is a number is given 0, as
    [test_process_file_with_one_row] expects. *)
Theorem single_nan_total_is_not_normalized :
  aggregate [["1"; "web"; "nan"]] [] = inr [(1, nan)]
  /\ extremes (Dict.values [(1, nan)]) = (Some nan, Some nan)
  /\ (nan =? nan)%float = false
  /\ normalize [(1, nan)] = ([], Some ValueError)
  /\ process_file [["1"; "web"; "nan"]] = ([], Some ValueError)
  /\ process_file [["1"; "web"; "34.33"]] = ([(1, "bronze", 0)], None).
Proof. repeat split; reflexivity. Qed.

(** *** Rounding *)

Lemma round_half_even_nearest : forall m e,
  nearest_ties_even m e (round_half_even m e).
Proof.
  intros m e. unfold nearest_ties_even, round_half_even.
  destruct (0 <=? e) eqn:He; [reflexivity|].
  apply Z.leb_gt in He.
  assert (Hd : 0 < 2 ^ (- e)) by (apply Z.pow_pos_nonneg; lia).
  set (d := 2 ^ (- e)) in *.
  pose proof (Z.div_mod m d ltac:(lia)) as Hdm.
  pose proof (Z.mod_pos_bound m d Hd) as Hr.
  set (q := m / d) in *. set (r := m mod d) in *.
  assert (Hq1 : (q + 1) * d - m = d - r) by nia.
  assert (Hq0 : q * d - m = - r) by nia.
  destruct (2 * r ?= d) eqn:C.
  - apply Z.compare_eq in C.
    destruct (Z.even q) eqn:Ev.
    + rewrite Hq0. split; [lia | auto].
    + rewrite Hq1. split; [lia|]. intros _.
      rewrite Z.even_add, Ev. reflexivity.
  - rewrite Z.compare_lt_iff in C. rewrite Hq0. split; lia.
  - rewrite Z.compare_gt_iff in C. rewrite Hq1. split; lia.
Qed.

Lemma nearest_ties_even_opp : forall sm e n,
  nearest_ties_even sm e n -> nearest_ties_even (- sm) e (- n).
Proof.
  intros sm e n. unfold nearest_ties_even.
  destruct (0 <=? e); [intro; subst; ring|].
  replace (- n * 2 ^ (- e) - - sm) with (- (n * 2 ^ (- e) - sm)) by ring.
  rewrite Z.abs_opp, Z.even_opp. auto.
Qed.

(** The nearest integer, with ties to even, is one integer. *)
Lemma nearest_ties_even_unique : forall sm e n1 n2,
  nearest_ties_even sm e n1 -> nearest_ties_even sm e n2 -> n1 = n2.
Proof.
  intros sm e n1 n2. unfold nearest_ties_even.
  destruct (0 <=? e) eqn:He; [congruence|].
  apply Z.leb_gt in He.
  assert (Hd : 0 < 2 ^ (- e)) by (apply Z.pow_pos_nonneg; lia).
  set (d := 2 ^ (- e)) in *.
  intros [H1 E1] [H2 E2].
  destruct (Z.eq_dec n1 n2) as [|Hne]; [assumption|exfalso].
  assert (Hcases : n1 + 1 <= n2 \/ n2 + 1 <= n1) by lia.
  assert (T : 2 * Z.abs (n1 * d - sm) = d /\ 2 * Z.abs (n2 * d - sm) = d
              /\ (n2 = n1 + 1 \/ n1 = n2 + 1)).
  { destruct Hcases as [Hc | Hc].
    - assert (n2 = n1 + 1) by nia. subst n2.
      repeat split; [nia | nia | auto].
    - assert (n1 = n2 + 1) by nia. subst n1.
      repeat split; [nia | nia | auto]. }
  destruct T as [T1 [T2 T3]].
  specialize (E1 T1). specialize (E2 T2).
  destruct T3 as [T3 | T3].
  - rewrite T3, Z.even_add, E1 in E2. discriminate.
  - rewrite T3, Z.even_add, E2 in E1. discriminate.
Qed.

(** [round] gives the nearest integer, ties to even, of every finite float,
    and raises for the others. *)
Lemma round_spec : forall x : PrimFloat.float,
  match Prim2SF x with
  | S754_nan => Py.round x = inl ValueError
  | S754_infinity _ => Py.round x = inl OverflowError
  | S754_zero _ | S754_finite _ _ _ =>
      exists n, Py.round x = inr n /\ rounds_to (Prim2SF x) n
  end.
Proof.
  intro x. unfold Py.round, rounds_to.
  destruct (Prim2SF x) as [s | s | | s m e]; try reflexivity.
  - now exists 0.
  - eexists. split; [reflexivity|].
    destruct s; unfold cond_Zopp.
    + apply (nearest_ties_even_opp (Zpos m)). apply round_half_even_nearest.
    + apply round_half_even_nearest.
Qed.

Lemma take_while_In : forall (A : Type) (p : A -> bool) l a,
  In a (take_while p l) -> In a l /\ p a = true.
Proof.
  intros A p l a. induction l as [|b t IH]; simpl; [tauto|].
  destruct (p b) eqn:E; simpl; [|tauto].
  intros [H | H]; [subst; auto | destruct (IH H); auto].
Qed.

Lemma normalized_score_unequal : forall mx mn s,
  (mx =? mn)%float = false ->
  normalized_score (Some mx) (Some mn) s = Py.round (scaled mx mn s).
Proof. intros mx mn s H. unfold normalized_score. now rewrite H. Qed.

(** C4, as the code has it: when [max_score] and [min_score] differ, the
    normalized score of a contact is the integer nearest to the float
    [(score - min_score) / (max_score - min_score) * 100], and the even one
    of the two when that float lies halfway between two integers. This
    holds for every entry that is yielded; for a contact where that float
    is a NaN or an infinity [round] raises and the generator ends. *)
Theorem normalized_score_is_nearest_ties_even :
  forall (contacts : @Dict.t Z PrimFloat.float) mx mn,
  extremes (Dict.values contacts) = (Some mx, Some mn) ->
  (mx =? mn)%float = false ->
  (forall e, In e (fst (normalize contacts)) ->
     exists s, In (entry_id e, s) contacts /\
               rounds_to (Prim2SF (scaled mx mn s)) (entry_score e))
  /\ (forall cid s, In (cid, s) contacts ->
        match Prim2SF (scaled mx mn s) with
        | S754_nan =>
            normalized_score (Some mx) (Some mn) s = inl ValueError
        | S754_infinity _ =>
            normalized_score (Some mx) (Some mn) s = inl OverflowError
        | S754_zero _ | S754_finite _ _ _ =>
            exists n, normalized_score (Some mx) (Some mn) s = inr n /\
                      rounds_to (Prim2SF (scaled mx mn s)) n
        end)
  /\ (snd (normalize contacts) = None ->
      map entry_id (fst (normalize contacts)) = Dict.keys contacts).
Proof.
  intros contacts mx mn E Hne. unfold normalize. rewrite E.
  unfold Dict.items. split; [|split].
  - intros e He. rewrite report_entries in He.
    apply in_map_iff in He. destruct He as [[c s] [He Hin]].
    apply take_while_In in Hin. destruct Hin as [Hin Hr].
    exists s. unfold rounds in Hr. unfold entry_of in He.
    cbn [fst snd] in *.
    rewrite (normalized_score_unequal _ _ _ Hne) in *.
    pose proof (round_spec (scaled mx mn s)) as R.
    destruct (Py.round (scaled mx mn s)) as [err|n]; [discriminate|].
    subst e. unfold entry_id, entry_score. cbn [fst snd]. split; [exact Hin|].
    destruct (Prim2SF (scaled mx mn s)); try discriminate;
      destruct R as [n' [R1 R2]]; congruence.
  - intros cid s _. rewrite (normalized_score_unequal _ _ _ Hne).
    apply round_spec.
  - intro Hend. apply report_ending in Hend.
    rewrite report_entries, (take_while_all _ _ _ Hend), map_map.
    unfold Dict.keys. apply map_ext. intros [c s].
    unfold entry_of, entry_id. cbn [fst snd].
    now destruct (normalized_score (Some mx) (Some mn) s).
Qed.

(** An instance of C4, with a total that lies halfway. *)
Lemma nearest_ties_even_witness :
  let contacts := [(1, 0%float); (2, 1%float); (3, 8%float)] in
  (forall e, In e (fst (normalize contacts)) ->
     exists s, In (entry_id e, s) contacts /\
               rounds_to (Prim2SF (scaled 8 0 s)) (entry_score e))
  /\ (forall cid s, In (cid, s) contacts ->
        match Prim2SF (scaled 8 0 s) with
        | S754_nan =>
            normalized_score (Some 8%float) (Some 0%float) s = inl ValueError
        | S754_infinity _ =>
            normalized_score (Some 8%float) (Some 0%float) s
            = inl OverflowError
        | S754_zero _ | S754_finite _ _ _ =>
            exists n,
              normalized_score (Some 8%float) (Some 0%float) s = inr n /\
              rounds_to (Prim2SF (scaled 8 0 s)) n
        end)
  /\ (snd (normalize contacts) = None ->
      map entry_id (fst (normalize contacts)) = Dict.keys contacts).
Proof.
  apply (normalized_score_is_nearest_ties_even
           [(1, 0%float); (2, 1%float); (3, 8%float)] 8%float 0%float);
    reflexivity.
Defined.

(** C4, as the claim states it, fails: the totals 0, 1 and 8 put contact 2
    at 12.5 exactly, which is rounded to 12, the even neighbour; rounding
    halves away from zero would give 13. *)
Lemma a_half_is_rounded_to_even :
  let contacts := [(1, 0%float); (2, 1%float); (3, 8%float)] in
  normalize contacts =
    ([(1, "bronze", 0); (2, "bronze", 12); (3, "platinum", 100)], None)
  /\ extremes (Dict.values contacts) = (Some 8%float, Some 0%float)
  /\ scaled 8 0 1 = 12.5%float
  /\ rounded_half_away (Prim2SF (scaled 8 0 1)) = Some 13.
Proof. repeat split; reflexivity. Qed.

(** ** The report *)

Lemma existsb_Zeqb : forall i l, existsb (Z.eqb i) l = true <-> In i l.
Proof.
  intros i l. rewrite existsb_exists. split.
  - intros [x [H E]]. apply Z.eqb_eq in E. now subst.
  - intro H. exists i. split; [exact H | apply Z.eqb_refl].
Qed.

Lemma first_seen_In : forall ids seen x,
  In x (first_seen seen ids) <-> In x ids /\ ~ In x seen.
Proof.
  intros ids. induction ids as [|i rest IH]; intros seen x; simpl.
  - tauto.
  - destruct (existsb (Z.eqb i) seen) eqn:E.
    + apply existsb_Zeqb in E. rewrite IH. split.
      * tauto.
      * intros [[H | H] Hn]; [subst; contradiction | tauto].
    + assert (Hi : ~ In i seen).
      { intro H. apply existsb_Zeqb in H. congruence. }
      simpl. rewrite IH, in_app_iff. simpl. split.
      * intros [H | [H Hn]]; [subst; tauto | tauto].
      * intros [[H | H] Hn]; [tauto|].
        destruct (Z.eq_dec i x); [tauto | right; tauto].
Qed.

Lemma first_seen_NoDup : forall ids seen, NoDup (first_seen seen ids).
Proof.
  intros ids. induction ids as [|i rest IH]; intro seen; simpl.
  - constructor.
  - destruct (existsb (Z.eqb i) seen); [apply IH|].
    constructor; [|apply IH].
    rewrite first_seen_In, in_app_iff. simpl. tauto.
Qed.

(** Rows that fail validation are skipped: the fold goes as if they were
    not in the stream. *)
Lemma aggregate_skips_invalid_rows : forall rows contacts,
  aggregate rows contacts = aggregate (filter passes rows) contacts.
Proof.
  intros rows. induction rows as [|row rest IH]; intro contacts.
  - reflexivity.
  - cbn [aggregate filter]. destruct (passes row) eqn:P.
    + cbn [aggregate]. destruct (add_row contacts row); [reflexivity|apply IH].
    + rewrite add_row_spec.
      destruct (validated row) eqn:V; [|apply IH].
      assert (passes row = true) by (apply validated_passes; congruence).
      congruence.
Qed.

Lemma aggregate_no_valid_row : forall rows contacts,
  contact_ids rows = [] -> aggregate rows contacts = inr contacts.
Proof.
  intros rows. induction rows as [|row rest IH]; intros contacts H.
  - reflexivity.
  - rewrite contact_ids_cons in H. cbn [aggregate]. rewrite add_row_spec.
    destruct (validated row) as [[[c t] sc]|]; [discriminate|].
    now apply IH.
Qed.

(** The report of a stream whose rows have at most three fields, with a
    dictionary that keeps insertion order (Python 3.7 and later; the
    dictionaries of 3.5 give the keys in the order of their hash table):
    the aggregate holds the contact ids of the valid rows,
    each once, in the order in which they are seen first, and the
    generator yields one entry per contact id in that order, up to the
    first contact whose score cannot be rounded (because the scaled float
    is a NaN or an infinity), where it ends with the exception of [round];
    when there is no such contact it yields exactly one entry for every
    contact id and ends normally. Rows that fail validation are skipped as
    if they were not there, and a stream with no valid row gives the empty
    report and no error. *)
Theorem report_in_first_seen_order : forall rows : list (list string),
  Forall (fun row => (List.length row <= 3)%nat) rows ->
  exists contacts,
    aggregate rows [] = inr contacts
    /\ Dict.keys contacts = first_seen [] (contact_ids rows)
    /\ NoDup (Dict.keys contacts)
    /\ (forall c, In c (Dict.keys contacts) <-> In c (contact_ids rows))
    /\ (let (mx, mn) := extremes (Dict.values contacts) in
        map entry_id (fst (process_file rows)) =
          map fst (take_while (rounds mx mn) contacts)
        /\ (snd (process_file rows) = None <->
            forallb (rounds mx mn) contacts = true))
    /\ (snd (process_file rows) = None ->
        map entry_id (fst (process_file rows)) =
          first_seen [] (contact_ids rows))
    /\ process_file rows = process_file (filter passes rows)
    /\ (contact_ids rows = [] -> process_file rows = ([], None)).
Proof.
  intros rows Hrows.
  destruct (aggregate_completes rows [] Hrows) as [contacts Hagg].
  exists contacts.
  pose proof (aggregate_keys _ _ _ Hagg) as Hkeys. simpl in Hkeys.
  assert (Hids : forall mx mn l,
            map entry_id (map (entry_of mx mn) l) = map fst l).
  { intros mx mn l. rewrite map_map. apply map_ext. intros [c s].
    unfold entry_of, entry_id. cbn [fst snd].
    now destruct (normalized_score mx mn s). }
  split; [exact Hagg|]. split; [exact Hkeys|]. split.
  { rewrite Hkeys. apply first_seen_NoDup. }
  split.
  { intro c. rewrite Hkeys, first_seen_In. simpl. tauto. }
  unfold process_file. rewrite Hagg. unfold normalize.
  destruct (extremes (Dict.values contacts)) as [mx mn] eqn:E.
  unfold Dict.items. split; [split|split; [|split]].
  - now rewrite report_entries, Hids.
  - apply report_ending.
  - intro Hend. apply report_ending in Hend.
    rewrite report_entries, (take_while_all _ _ _ Hend), Hids.
    exact Hkeys.
  - rewrite <- aggregate_skips_invalid_rows, Hagg, E. reflexivity.
  - intro Hnone. rewrite (aggregate_no_valid_row _ _ Hnone) in Hagg.
    inversion Hagg. subst contacts. reflexivity.
Qed.

(** An instance: the stream of [test_process_file]. Contact 3 is seen
    before contact 2 and, with insertion order, comes before it in the
    report; the test expects 1, 2, 3, the order in which a dictionary of
    Python 3.5 gives these keys. *)
Lemma first_seen_order_witness :
  exists contacts,
    aggregate [["1"; "web"; "34.33"]; [""; "webinar"; "55.4"];
               ["3"; "webinar"; "15.4"]; ["2"; "webinar"; "55.4"]] []
    = inr contacts
    /\ process_file [["1"; "web"; "34.33"]; [""; "webinar"; "55.4"];
                     ["3"; "webinar"; "15.4"]; ["2"; "webinar"; "55.4"]]
       = ([(1, "bronze", 4); (3, "bronze", 0); (2, "platinum", 100)], None).
Proof.
  destruct (report_in_first_seen_order
              [["1"; "web"; "34.33"]; [""; "webinar"; "55.4"];
               ["3"; "webinar"; "15.4"]; ["2"; "webinar"; "55.4"]])
    as [contacts [H _]].
  - repeat constructor.
  - exists contacts. split; [exact H | reflexivity].
Defined.

(** C7: a contact with a valid row is not always given an entry. The row
    [1,web,nan] passes validation ([float] reads nan), and its contact is
    given no entry: the run ends with the [ValueError] that [round] raises
    on a NaN, which nothing catches. With contacts on either side of such a
    total, the contacts before it are given their entries and the ones
    after it none: contact 3 below has a valid row and a total that is a
    number. *)
Theorem valid_row_without_entry :
  validated ["1"; "web"; "nan"] = Some (1, "web", nan)
  /\ process_file [["1"; "web"; "nan"]] = ([], Some ValueError)
  /\ validated ["3"; "web"; "7"] = Some (3, "web", 7%float)
  /\ process_file [["1"; "web"; "5"]; ["2"; "web"; "nan"]; ["3"; "web"; "7"]]
     = ([(1, "bronze", 0)], Some ValueError).
Proof. repeat split; reflexivity. Qed.

(** ** The range of the normalized scores *)

Section Range.

Import Binary64 Binary64Facts.

(** A comparison that holds has no NaN on either side. *)
Lemma ltb_true_nan_free : forall x y : PrimFloat.float,
  (x <? y)%float = true -> nan_free x /\ nan_free y.
Proof.
  intros x y H.
  destruct (nan_free_dec x) as [Hx | Hx];
    [|rewrite ltb_nan in H by auto; discriminate].
  destruct (nan_free_dec y) as [Hy | Hy];
    [|rewrite ltb_nan in H by auto; discriminate].
  auto.
Qed.

Lemma if_some : forall (A : Type) (b : bool) (x y : A),
  (if b then Some x else Some y) = Some (if b then x else y).
Proof. now intros A []. Qed.

(** From the second score on both extremes are there. *)
Lemma extremes_fold_some : forall scores mx0 mn0,
  exists mx mn,
    fold_left extremes_step scores (Some mx0, Some mn0) = (Some mx, Some mn).
Proof.
  induction scores as [|s rest IH]; intros mx0 mn0.
  - now exists mx0, mn0.
  - cbn [fold_left extremes_step].
    destruct (mx0 <? s)%float, (s <? mn0)%float; apply IH.
Qed.

(** Both extremes are scores of the list. *)
Lemma extremes_fold_In : forall scores mx0 mn0 mx mn,
  fold_left extremes_step scores (Some mx0, Some mn0) = (Some mx, Some mn) ->
  (mx = mx0 \/ In mx scores) /\ (mn = mn0 \/ In mn scores).
Proof.
  induction scores as [|s rest IH]; intros mx0 mn0 mx mn H.
  - inversion H. auto.
  - cbn [fold_left extremes_step] in H. rewrite !if_some in H.
    apply IH in H. destruct H as [H1 H2]. split.
    + destruct H1 as [H1 | H1]; [|right; now right].
      destruct (mx0 <? s)%float; subst; [right; now left | now left].
    + destruct H2 as [H2 | H2]; [|right; now right].
      destruct (s <? mn0)%float; subst; [right; now left | now left].
Qed.

(** NaNs apart, [max_score] is not below any score seen and [min_score]
    is not above any. A NaN compares false with everything: when the first
    score is one, both extremes stay what they are. *)
Lemma extremes_fold_bounds : forall scores seen mx0 mn0 mx mn,
  fold_left extremes_step scores (Some mx0, Some mn0) = (Some mx, Some mn) ->
  (nan_free mx0 ->
   forall s, In s seen -> nan_free s -> val s <= val mx0) ->
  (nan_free mn0 ->
   forall s, In s seen -> nan_free s -> val mn0 <= val s) ->
  (nan_free mx ->
   forall s, In s (seen ++ scores) -> nan_free s -> val s <= val mx)
  /\ (nan_free mn ->
      forall s, In s (seen ++ scores) -> nan_free s -> val mn <= val s).
Proof.
  induction scores as [|s' rest IH]; intros seen mx0 mn0 mx mn H Hmx Hmn.
  - inversion H. subst. rewrite app_nil_r. auto.
  - cbn [fold_left extremes_step] in H. rewrite !if_some in H.
    replace (seen ++ s' :: rest) with ((seen ++ [s']) ++ rest)
      by (rewrite <- app_assoc; reflexivity).
    apply (IH _ _ _ _ _ H).
    + destruct (mx0 <? s')%float eqn:E.
      * intros Fs' s Hs Fs. apply in_app_or in Hs.
        destruct Hs as [Hs | [Hs | []]]; [|subst; lia].
        destruct (ltb_true_nan_free _ _ E) as [F0 _].
        rewrite (ltb_val _ _ F0 Fs') in E. apply Z.ltb_lt in E.
        specialize (Hmx F0 s Hs Fs). lia.
      * intros F0 s Hs Fs. apply in_app_or in Hs.
        destruct Hs as [Hs | [Hs | []]]; [now apply Hmx|]. subst s'.
        rewrite (ltb_val _ _ F0 Fs) in E. apply Z.ltb_ge in E. exact E.
    + destruct (s' <? mn0)%float eqn:E.
      * intros Fs' s Hs Fs. apply in_app_or in Hs.
        destruct Hs as [Hs | [Hs | []]]; [|subst; lia].
        destruct (ltb_true_nan_free _ _ E) as [_ F0].
        rewrite (ltb_val _ _ Fs' F0) in E. apply Z.ltb_lt in E.
        specialize (Hmn F0 s Hs Fs). lia.
      * intros F0 s Hs Fs. apply in_app_or in Hs.
        destruct Hs as [Hs | [Hs | []]]; [now apply Hmn|]. subst s'.
        rewrite (ltb_val _ _ Fs F0) in E. apply Z.ltb_ge in E. exact E.
Qed.

(** The extremes of a list of scores (lines 153-159). *)
Lemma extremes_spec : forall scores : list PrimFloat.float,
  match extremes scores with
  | (Some mx, Some mn) =>
      In mx scores /\ In mn scores
      /\ (nan_free mx ->
          forall s, In s scores -> nan_free s -> val s <= val mx)
      /\ (nan_free mn ->
          forall s, In s scores -> nan_free s -> val mn <= val s)
  | (None, None) => scores = []
  | _ => False
  end.
Proof.
  intros [|v rest]; [reflexivity|].
  unfold extremes. cbn [fold_left extremes_step].
  destruct (extremes_fold_some rest v v) as [mx [mn E]]. rewrite E.
  destruct (extremes_fold_In _ _ _ _ _ E) as [I1 I2].
  destruct (extremes_fold_bounds rest [v] v v mx mn E) as [B1 B2].
  - intros _ s [Hs | []] _. subst. lia.
  - intros _ s [Hs | []] _. subst. lia.
  - cbn [app] in B1, B2. split; [|split; [|split]]; try assumption.
    + destruct I1; [left; congruence | now right].
    + destruct I2; [left; congruence | now right].
Qed.

(** Every normalized score that the loop computes is within 0 and 100. *)
Lemma normalized_score_range :
  forall (scores : list PrimFloat.float) mx mn s n,
  extremes scores = (mx, mn) -> In s scores ->
  normalized_score mx mn s = inr n -> 0 <= n <= 100.
Proof.
  intros scores mx mn s n E Hs.
  pose proof (extremes_spec scores) as X. rewrite E in X.
  destruct mx as [mx|], mn as [mn|]; try (now destruct X);
    [|subst scores; destruct Hs].
  destruct X as [_ [_ [B1 B2]]]. unfold normalized_score.
  destruct (mx =? mn)%float eqn:Q.
  - intro H. inversion H. lia.
  - apply round_scaled_within. intros Fx Fn Fs.
    specialize (B1 Fx s Hs Fs). specialize (B2 Fn s Hs Fs).
    rewrite (eqb_val _ _ Fx Fn) in Q. apply Z.eqb_neq in Q. lia.
Qed.

(** C8: every normalized score that the pipeline yields, for an aggregate
    or for a stream of rows, is an integer from 0 to 100, and the label
    yielded with it is the one of its band, never the empty label of a
    score outside all bands. *)
Theorem normalized_scores_within_0_and_100 :
  (forall contacts : @Dict.t Z PrimFloat.float,
     Forall (fun e => 0 <= entry_score e <= 100
                      /\ entry_label e = get_quartile_label (entry_score e)
                      /\ entry_label e <> "")
            (fst (normalize contacts)))
  /\ (forall rows : list (list string),
     Forall (fun e => 0 <= entry_score e <= 100
                      /\ entry_label e = get_quartile_label (entry_score e)
                      /\ entry_label e <> "")
            (fst (process_file rows))).
Proof.
  assert (N : forall contacts : @Dict.t Z PrimFloat.float,
     Forall (fun e => 0 <= entry_score e <= 100
                      /\ entry_label e = get_quartile_label (entry_score e)
                      /\ entry_label e <> "")
            (fst (normalize contacts))).
  { intro contacts. apply Forall_forall. intros e He.
    unfold normalize in He.
    destruct (extremes (Dict.values contacts)) as [mx mn] eqn:E.
    rewrite report_entries in He. apply in_map_iff in He.
    destruct He as [[c s] [He Hin]]. apply take_while_In in Hin.
    destruct Hin as [Hin Hr]. unfold rounds in Hr. unfold entry_of in He.
    cbn [fst snd] in *.
    destruct (normalized_score mx mn s) as [err|n] eqn:Q; [discriminate|].
    subst e. unfold entry_score, entry_label. cbn [fst snd].
    assert (R : 0 <= n <= 100).
    { apply (normalized_score_range (Dict.values contacts) mx mn s n E);
        [|exact Q].
      unfold Dict.values. apply in_map_iff. now exists (c, s). }
    split; [exact R|]. split; [reflexivity|]. now apply label_in_range. }
  split; [exact N|]. intro rows. unfold process_file.
  destruct (aggregate rows []) as [e|contacts]; [constructor | apply N].
Qed.

(** The loop of lines 163-176 when every score is rounded. *)
Lemma report_all :
  forall mx mn (items : list (Z * PrimFloat.float))
         (P : Z * PrimFloat.float -> entry -> Prop),
  (forall item, In item items ->
     exists n, normalized_score mx mn (snd item) = inr n
               /\ P item (fst item, get_quartile_label n, n)) ->
  snd (report mx mn items) = None
  /\ Forall2 P items (fst (report mx mn items)).
Proof.
  intros mx mn items P. induction items as [|[c sc] rest IH]; intro H.
  - split; [reflexivity | constructor].
  - destruct (H (c, sc) (or_introl eq_refl)) as [n [Hn HP]].
    cbn [fst snd] in Hn, HP. cbn [report]. rewrite Hn.
    destruct IH as [IH1 IH2]; [intros item Hi; apply H; now right|].
    destruct (report mx mn rest) as [es r]. cbn [fst snd] in *.
    split; [exact IH1 | now constructor].
Qed.

(** C10, as the code has it: when the totals are finite, two of them
    differ and [max_score - min_score] does not overflow, [max_score] and
    [min_score] are the greatest and the least total, the generator ends
    normally with one entry per contact, in the order of the aggregate,
    and a contact has the score 0 and the label bronze when its total
    equals [min_score] and the score 100 and the label platinum when its
    total equals [max_score]. *)
Theorem extremes_are_given_0_and_100 :
  forall (contacts : @Dict.t Z PrimFloat.float) (mx mn : PrimFloat.float),
  extremes (Dict.values contacts) = (Some mx, Some mn) ->
  Forall (fun s => finite s = true) (Dict.values contacts) ->
  finite (mx - mn)%float = true ->
  (exists s t, In s (Dict.values contacts) /\ In t (Dict.values contacts)
               /\ (s =? t)%float = false) ->
  (In mx (Dict.values contacts) /\ In mn (Dict.values contacts)
   /\ forall s, In s (Dict.values contacts) ->
        (mx <? s)%float = false /\ (s <? mn)%float = false)
  /\ snd (normalize contacts) = None
  /\ Forall2
       (fun item e =>
          entry_id e = fst item
          /\ ((snd item =? mn)%float = true ->
              entry_score e = 0 /\ entry_label e = "bronze")
          /\ ((snd item =? mx)%float = true ->
              entry_score e = 100 /\ entry_label e = "platinum"))
       contacts (fst (normalize contacts)).
Proof.
  intros contacts mx mn E Hfin Hd Hdist.
  pose proof (extremes_spec (Dict.values contacts)) as X. rewrite E in X.
  destruct X as [Ix [In_ [B1 B2]]].
  rewrite Forall_forall in Hfin.
  assert (Fx : finite mx = true) by now apply Hfin.
  assert (Fn : finite mn = true) by now apply Hfin.
  assert (Nx : nan_free mx) by now apply finite_nan_free.
  assert (Nn : nan_free mn) by now apply finite_nan_free.
  assert (B : forall s, In s (Dict.values contacts) ->
                val mn <= val s <= val mx).
  { intros s Hs. pose proof (finite_nan_free _ (Hfin s Hs)) as Ns.
    split; [now apply B2 | now apply B1]. }
  assert (Lt : val mn < val mx).
  { destruct Hdist as [s [t [Hs [Ht Hst]]]].
    rewrite eqb_val in Hst
      by (apply finite_nan_free; now apply Hfin).
    apply Z.eqb_neq in Hst.
    pose proof (B s Hs). pose proof (B t Ht). lia. }
  assert (Q : (mx =? mn)%float = false).
  { rewrite (eqb_val _ _ Nx Nn). apply Z.eqb_neq. lia. }
  split; [|].
  { split; [exact Ix|]. split; [exact In_|]. intros s Hs.
    pose proof (finite_nan_free _ (Hfin s Hs)) as Ns.
    rewrite (ltb_val _ _ Nx Ns), (ltb_val _ _ Ns Nn).
    pose proof (B s Hs). split; apply Z.ltb_ge; lia. }
  unfold normalize. rewrite E. unfold Dict.items.
  apply report_all. intros [c s] Hin. cbn [fst snd].
  assert (Hs : In s (Dict.values contacts)).
  { unfold Dict.values. apply in_map_iff. now exists (c, s). }
  pose proof (Hfin s Hs) as Fs.
  pose proof (finite_nan_free _ Fs) as Ns.
  destruct (round_scaled_finite mx mn s Fx Fn Fs Hd (B s Hs) Lt)
    as [n [Hn [H0 H100]]].
  exists n. rewrite (normalized_score_unequal _ _ _ Q).
  split; [exact Hn|]. unfold entry_id, entry_score, entry_label.
  cbn [fst snd]. split; [reflexivity|]. split.
  - intro Hq. rewrite (eqb_val _ _ Ns Nn) in Hq. apply Z.eqb_eq in Hq.
    rewrite (H0 Hq). split; reflexivity.
  - intro Hq. rewrite (eqb_val _ _ Ns Nx) in Hq. apply Z.eqb_eq in Hq.
    rewrite (H100 Hq). split; reflexivity.
Qed.

(** An instance of C10: two contacts at the greatest total, one at the
    least and one between them. *)
Lemma extremes_0_and_100_witness :
  snd (normalize [(1, 3%float); (2, 1%float); (3, 3%float); (4, 2%float)])
  = None
  /\ Forall2
       (fun item e =>
          entry_id e = fst item
          /\ ((snd item =? 1)%float = true ->
              entry_score e = 0 /\ entry_label e = "bronze")
          /\ ((snd item =? 3)%float = true ->
              entry_score e = 100 /\ entry_label e = "platinum"))
       [(1, 3%float); (2, 1%float); (3, 3%float); (4, 2%float)]
       (fst (normalize
               [(1, 3%float); (2, 1%float); (3, 3%float); (4, 2%float)])).
Proof.
  apply (extremes_are_given_0_and_100
           [(1, 3%float); (2, 1%float); (3, 3%float); (4, 2%float)]
           3%float 1%float).
  - reflexivity.
  - repeat constructor.
  - reflexivity.
  - exists 3%float, 1%float. simpl. auto.
Defined.

(** C10, as the claim states it, fails: the totals [-1e308] and [1e308]
    are finite and differ, but [max_score - min_score] overflows to
    infinity; the contact at the minimum is given 0, and for the contact
    at the maximum the scaled score is infinity / infinity, a NaN, and
    [round] raises [ValueError]: this contact is given no score. *)
Lemma the_maximum_is_not_given_100 :
  aggregate [["1"; "web"; "-1e308"]; ["2"; "web"; "1e308"]] []
  = inr [(1, (-1e308)%float); (2, 1e308%float)]
  /\ extremes [(-1e308)%float; 1e308%float]
     = (Some 1e308%float, Some (-1e308)%float)
  /\ (1e308 =? -1e308)%float = false
  /\ Prim2SF (1e308 - -1e308)%float = S754_infinity false
  /\ Prim2SF (scaled 1e308 (-1e308) 1e308) = S754_nan
  /\ normalize [(1, (-1e308)%float); (2, 1e308%float)]
     = ([(1, "bronze", 0)], Some ValueError)
  /\ process_file [["1"; "web"; "-1e308"]; ["2"; "web"; "1e308"]]
     = ([(1, "bronze", 0)], Some ValueError).
Proof. repeat split; reflexivity. Qed.

End Range.

End Props.

(** * More properties of the code *)

Module More.

Import Spec.

Set Warnings "-inexact-float".

Import Py Cli Main Bands Props.

Local Open Scope string_scope.
Local Open Scope list_scope.
Local Open Scope Z_scope.

(** ** The label does not depend on the order of the bands *)

(** The loop of lines 115-120 over any sequence of bands: the label of a
    band that holds the score, or the empty label when there is none. *)
Lemma first_band_cases : forall bands score,
  (first_band bands score = ""
   /\ forall label lo hi, In (label, (lo, hi)) bands ->
        ~ (lo <= score <= hi))
  \/ (exists label lo hi,
        In (label, (lo, hi)) bands /\ lo <= score <= hi
        /\ first_band bands score = label).
Proof.
  intros bands score. induction bands as [|[label [lo hi]] rest IH].
  - left. split; [reflexivity|]. intros label lo hi [].
  - cbn [first_band].
    destruct ((lo <=? score) && (score <=? hi)) eqn:C.
    + right. exists label, lo, hi. apply andb_true_iff in C.
      destruct C as [C1 C2]. apply Z.leb_le in C1, C2.
      split; [now left|]. split; [lia | reflexivity].
    + destruct IH as [[E N] | [l [a [b [I [R E]]]]]].
      * left. split; [exact E|]. intros l a b [Q | Q].
        -- inversion Q; subst. intro R. apply andb_false_iff in C.
           destruct C as [C | C]; apply Z.leb_gt in C; lia.
        -- exact (N l a b Q).
      * right. exists l, a, b. split; [now right|]. now split.
Qed.

(** X1. The bands do not overlap, so the label is the same in whatever order
    the dictionary of line 115 gives them: the order of the table, as a
    dictionary keeps it since Python 3.7, or any other, as the dictionaries
    of older interpreters may give. *)
Theorem label_for_any_order_of_bands :
  forall (bands : list (string * (Z * Z))) (score : Z),
  Permutation bands QUARTILE_LABELS ->
  first_band bands score = get_quartile_label score.
Proof.
  intros bands score P.
  destruct (label_by_band score) as [H1 [H2 [H3 [H4 H5]]]].
  destruct (first_band_cases bands score)
    as [[E N] | [l [a [b [I [R E]]]]]]; rewrite E.
  - symmetry. apply H5.
    assert (Q : forall label lo hi, In (label, (lo, hi)) QUARTILE_LABELS ->
                  ~ (lo <= score <= hi)).
    { intros label lo hi Hin. apply (N label).
      apply (Permutation_in _ (Permutation_sym P) Hin). }
    pose proof (Q "platinum" 75 100 ltac:(simpl; auto)).
    pose proof (Q "gold" 50 74 ltac:(simpl; auto)).
    pose proof (Q "silver" 25 49 ltac:(simpl; auto 6)).
    pose proof (Q "bronze" 0 24 ltac:(simpl; auto 6)).
    lia.
  - apply (Permutation_in _ P) in I.
    destruct I as [I | [I | [I | [I | []]]]]; inversion I; subst;
      symmetry; auto.
Qed.

(** An instance: the bands from bronze up. *)
Lemma label_for_any_order_witness :
  first_band
    [("bronze", (0, 24)); ("silver", (25, 49)); ("gold", (50, 74));
     ("platinum", (75, 100))] 60
  = get_quartile_label 60.
Proof.
  apply (label_for_any_order_of_bands
           [("bronze", (0, 24)); ("silver", (25, 49)); ("gold", (50, 74));
            ("platinum", (75, 100))] 60).
  change QUARTILE_LABELS with
    (rev [("bronze", (0, 24)); ("silver", (25, 49)); ("gold", (50, 74));
          ("platinum", (75, 100))]).
  apply Permutation_rev.
Defined.

(** ** Blanks around the fields *)

Lemma lstrip_blanks : forall l s,
  forallb is_space l = true -> lstrip (l ++ s) = lstrip s.
Proof.
  induction l as [|c t IH]; intros s H; [reflexivity|].
  cbn in H. apply andb_true_iff in H. destruct H as [Hc Ht].
  cbn [app lstrip]. rewrite Hc. now apply IH.
Qed.

Lemma lstrip_all_blanks : forall l,
  forallb is_space l = true -> lstrip l = [].
Proof.
  intros l H. rewrite <- (app_nil_r l). now rewrite lstrip_blanks.
Qed.

Lemma lstrip_app : forall s r,
  lstrip s <> [] -> lstrip (s ++ r) = lstrip s ++ r.
Proof.
  induction s as [|c t IH]; intros r H; [now elim H|].
  cbn [app lstrip] in *. destruct (is_space c); [now apply IH | reflexivity].
Qed.

Lemma lstrip_is_blank_or_not : forall s,
  lstrip s = [] -> forallb is_space s = true.
Proof.
  induction s as [|c t IH]; intro H; [reflexivity|].
  cbn [lstrip] in H. cbn [forallb]. destruct (is_space c); [|discriminate].
  now apply IH.
Qed.

Lemma forallb_rev : forall (A : Type) (p : A -> bool) l,
  forallb p (rev l) = forallb p l.
Proof.
  intros A p l. induction l as [|a t IH]; [reflexivity|].
  cbn [rev forallb]. rewrite forallb_app, IH. cbn. 
  destruct (p a), (forallb p t); reflexivity.
Qed.

(** Blanks on either side make no difference to [strip]. *)
Lemma strip_blanks : forall l s r,
  forallb is_space l = true -> forallb is_space r = true ->
  strip (l ++ s ++ r) = strip s.
Proof.
  intros l s r Hl Hr. unfold strip. rewrite (lstrip_blanks l _ Hl).
  destruct (lstrip s) as [|c t] eqn:E.
  - pose proof (lstrip_is_blank_or_not _ E) as Hs.
    rewrite (lstrip_all_blanks (s ++ r)); [reflexivity|].
    rewrite forallb_app. now rewrite Hs, Hr.
  - rewrite lstrip_app by (rewrite E; discriminate). rewrite E.
    rewrite rev_app_distr.
    rewrite (lstrip_blanks (rev r)); [reflexivity|].
    now rewrite forallb_rev.
Qed.

Lemma list_ascii_app : forall a b : string,
  list_ascii_of_string (a ++ b) =
  list_ascii_of_string a ++ list_ascii_of_string b.
Proof.
  induction a as [|c t IH]; intro b; [reflexivity|].
  cbn. now rewrite IH.
Qed.

Lemma int_blanks : forall l s r : string,
  blank l = true -> blank r = true -> Py.int (l ++ s ++ r) = Py.int s.
Proof.
  intros l s r Hl Hr. unfold Py.int, int_of_chars.
  rewrite !list_ascii_app. now rewrite strip_blanks.
Qed.

Lemma float_blanks : forall l s r : string,
  blank l = true -> blank r = true -> Py.float (l ++ s ++ r) = Py.float s.
Proof.
  intros l s r Hl Hr. unfold Py.float, float_of_chars.
  rewrite !list_ascii_app. now rewrite strip_blanks.
Qed.

(** A text that begins with a blank is not an event type. *)
Lemma blank_event_type : forall (c : ascii) (s : string),
  is_space c = true -> known_event_type (String c s) = false.
Proof.
  intros c s H. unfold known_event_type, EVENT_TYPES. cbn [existsb].
  cbn [String.eqb].
  destruct (Ascii.eqb_spec c "w"); [subst; discriminate|].
  destruct (Ascii.eqb_spec c "e"); [subst; discriminate|].
  destruct (Ascii.eqb_spec c "s"); [subst; discriminate|].
  reflexivity.
Qed.

(** X2. Blanks around the contact id and around the score make no difference
    to what [parse_row] returns or raises: [int] and [float] pass over
    them. The event type is compared as it stands: with a blank before it,
    it is unknown. *)
Theorem parse_row_passes_over_blanks :
  forall (l0 r0 l2 r2 id type score : string) (more : list string),
  blank l0 = true -> blank r0 = true ->
  blank l2 = true -> blank r2 = true ->
  snd (parse_row ((l0 ++ id ++ r0)%string :: type
                  :: (l2 ++ score ++ r2)%string :: more))
  = snd (parse_row (id :: type :: score :: more))
  /\ (forall c, is_space c = true ->
      Py.int id <> None ->
      snd (parse_row (id :: String c type :: score :: more))
      = inl UnknownEventType).
Proof.
  intros l0 r0 l2 r2 id type score more H0 H0' H2 H2'. split.
  - unfold parse_row. cbn [List.length Nat.ltb Nat.leb field nth map].
    rewrite (int_blanks _ _ _ H0 H0'), (float_blanks _ _ _ H2 H2').
    destruct (Py.int id) as [n|]; [|reflexivity].
    destruct (known_event_type type); cbn [negb]; [|reflexivity].
    destruct (Py.float score) as [x|]; reflexivity.
  - intros c Hc Hid. unfold parse_row.
    cbn [List.length Nat.ltb Nat.leb field nth map].
    destruct (Py.int id) as [n|]; [|now elim Hid].
    now rewrite (blank_event_type c type Hc).
Qed.

Lemma parse_row_blanks_witness :
  snd (parse_row [" 12 "; "web"; "  3.5 "])
  = snd (parse_row ["12"; "web"; "3.5"]).
Proof.
  apply (parse_row_passes_over_blanks " " " " "  " " " "12" "web" "3.5" []);
    reflexivity.
Defined.

Section Extremes.

Import Binary64 Binary64Facts Binary64More.

(** ** The extremes and NaN totals *)

(** Extremes that are not NaNs stay so: a NaN is never above or below. *)
Lemma extremes_fold_nan_free : forall scores mx0 mn0 mx mn,
  fold_left extremes_step scores (Some mx0, Some mn0) = (Some mx, Some mn) ->
  nan_free mx0 -> nan_free mn0 -> nan_free mx /\ nan_free mn.
Proof.
  induction scores as [|s rest IH]; intros mx0 mn0 mx mn H Fx Fn.
  - inversion H. subst. auto.
  - cbn [fold_left extremes_step] in H. rewrite !if_some in H.
    apply IH in H; [exact H | |].
    + destruct (mx0 <? s)%float eqn:E; [|exact Fx].
      now destruct (ltb_true_nan_free _ _ E).
    + destruct (s <? mn0)%float eqn:E; [|exact Fn].
      now destruct (ltb_true_nan_free _ _ E).
Qed.

(** When the first total is a NaN both extremes are this NaN, whatever
    follows. *)
Lemma extremes_fold_nan : forall scores v,
  Prim2SF v = S754_nan ->
  fold_left extremes_step scores (Some v, Some v) = (Some v, Some v).
Proof.
  induction scores as [|s rest IH]; intros v Hv; [reflexivity|].
  cbn [fold_left extremes_step].
  rewrite (ltb_nan v s) by auto. rewrite (ltb_nan s v) by auto.
  now apply IH.
Qed.

(** X3. Lines 153-159. When the first total is a NaN, [max_score] and
    [min_score] are both this NaN. Otherwise they are totals of the
    aggregate that are not NaNs, no total is above [max_score] and none is
    below [min_score]: the NaNs that follow are passed over. *)
Theorem extremes_pass_over_nans :
  forall (v : PrimFloat.float) (rest : list PrimFloat.float),
  match Prim2SF v with
  | S754_nan => extremes (v :: rest) = (Some v, Some v)
  | _ =>
      exists mx mn,
        extremes (v :: rest) = (Some mx, Some mn)
        /\ Prim2SF mx <> S754_nan /\ Prim2SF mn <> S754_nan
        /\ In mx (v :: rest) /\ In mn (v :: rest)
        /\ (mn <=? mx)%float = true
        /\ forall s, In s (v :: rest) ->
             (mx <? s)%float = false /\ (s <? mn)%float = false
  end.
Proof.
  intros v rest.
  destruct (nan_free_dec v) as [Fv | Nv].
  2:{ rewrite Nv. unfold extremes. cbn [fold_left extremes_step].
      now apply extremes_fold_nan. }
  assert (G : exists mx mn,
        extremes (v :: rest) = (Some mx, Some mn)
        /\ Prim2SF mx <> S754_nan /\ Prim2SF mn <> S754_nan
        /\ In mx (v :: rest) /\ In mn (v :: rest)
        /\ (mn <=? mx)%float = true
        /\ forall s, In s (v :: rest) ->
             (mx <? s)%float = false /\ (s <? mn)%float = false).
  { pose proof (extremes_spec (v :: rest)) as X.
    destruct (extremes (v :: rest)) as [[mx|] [mn|]] eqn:E;
      try contradiction; try discriminate.
    destruct X as [Ix [In_ [B1 B2]]].
    unfold extremes in E. cbn [fold_left extremes_step] in E.
    destruct (extremes_fold_nan_free _ _ _ _ _ E Fv Fv) as [Fx Fn].
    exists mx, mn. split; [reflexivity|].
    assert (Nx : Prim2SF mx <> S754_nan).
    { intro Q. unfold nan_free in Fx. rewrite Q in Fx. discriminate. }
    assert (Nn : Prim2SF mn <> S754_nan).
    { intro Q. unfold nan_free in Fn. rewrite Q in Fn. discriminate. }
    repeat split; try assumption.
    - rewrite leb_spec. unfold SFleb.
      rewrite (compare_Zval _ _ (Prim2SF_valid mn) (Prim2SF_valid mx) Fn Fx).
      specialize (B1 Fx mn In_ Fn). unfold val in B1.
      destruct (Zval (Prim2SF mn) ?= Zval (Prim2SF mx)) eqn:C;
        try reflexivity.
      apply Z.compare_gt_iff in C. lia.
    - destruct (nan_free_dec s) as [Fs | Ns];
        [|apply ltb_nan; auto].
      rewrite (ltb_val _ _ Fx Fs). apply Z.ltb_ge. now apply B1.
    - destruct (nan_free_dec s) as [Fs | Ns];
        [|apply ltb_nan; auto].
      rewrite (ltb_val _ _ Fs Fn). apply Z.ltb_ge. now apply B2. }
  unfold nan_free in Fv. destruct (Prim2SF v); try exact G. discriminate.
Qed.

Lemma eqb_true_sym : forall x y : PrimFloat.float,
  (x =? y)%float = true -> (y =? x)%float = true.
Proof.
  intros x y H.
  destruct (nan_free_dec x) as [Fx | Nx];
    [|rewrite eqb_nan in H by auto; discriminate].
  destruct (nan_free_dec y) as [Fy | Ny];
    [|rewrite eqb_nan in H by auto; discriminate].
  rewrite (eqb_val _ _ Fx Fy) in H. rewrite (eqb_val _ _ Fy Fx).
  apply Z.eqb_eq in H. apply Z.eqb_eq. lia.
Qed.

(** X4. When the first total of the aggregate is a NaN, the generator yields
    nothing and ends with the [ValueError] of [round]: both extremes are
    the NaN, they do not compare equal, and the scaled score of the first
    contact is a NaN. *)
Theorem first_total_nan_ends_the_run :
  forall (c : Z) (v : PrimFloat.float) (rest : @Dict.t Z PrimFloat.float),
  Prim2SF v = S754_nan ->
  normalize ((c, v) :: rest) = ([], Some ValueError).
Proof.
  intros c v rest Hv. unfold normalize.
  change (Dict.values ((c, v) :: rest)) with (v :: Dict.values rest).
  unfold extremes. cbn [fold_left extremes_step].
  rewrite (extremes_fold_nan _ _ Hv). unfold Dict.items.
  cbn [report normalized_score]. rewrite (eqb_nan v v) by auto.
  fold (scaled v v v). unfold Py.round.
  rewrite scaled_spec, sf_scaled_nan by auto. reflexivity.
Qed.

Lemma first_total_nan_witness :
  normalize [(7, nan); (8, 1%float); (9, 2%float)] = ([], Some ValueError).
Proof.
  apply (first_total_nan_ends_the_run 7 nan [(8, 1%float); (9, 2%float)]).
  reflexivity.
Defined.

(** X5. When the first total is not a NaN and every other total is a NaN or
    compares equal to the first, [max_score == min_score] holds and every
    contact is given the score 0 and the label bronze, the contacts whose
    total is a NaN as well. *)
Theorem nan_totals_among_ties_are_given_0 :
  forall (c : Z) (v : PrimFloat.float) (rest : @Dict.t Z PrimFloat.float),
  (v =? v)%float = true ->
  (forall s, In s (Dict.values rest) ->
     (s =? v)%float = true \/ Prim2SF s = S754_nan) ->
  normalize ((c, v) :: rest) =
  (map (fun item => (fst item, "bronze", 0)) ((c, v) :: rest), None).
Proof.
  intros c v rest Hvv H. unfold normalize.
  change (Dict.values ((c, v) :: rest)) with (v :: Dict.values rest).
  unfold extremes. cbn [fold_left extremes_step].
  rewrite extremes_of_equal_scores.
  - unfold Dict.items. generalize ((c, v) :: rest). intro items.
    induction items as [|[c' s'] more IH]; [reflexivity|].
    cbn [report normalized_score map fst]. rewrite Hvv.
    now rewrite IH.
  - intros s Hs. destruct (H s Hs) as [E | N].
    + split; [|now apply eqb_not_ltb].
      apply eqb_not_ltb. now apply eqb_true_sym.
    + split; apply ltb_nan; auto.
Qed.

Lemma nan_totals_among_ties_witness :
  normalize [(1, 5%float); (2, nan); (3, 5%float)] =
  ([(1, "bronze", 0); (2, "bronze", 0); (3, "bronze", 0)], None).
Proof.
  apply (nan_totals_among_ties_are_given_0 1 5%float
           [(2, nan); (3, 5%float)]).
  - reflexivity.
  - intros s [Hs | [Hs | []]]; subst; [right | left]; reflexivity.
Defined.

(** ** What ends a run *)

(** X6. Line 168 divides by [max_score - min_score] only when line 164 has
    found [max_score == min_score] false, and then this difference is not
    [0.0] (nor [-0.0]): the division never raises [ZeroDivisionError]. *)
Theorem divisor_is_never_zero : forall max_score min_score : PrimFloat.float,
  (max_score =? min_score)%float = false ->
  is_zero (Prim2SF (max_score - min_score)%float) = false.
Proof.
  intros mx mn H. rewrite sub_spec.
  destruct (nan_free_dec mx) as [Nx | Nx]; [|rewrite Nx; reflexivity].
  destruct (nan_free_dec mn) as [Nn | Nn];
    [|rewrite Nn, sub_nan_r; reflexivity].
  rewrite (eqb_val _ _ Nx Nn) in H. apply Z.eqb_neq in H.
  apply sub_not_zero; try apply Prim2SF_valid; assumption.
Qed.

Lemma divisor_is_never_zero_witness :
  is_zero (Prim2SF (5e-324 - 1e-323)%float) = false.
Proof.
  apply (divisor_is_never_zero 5e-324%float 1e-323%float). reflexivity.
Defined.

(** [round] in the loop of lines 163-176 raises nothing but
    [ValueError]. *)
Lemma normalized_score_raises :
  forall (scores : list PrimFloat.float) mx mn s e,
  extremes scores = (mx, mn) -> In s scores ->
  normalized_score mx mn s = inl e -> e = ValueError.
Proof.
  intros scores mx mn s e E Hs.
  pose proof (extremes_spec scores) as X. rewrite E in X.
  destruct mx as [mx|], mn as [mn|]; try (now destruct X);
    try (subst scores; now destruct Hs).
  destruct X as [_ [_ [B1 B2]]]. unfold normalized_score.
  destruct (mx =? mn)%float eqn:Q; [discriminate|].
  apply round_scaled_raises. intros Fx Fn Fs.
  specialize (B1 Fx s Hs Fs). specialize (B2 Fn s Hs Fs).
  rewrite (eqb_val _ _ Fx Fn) in Q. apply Z.eqb_neq in Q. lia.
Qed.

Lemma report_raises :
  forall (scores : list PrimFloat.float) mx mn
         (items : list (Z * PrimFloat.float)),
  extremes scores = (mx, mn) ->
  (forall item, In item items -> In (snd item) scores) ->
  snd (report mx mn items) = None
  \/ snd (report mx mn items) = Some ValueError.
Proof.
  intros scores mx mn items E. induction items as [|[c s] rest IH]; intro H.
  - now left.
  - cbn [report].
    destruct (normalized_score mx mn s) as [e|n] eqn:Q.
    + right. cbn [snd]. f_equal.
      apply (normalized_score_raises scores mx mn s e E); [|exact Q].
      apply (H (c, s)). now left.
    + destruct (report mx mn rest) as [es r]. cbn [snd] in *.
      apply IH. intros item Hi. apply H. now right.
Qed.

(** X7. A run of the pipeline, on an aggregate or on a stream of rows, ends
    normally or with [ValueError] (of the unpacking of line 146, or of
    [round] in line 167), never with another exception: no key is missing
    in the table of factors, the extremes are set when there is a contact,
    and the scaled score is never an infinity. *)
Theorem a_run_ends_normally_or_with_ValueError :
  (forall contacts : @Dict.t Z PrimFloat.float,
     snd (normalize contacts) = None
     \/ snd (normalize contacts) = Some ValueError)
  /\ (forall rows : list (list string),
     snd (process_file rows) = None
     \/ snd (process_file rows) = Some ValueError).
Proof.
  assert (N : forall contacts : @Dict.t Z PrimFloat.float,
     snd (normalize contacts) = None
     \/ snd (normalize contacts) = Some ValueError).
  { intro contacts. unfold normalize.
    destruct (extremes (Dict.values contacts)) as [mx mn] eqn:E.
    apply (report_raises (Dict.values contacts) mx mn _ E).
    intros [c s] Hi. unfold Dict.items in Hi. unfold Dict.values.
    apply in_map_iff. now exists (c, s). }
  split; [exact N|]. intro rows. unfold process_file.
  destruct (aggregate rows []) as [e|contacts] eqn:A; [|apply N].
  right. cbn [snd]. f_equal. now destruct (aggregate_raises _ _ _ A).
Qed.

End Extremes.

Section Order.

Import Binary64 Binary64Facts Binary64More Binary64Order.

(** ** The normalized scores keep the order of the totals *)

Lemma normalized_score_mono :
  forall (scores : list PrimFloat.float) mx mn s1 s2 n1 n2,
  extremes scores = (mx, mn) -> In s1 scores -> In s2 scores ->
  (s1 <=? s2)%float = true ->
  normalized_score mx mn s1 = inr n1 ->
  normalized_score mx mn s2 = inr n2 -> n1 <= n2.
Proof.
  intros scores mx mn s1 s2 n1 n2 E I1 I2 L.
  pose proof (extremes_spec scores) as X. rewrite E in X.
  destruct mx as [mx|], mn as [mn|]; try (now destruct X);
    try (subst scores; now destruct I1).
  destruct X as [_ [_ [B1 B2]]]. unfold normalized_score.
  destruct (mx =? mn)%float eqn:Q.
  - intros H1 H2. inversion H1. inversion H2. lia.
  - destruct (leb_true_val _ _ L) as [F1 [F2 L12]].
    apply round_scaled_mono. intros Fx Fn _ _.
    pose proof (B2 Fn s1 I1 F1). pose proof (B1 Fx s2 I2 F2).
    rewrite (eqb_val _ _ Fx Fn) in Q. apply Z.eqb_neq in Q.
    pose proof (B1 Fx s1 I1 F1). pose proof (B2 Fn s2 I2 F2). lia.
Qed.

(** The entry at a place of the report is the one of the contact at that
    place of the aggregate. *)
Lemma report_nth : forall mx mn (items : list (Z * PrimFloat.float)) i e,
  nth_error (fst (report mx mn items)) i = Some e ->
  exists c s n,
    nth_error items i = Some (c, s)
    /\ normalized_score mx mn s = inr n
    /\ e = (c, get_quartile_label n, n).
Proof.
  intros mx mn items. induction items as [|[c s] rest IH]; intros i e H.
  - destruct i; discriminate.
  - cbn [report] in H.
    destruct (normalized_score mx mn s) as [err|n] eqn:Q;
      [destruct i; discriminate|].
    destruct (report mx mn rest) as [es r]. cbn [fst] in *.
    destruct i as [|i]; cbn [nth_error] in *.
    + inversion H. exists c, s, n. auto.
    + now apply IH.
Qed.

Lemma band_floor_mono : forall n1 n2 : Z,
  0 <= n1 -> n1 <= n2 -> n2 <= 100 ->
  band_floor (get_quartile_label n1) <= band_floor (get_quartile_label n2).
Proof.
  intros n1 n2 H0 H12 H100.
  destruct (label_by_band n1) as [A1 [A2 [A3 [A4 _]]]].
  destruct (label_by_band n2) as [B1 [B2 [B3 [B4 _]]]].
  assert (C1 : 75 <= n1 <= 100 \/ 50 <= n1 <= 74 \/
               25 <= n1 <= 49 \/ 0 <= n1 <= 24) by lia.
  assert (C2 : 75 <= n2 <= 100 \/ 50 <= n2 <= 74 \/
               25 <= n2 <= 49 \/ 0 <= n2 <= 24) by lia.
  destruct C1 as [C1 | [C1 | [C1 | C1]]];
    [rewrite (A1 C1) | rewrite (A2 C1) | rewrite (A3 C1) | rewrite (A4 C1)];
    destruct C2 as [C2 | [C2 | [C2 | C2]]];
    try lia;
    [rewrite (B1 C2) | rewrite (B1 C2) | rewrite (B2 C2) | rewrite (B1 C2)
    | rewrite (B2 C2) | rewrite (B3 C2) | rewrite (B1 C2) | rewrite (B2 C2)
    | rewrite (B3 C2) | rewrite (B4 C2)];
    vm_compute; discriminate.
Qed.

(** X8. Normalization keeps the order of the totals: of two contacts of a
    report, the one whose total is less than or equal to the other's has a
    normalized score that is less than or equal to the other's, and a band
    that is not above the other's. Float subtraction, division,
    multiplication and [round] are each monotone, so no rounding on the
    way turns two totals around. *)
Theorem normalization_keeps_the_order :
  forall (contacts : @Dict.t Z PrimFloat.float) (i j : nat)
         (c1 c2 : Z) (s1 s2 : PrimFloat.float) (e1 e2 : entry),
  nth_error contacts i = Some (c1, s1) ->
  nth_error contacts j = Some (c2, s2) ->
  nth_error (fst (normalize contacts)) i = Some e1 ->
  nth_error (fst (normalize contacts)) j = Some e2 ->
  (s1 <=? s2)%float = true ->
  entry_score e1 <= entry_score e2
  /\ band_floor (entry_label e1) <= band_floor (entry_label e2).
Proof.
  intros contacts i j c1 c2 s1 s2 e1 e2 I1 I2 R1 R2 L.
  unfold normalize in R1, R2.
  destruct (extremes (Dict.values contacts)) as [mx mn] eqn:E.
  unfold Dict.items in *.
  destruct (report_nth _ _ _ _ _ R1) as [c1' [s1' [n1 [J1 [Q1 ->]]]]].
  destruct (report_nth _ _ _ _ _ R2) as [c2' [s2' [n2 [J2 [Q2 ->]]]]].
  rewrite I1 in J1. rewrite I2 in J2. inversion J1. inversion J2. subst.
  assert (In1 : In s1' (Dict.values contacts)).
  { unfold Dict.values. apply in_map_iff. exists (c1', s1').
    split; [reflexivity|]. eapply nth_error_In; eassumption. }
  assert (In2 : In s2' (Dict.values contacts)).
  { unfold Dict.values. apply in_map_iff. exists (c2', s2').
    split; [reflexivity|]. eapply nth_error_In; eassumption. }
  pose proof (normalized_score_mono _ _ _ _ _ _ _ E In1 In2 L Q1 Q2) as Hn.
  pose proof (normalized_score_range _ _ _ _ _ E In1 Q1) as G1.
  pose proof (normalized_score_range _ _ _ _ _ E In2 Q2) as G2.
  unfold entry_score, entry_label. cbn [fst snd].
  split; [exact Hn|]. apply band_floor_mono; lia.
Qed.

Lemma normalization_order_witness :
  entry_score (1, "bronze", 4) <= entry_score (2, "platinum", 100)
  /\ band_floor (entry_label (1, "bronze", 4))
     <= band_floor (entry_label (2, "platinum", 100)).
Proof.
  apply (normalization_keeps_the_order
           [(1, 34.33%float); (3, 30.8%float); (2, 110.8%float)]
           0%nat 2%nat 1 2 34.33%float 110.8%float);
    reflexivity.
Defined.

End Order.

Section Complete.

Import Binary64 Binary64Facts Binary64More.

(** ** Runs that end normally *)

(** X9. When every total of the aggregate is finite and
    [max_score - min_score] does not overflow, the generator ends normally
    and yields one entry for every contact, in the order of the aggregate:
    no total is then scaled to a NaN. *)
Theorem finite_totals_are_all_normalized :
  forall (contacts : @Dict.t Z PrimFloat.float) (mx mn : PrimFloat.float),
  extremes (Dict.values contacts) = (Some mx, Some mn) ->
  Forall (fun s => finite s = true) (Dict.values contacts) ->
  finite (mx - mn)%float = true ->
  snd (normalize contacts) = None
  /\ map entry_id (fst (normalize contacts)) = Dict.keys contacts
  /\ List.length (fst (normalize contacts)) = List.length contacts.
Proof.
  intros contacts mx mn E Hfin Hd.
  pose proof (extremes_spec (Dict.values contacts)) as X. rewrite E in X.
  destruct X as [Ix [In_ [B1 B2]]].
  rewrite Forall_forall in Hfin.
  assert (Fx : finite mx = true) by now apply Hfin.
  assert (Fn : finite mn = true) by now apply Hfin.
  assert (Nx : nan_free mx) by now apply finite_nan_free.
  assert (Nn : nan_free mn) by now apply finite_nan_free.
  assert (A : snd (normalize contacts) = None
              /\ Forall2 (fun item e => entry_id e = fst item) contacts
                   (fst (normalize contacts))).
  { unfold normalize. rewrite E. unfold Dict.items.
    apply report_all. intros [c s] Hin. cbn [fst snd].
    assert (Hs : In s (Dict.values contacts)).
    { unfold Dict.values. apply in_map_iff. now exists (c, s). }
    pose proof (Hfin s Hs) as Fs.
    pose proof (finite_nan_free _ Fs) as Ns.
    unfold normalized_score.
    destruct (mx =? mn)%float eqn:Q.
    - exists 0. split; reflexivity.
    - rewrite (eqb_val _ _ Nx Nn) in Q. apply Z.eqb_neq in Q.
      pose proof (B1 Nx s Hs Ns). pose proof (B2 Nn s Hs Ns).
      pose proof (B1 Nx mn In_ Nn).
      destruct (round_scaled_finite mx mn s Fx Fn Fs Hd ltac:(lia)
                  ltac:(lia)) as [n [Hn _]].
      exists n. split; [exact Hn | reflexivity]. }
  destruct A as [A1 A2]. split; [exact A1|].
  assert (G : forall (l : list (Z * PrimFloat.float)) (es : list entry),
            Forall2 (fun item e => entry_id e = fst item) l es ->
            map entry_id es = map fst l
            /\ List.length es = List.length l).
  { intros l es F. induction F as [|item e items es' H _ IH].
    - split; reflexivity.
    - destruct IH as [IH1 IH2]. cbn [map List.length].
      rewrite H, IH1, IH2. split; reflexivity. }
  exact (G _ _ A2).
Qed.

Lemma finite_totals_witness :
  snd (normalize [(1, 34.33%float); (3, 30.8%float); (2, 110.8%float)])
  = None
  /\ map entry_id
       (fst (normalize
               [(1, 34.33%float); (3, 30.8%float); (2, 110.8%float)]))
     = Dict.keys [(1, 34.33%float); (3, 30.8%float); (2, 110.8%float)]
  /\ List.length
       (fst (normalize
               [(1, 34.33%float); (3, 30.8%float); (2, 110.8%float)]))
     = List.length [(1, 34.33%float); (3, 30.8%float); (2, 110.8%float)].
Proof.
  apply (finite_totals_are_all_normalized
           [(1, 34.33%float); (3, 30.8%float); (2, 110.8%float)]
           110.8%float 30.8%float).
  - reflexivity.
  - repeat constructor.
  - reflexivity.
Defined.

End Complete.

(** ** [main] *)

Lemma parsed_level_nonneg : forall flags level,
  0 <= level -> 0 <= fold_left store flags level.
Proof.
  induction flags as [|f rest IH]; intros level H; [exact H|].
  cbn [fold_left]. apply IH. destruct f; cbn [store]; lia.
Qed.

(** X10. The level of logging is always one of the list: [args.level] is never
    negative, so the index of line 197 does not count from the end, and
    [min] keeps it within the list however often [-v] is given. Without
    options the level is [WARN]; [-q] gives [ERROR]; each [-v] after the
    last [-q] is one step towards [DEBUG], where the level stays. *)
Theorem log_level_is_clamped : forall flags : list flag,
  0 <= parsed_level flags
  /\ log_level flags =
     Some (match parsed_level flags with
           | 0 => ERROR
           | 1 => WARN
           | 2 => INFO
           | _ => DEBUG
           end)
  /\ log_level (flags ++ [Quiet]) = Some ERROR
  /\ parsed_level (flags ++ [Verbose]) = parsed_level flags + 1
  /\ (3 <= parsed_level flags -> log_level (flags ++ [Verbose]) = Some DEBUG).
Proof.
  intro flags.
  assert (H : 0 <= parsed_level flags)
    by (apply parsed_level_nonneg; lia).
  assert (L : forall n, 0 <= n ->
            getitem levels (Z.min n (Z.of_nat (List.length levels) - 1)) =
            Some (match n with
                  | 0 => ERROR | 1 => WARN | 2 => INFO | _ => DEBUG
                  end)).
  { intros n Hn. change (Z.of_nat (List.length levels) - 1) with 3.
    destruct (Z.le_gt_cases 3 n) as [G | G].
    - rewrite Z.min_r by lia.
      destruct n as [|[p|p|]|]; try lia; try reflexivity.
      destruct p; try lia; reflexivity.
    - rewrite Z.min_l by lia.
      assert (C : n = 0 \/ n = 1 \/ n = 2) by lia.
      destruct C as [-> | [-> | ->]]; reflexivity. }
  split; [exact H|]. split; [now apply L|].
  assert (Q : parsed_level (flags ++ [Quiet]) = 0).
  { unfold parsed_level. now rewrite fold_left_app. }
  assert (V : parsed_level (flags ++ [Verbose]) = parsed_level flags + 1).
  { unfold parsed_level. now rewrite fold_left_app. }
  split; [unfold log_level; rewrite Q; reflexivity|].
  split; [exact V|].
  intro G. unfold log_level. rewrite V, L by lia.
  destruct (parsed_level flags + 1) as [|[p|p|]|] eqn:E; try lia;
    try reflexivity.
  destruct p; try lia; reflexivity.
Qed.

(** *** The lines of the report *)

Lemma str_injective : forall a b : Z, str a = str b -> a = b.
Proof.
  intros a b H. unfold str in H.
  assert (E : Some (Z.to_int a) = Some (Z.to_int b)).
  { rewrite <- !DecimalString.NilEmpty.isi. now rewrite H. }
  inversion E as [E']. rewrite <- (DecimalZ.of_to a), <- (DecimalZ.of_to b).
  now rewrite E'.
Qed.

Lemma uint_has_no_comma : forall d : Decimal.uint,
  has_comma (DecimalString.NilEmpty.string_of_uint d) = false.
Proof. induction d; [reflexivity | exact IHd ..]. Qed.

Lemma str_has_no_comma : forall n : Z, has_comma (str n) = false.
Proof.
  intro n. unfold str. destruct (Z.to_int n) as [d|d]; cbn.
  - apply uint_has_no_comma.
  - apply uint_has_no_comma.
Qed.

Lemma label_has_no_comma : forall score : Z,
  has_comma (get_quartile_label score) = false.
Proof.
  intro score. destruct (label_by_band score) as [H1 [H2 [H3 [H4 H5]]]].
  assert (C : 75 <= score <= 100 \/ 50 <= score <= 74 \/
              25 <= score <= 49 \/ 0 <= score <= 24 \/
              (score < 0 \/ 100 < score)) by lia.
  destruct C as [C | [C | [C | [C | C]]]];
    [rewrite (H1 C) | rewrite (H2 C) | rewrite (H3 C) | rewrite (H4 C)
    | rewrite (H5 C)]; reflexivity.
Qed.

(** Two texts without a comma, each followed by a comma and more, are
    equal when the whole is. *)
Lemma split_at_comma : forall s1 s2 r1 r2 : string,
  has_comma s1 = false -> has_comma s2 = false ->
  (s1 ++ ", " ++ r1 = s2 ++ ", " ++ r2)%string -> s1 = s2 /\ r1 = r2.
Proof.
  induction s1 as [|c1 t1 IH]; intros [|c2 t2] r1 r2 H1 H2 E.
  - cbn in E. inversion E. auto.
  - cbn in E. inversion E as [[Ec Et]]. subst c2.
    cbn in H2. discriminate.
  - cbn in E. inversion E as [[Ec Et]]. subst c1.
    cbn in H1. discriminate.
  - cbn in E. inversion E as [[Ec Et]]. subst c2.
    unfold has_comma in H1, H2. cbn in H1, H2.
    apply orb_false_iff in H1. apply orb_false_iff in H2.
    destruct (IH t2 r1 r2) as [-> ->]; tauto.
Qed.

Lemma report_line_injective : forall e1 e2 : entry,
  has_comma (entry_label e1) = false ->
  has_comma (entry_label e2) = false ->
  report_line e1 = report_line e2 -> e1 = e2.
Proof.
  intros [[c1 l1] n1] [[c2 l2] n2]. unfold entry_label. cbn [fst snd].
  intros H1 H2 E. unfold report_line in E.
  destruct (split_at_comma _ _ _ _ (str_has_no_comma c1)
              (str_has_no_comma c2) E) as [Ec E'].
  destruct (split_at_comma _ _ _ _ H1 H2 E') as [El En].
  apply str_injective in Ec. apply str_injective in En. now subst.
Qed.

(** The entries of a report have labels without a comma. *)
Lemma labels_of_a_report : forall rows e,
  In e (fst (process_file rows)) -> has_comma (entry_label e) = false.
Proof.
  intros rows e. unfold process_file.
  destruct (aggregate rows []) as [x|contacts]; [intros []|].
  unfold normalize.
  destruct (extremes (Dict.values contacts)) as [mx mn].
  rewrite report_entries. intro H. apply in_map_iff in H.
  destruct H as [[c s] [He _]]. subst e. unfold entry_of, entry_label.
  cbn [fst snd]. destruct (normalized_score mx mn s).
  - reflexivity.
  - apply label_has_no_comma.
Qed.

(** X11. A line that [main] prints shows one entry only: the contact id and
    the score are written in decimal, and neither they nor the label of an
    entry of a report holds a comma, so two entries with the same line are
    the same entry. *)
Theorem report_line_shows_one_entry :
  forall (rows1 rows2 : list (list string)) (e1 e2 : entry),
  In e1 (fst (process_file rows1)) -> In e2 (fst (process_file rows2)) ->
  report_line e1 = report_line e2 -> e1 = e2.
Proof.
  intros rows1 rows2 e1 e2 H1 H2.
  apply report_line_injective; eapply labels_of_a_report; eassumption.
Qed.

Lemma report_line_witness :
  report_line (1, "bronze", 0) = "1, bronze, 0"
  /\ (1, "bronze", 0) = (1, "bronze", 0).
Proof.
  split; [reflexivity|].
  apply (report_line_shows_one_entry
           [["1"; "web"; "34.33"]] [["1"; "web"; "34.33"]]
           (1, "bronze", 0) (1, "bronze", 0));
    try (vm_compute; left; reflexivity); reflexivity.
Defined.

End More.
